(** * mcp-cli: the connection and invocation layer

    A shallow embedding of [src/client.ts], of [src/config.ts] (type guards,
    substitution of environment variables, the loader, the server table), of
    the enumeration loops of [src/commands/list.ts] and
    [src/commands/grep.ts], of the patterns of the grep command and of
    [parseTarget] of [src/commands/info.ts], together with the properties
    the specification states about them and further properties the code
    shows.

    Conventions of the embedding.
    - JavaScript strings are [string], read as UTF-8: an ASCII character is
      one byte, every other character two to four bytes from 128 up.
      [toLowerCase] lowers the characters as Unicode 14 has them.
    - JavaScript numbers are [Z] where the code counts (attempt indices,
      retry bounds) and [number] where it computes with fractions (the
      backoff formula): a double is the rational it holds, an infinity or
      NaN, and every operation rounds to the nearest double, ties to even.
      The sign of a zero is not kept.
    - Asynchronous code is sequential state passing: a computation takes the
      world and returns either the thrown value or the result, with the new
      world.
    - The protocol library (client construction, connect, listTools,
      callTool, close), the URL parser and the error formatter of errors.ts
      are parameters of the session layer; the library's operations may fail
      and act on the state of the library and of the servers.
    - An object whose property order matters (the [mcpServers] table) is the
      list of its properties in the order [Object.keys] gives them; an
      object used as a map (an environment) is the [gmap] of its own
      properties. Reading a property by its name also finds the members of
      [Object.prototype]; assigning to [__proto__] adds no property. *)

From Stdlib Require Import Ascii QArith Qround Qminmax Qpower Qabs Lqa.
From stdpp Require Import gmap strings list fin_maps pretty.

Close Scope Q_scope.
Local Open Scope string_scope.
Local Set Warnings "-register-all".

(* ================================================================== *)
(** * Part I: definitions *)
(* ================================================================== *)

(** ** Strings: the builtins the code calls *)

(** A [string] holds a JavaScript string in UTF-8 (a code unit that is half
    of a pair on its own is written as a code point is): an ASCII character
    is one byte under 128, every other character is two to four bytes from
    128 up. [includes], [startsWith], [split] and the comparison of strings
    are called with ASCII needles and separators, for which bytes and code
    units agree. *)
Definition byte (c : ascii) : Z := Z.of_N (N_of_ascii c).

Definition ascii_of_byte (z : Z) : ascii := ascii_of_N (Z.to_N z).

Definition peek (s : string) : option ascii :=
  match s with
  | String c _ => Some c
  | EmptyString => None
  end.

Definition behind (s : string) : string :=
  match s with
  | String _ rest => rest
  | EmptyString => EmptyString
  end.

(** A byte that continues a character. *)
Definition is_continuation (b : option ascii) : bool :=
  match b with
  | Some c => (128 <=? byte c)%Z && (byte c <=? 191)%Z
  | None => false
  end.

(** The number of bytes of the character that begins with the byte [b1],
    given the three bytes after it. A byte that begins no well-formed
    character counts for one. *)
Definition sequence_length (b1 : ascii) (b2 b3 b4 : option ascii) : nat :=
  let n1 := byte b1 in
  let n2 := match b2 with Some c => byte c | None => 0%Z end in
  if (194 <=? n1)%Z && (n1 <=? 223)%Z then
    if is_continuation b2 then 2 else 1
  else if (224 <=? n1)%Z && (n1 <=? 239)%Z then
    if is_continuation b2 && (negb (n1 =? 224)%Z || (160 <=? n2)%Z)
       && is_continuation b3
    then 3 else 1
  else if (240 <=? n1)%Z && (n1 <=? 244)%Z then
    if is_continuation b2 && (negb (n1 =? 240)%Z || (144 <=? n2)%Z)
       && (negb (n1 =? 244)%Z || (n2 <=? 143)%Z)
       && is_continuation b3 && is_continuation b4
    then 4 else 1
  else 1.

(** The characters of a string, each with its bytes. *)
Fixpoint chunks (s : string) : list string :=
  match s with
  | EmptyString => []
  | String b1 r1 =>
      match sequence_length b1 (peek r1) (peek (behind r1))
                            (peek (behind (behind r1))), r1 with
      | 4%nat, String b2 (String b3 (String b4 r4)) =>
          String b1 (String b2 (String b3 (String b4 EmptyString)))
          :: chunks r4
      | 3%nat, String b2 (String b3 r3) =>
          String b1 (String b2 (String b3 EmptyString)) :: chunks r3
      | 2%nat, String b2 r2 => String b1 (String b2 EmptyString) :: chunks r2
      | _, _ => String b1 EmptyString :: chunks r1
      end
  end.

(** The code point of a character. *)
Definition code_of (chunk : string) : option Z :=
  match chunk with
  | String b1 EmptyString =>
      if (byte b1 <? 128)%Z then Some (byte b1) else None
  | String b1 (String b2 EmptyString) =>
      Some ((byte b1 - 192) * 64 + (byte b2 - 128))%Z
  | String b1 (String b2 (String b3 EmptyString)) =>
      Some ((byte b1 - 224) * 4096 + (byte b2 - 128) * 64
            + (byte b3 - 128))%Z
  | String b1 (String b2 (String b3 (String b4 EmptyString))) =>
      Some ((byte b1 - 240) * 262144 + (byte b2 - 128) * 4096
            + (byte b3 - 128) * 64 + (byte b4 - 128))%Z
  | _ => None
  end.

(** The bytes of a code point. *)
Definition utf8 (c : Z) : string :=
  if (c <? 128)%Z then String (ascii_of_byte c) EmptyString
  else if (c <? 2048)%Z then
    String (ascii_of_byte (192 + c / 64))
      (String (ascii_of_byte (128 + c mod 64)) EmptyString)
  else if (c <? 65536)%Z then
    String (ascii_of_byte (224 + c / 4096))
      (String (ascii_of_byte (128 + c / 64 mod 64))
         (String (ascii_of_byte (128 + c mod 64)) EmptyString))
  else
    String (ascii_of_byte (240 + c / 262144))
      (String (ascii_of_byte (128 + c / 4096 mod 64))
         (String (ascii_of_byte (128 + c / 64 mod 64))
            (String (ascii_of_byte (128 + c mod 64)) EmptyString))).

(** The characters that have a lower case of one character: the first and the
    last of a run, the step of the run, and what is added to a character of
    the run to reach its lower case (Unicode 14). *)
Definition lowercase_table : list (Z * Z * Z * Z) :=
  [
    (65, 90, 1, 32); (192, 214, 1, 32); (216, 222, 1, 32); (256, 302, 2, 1);
    (306, 310, 2, 1); (313, 327, 2, 1); (330, 374, 2, 1);
    (376, 376, 1, -121); (377, 381, 2, 1); (385, 385, 1, 210);
    (386, 388, 2, 1); (390, 390, 1, 206); (391, 391, 1, 1);
    (393, 394, 1, 205); (395, 395, 1, 1); (398, 398, 1, 79);
    (399, 399, 1, 202); (400, 400, 1, 203); (401, 401, 1, 1);
    (403, 403, 1, 205); (404, 404, 1, 207); (406, 406, 1, 211);
    (407, 407, 1, 209); (408, 408, 1, 1); (412, 412, 1, 211);
    (413, 413, 1, 213); (415, 415, 1, 214); (416, 420, 2, 1);
    (422, 422, 1, 218); (423, 423, 1, 1); (425, 425, 1, 218);
    (428, 428, 1, 1); (430, 430, 1, 218); (431, 431, 1, 1);
    (433, 434, 1, 217); (435, 437, 2, 1); (439, 439, 1, 219);
    (440, 440, 1, 1); (444, 444, 1, 1); (452, 452, 1, 2); (453, 453, 1, 1);
    (455, 455, 1, 2); (456, 456, 1, 1); (458, 458, 1, 2); (459, 475, 2, 1);
    (478, 494, 2, 1); (497, 497, 1, 2); (498, 500, 2, 1); (502, 502, 1, -97);
    (503, 503, 1, -56); (504, 542, 2, 1); (544, 544, 1, -130);
    (546, 562, 2, 1); (570, 570, 1, 10795); (571, 571, 1, 1);
    (573, 573, 1, -163); (574, 574, 1, 10792); (577, 577, 1, 1);
    (579, 579, 1, -195); (580, 580, 1, 69); (581, 581, 1, 71);
    (582, 590, 2, 1); (880, 882, 2, 1); (886, 886, 1, 1); (895, 895, 1, 116);
    (902, 902, 1, 38); (904, 906, 1, 37); (908, 908, 1, 64);
    (910, 911, 1, 63); (913, 929, 1, 32); (931, 939, 1, 32);
    (975, 975, 1, 8); (984, 1006, 2, 1); (1012, 1012, 1, -60);
    (1015, 1015, 1, 1); (1017, 1017, 1, -7); (1018, 1018, 1, 1);
    (1021, 1023, 1, -130); (1024, 1039, 1, 80); (1040, 1071, 1, 32);
    (1120, 1152, 2, 1); (1162, 1214, 2, 1); (1216, 1216, 1, 15);
    (1217, 1229, 2, 1); (1232, 1326, 2, 1); (1329, 1366, 1, 48);
    (4256, 4293, 1, 7264); (4295, 4295, 1, 7264); (4301, 4301, 1, 7264);
    (5024, 5103, 1, 38864); (5104, 5109, 1, 8); (7312, 7354, 1, -3008);
    (7357, 7359, 1, -3008); (7680, 7828, 2, 1); (7838, 7838, 1, -7615);
    (7840, 7934, 2, 1); (7944, 7951, 1, -8); (7960, 7965, 1, -8);
    (7976, 7983, 1, -8); (7992, 7999, 1, -8); (8008, 8013, 1, -8);
    (8025, 8031, 2, -8); (8040, 8047, 1, -8); (8072, 8079, 1, -8);
    (8088, 8095, 1, -8); (8104, 8111, 1, -8); (8120, 8121, 1, -8);
    (8122, 8123, 1, -74); (8124, 8124, 1, -9); (8136, 8139, 1, -86);
    (8140, 8140, 1, -9); (8152, 8153, 1, -8); (8154, 8155, 1, -100);
    (8168, 8169, 1, -8); (8170, 8171, 1, -112); (8172, 8172, 1, -7);
    (8184, 8185, 1, -128); (8186, 8187, 1, -126); (8188, 8188, 1, -9);
    (8486, 8486, 1, -7517); (8490, 8490, 1, -8383); (8491, 8491, 1, -8262);
    (8498, 8498, 1, 28); (8544, 8559, 1, 16); (8579, 8579, 1, 1);
    (9398, 9423, 1, 26); (11264, 11311, 1, 48); (11360, 11360, 1, 1);
    (11362, 11362, 1, -10743); (11363, 11363, 1, -3814);
    (11364, 11364, 1, -10727); (11367, 11371, 2, 1);
    (11373, 11373, 1, -10780); (11374, 11374, 1, -10749);
    (11375, 11375, 1, -10783); (11376, 11376, 1, -10782);
    (11378, 11378, 1, 1); (11381, 11381, 1, 1); (11390, 11391, 1, -10815);
    (11392, 11490, 2, 1); (11499, 11501, 2, 1); (11506, 11506, 1, 1);
    (42560, 42604, 2, 1); (42624, 42650, 2, 1); (42786, 42798, 2, 1);
    (42802, 42862, 2, 1); (42873, 42875, 2, 1); (42877, 42877, 1, -35332);
    (42878, 42886, 2, 1); (42891, 42891, 1, 1); (42893, 42893, 1, -42280);
    (42896, 42898, 2, 1); (42902, 42920, 2, 1); (42922, 42922, 1, -42308);
    (42923, 42923, 1, -42319); (42924, 42924, 1, -42315);
    (42925, 42925, 1, -42305); (42926, 42926, 1, -42308);
    (42928, 42928, 1, -42258); (42929, 42929, 1, -42282);
    (42930, 42930, 1, -42261); (42931, 42931, 1, 928); (42932, 42946, 2, 1);
    (42948, 42948, 1, -48); (42949, 42949, 1, -42307);
    (42950, 42950, 1, -35384); (42951, 42953, 2, 1); (42960, 42960, 1, 1);
    (42966, 42968, 2, 1); (42997, 42997, 1, 1); (65313, 65338, 1, 32);
    (66560, 66599, 1, 40); (66736, 66771, 1, 40); (66928, 66938, 1, 39);
    (66940, 66954, 1, 39); (66956, 66962, 1, 39); (66964, 66965, 1, 39);
    (68736, 68786, 1, 64); (71840, 71871, 1, 32); (93760, 93791, 1, 32);
    (125184, 125217, 1, 34) ]%Z.

(** The cased characters that are not case-ignorable, in runs. *)
Definition cased_table : list (Z * Z) :=
  [
    (65, 90); (97, 122); (170, 170); (181, 181); (186, 186); (192, 214);
    (216, 246); (248, 442); (444, 447); (452, 659); (661, 687); (880, 883);
    (886, 887); (891, 893); (895, 895); (902, 902); (904, 906); (908, 908);
    (910, 929); (931, 1013); (1015, 1153); (1162, 1327); (1329, 1366);
    (1376, 1416); (4256, 4293); (4295, 4295); (4301, 4301); (4304, 4346);
    (4349, 4351); (5024, 5109); (5112, 5117); (7296, 7304); (7312, 7354);
    (7357, 7359); (7424, 7467); (7531, 7543); (7545, 7578); (7680, 7957);
    (7960, 7965); (7968, 8005); (8008, 8013); (8016, 8023); (8025, 8025);
    (8027, 8027); (8029, 8029); (8031, 8061); (8064, 8116); (8118, 8124);
    (8126, 8126); (8130, 8132); (8134, 8140); (8144, 8147); (8150, 8155);
    (8160, 8172); (8178, 8180); (8182, 8188); (8450, 8450); (8455, 8455);
    (8458, 8467); (8469, 8469); (8473, 8477); (8484, 8484); (8486, 8486);
    (8488, 8488); (8490, 8493); (8495, 8500); (8505, 8505); (8508, 8511);
    (8517, 8521); (8526, 8526); (8544, 8575); (8579, 8580); (9398, 9449);
    (11264, 11387); (11390, 11492); (11499, 11502); (11506, 11507);
    (11520, 11557); (11559, 11559); (11565, 11565); (42560, 42605);
    (42624, 42651); (42786, 42863); (42865, 42887); (42891, 42894);
    (42896, 42954); (42960, 42961); (42963, 42963); (42965, 42969);
    (42997, 42998); (43002, 43002); (43824, 43866); (43872, 43880);
    (43888, 43967); (64256, 64262); (64275, 64279); (65313, 65338);
    (65345, 65370); (66560, 66639); (66736, 66771); (66776, 66811);
    (66928, 66938); (66940, 66954); (66956, 66962); (66964, 66965);
    (66967, 66977); (66979, 66993); (66995, 67001); (67003, 67004);
    (68736, 68786); (68800, 68850); (71840, 71903); (93760, 93823);
    (119808, 119892); (119894, 119964); (119966, 119967); (119970, 119970);
    (119973, 119974); (119977, 119980); (119982, 119993); (119995, 119995);
    (119997, 120003); (120005, 120069); (120071, 120074); (120077, 120084);
    (120086, 120092); (120094, 120121); (120123, 120126); (120128, 120132);
    (120134, 120134); (120138, 120144); (120146, 120485); (120488, 120512);
    (120514, 120538); (120540, 120570); (120572, 120596); (120598, 120628);
    (120630, 120654); (120656, 120686); (120688, 120712); (120714, 120744);
    (120746, 120770); (120772, 120779); (122624, 122633); (122635, 122654);
    (125184, 125251); (127280, 127305); (127312, 127337); (127344, 127369) ]%Z.

(** The case-ignorable characters, in runs. *)
Definition case_ignorable_table : list (Z * Z) :=
  [
    (39, 39); (46, 46); (58, 58); (94, 94); (96, 96); (168, 168); (173, 173);
    (175, 175); (180, 180); (183, 184); (688, 879); (884, 885); (890, 890);
    (900, 901); (903, 903); (1155, 1161); (1369, 1369); (1375, 1375);
    (1425, 1469); (1471, 1471); (1473, 1474); (1476, 1477); (1479, 1479);
    (1524, 1524); (1536, 1541); (1552, 1562); (1564, 1564); (1600, 1600);
    (1611, 1631); (1648, 1648); (1750, 1757); (1759, 1768); (1770, 1773);
    (1807, 1807); (1809, 1809); (1840, 1866); (1958, 1968); (2027, 2037);
    (2042, 2042); (2045, 2045); (2070, 2093); (2137, 2139); (2184, 2184);
    (2192, 2193); (2200, 2207); (2249, 2306); (2362, 2362); (2364, 2364);
    (2369, 2376); (2381, 2381); (2385, 2391); (2402, 2403); (2417, 2417);
    (2433, 2433); (2492, 2492); (2497, 2500); (2509, 2509); (2530, 2531);
    (2558, 2558); (2561, 2562); (2620, 2620); (2625, 2626); (2631, 2632);
    (2635, 2637); (2641, 2641); (2672, 2673); (2677, 2677); (2689, 2690);
    (2748, 2748); (2753, 2757); (2759, 2760); (2765, 2765); (2786, 2787);
    (2810, 2815); (2817, 2817); (2876, 2876); (2879, 2879); (2881, 2884);
    (2893, 2893); (2901, 2902); (2914, 2915); (2946, 2946); (3008, 3008);
    (3021, 3021); (3072, 3072); (3076, 3076); (3132, 3132); (3134, 3136);
    (3142, 3144); (3146, 3149); (3157, 3158); (3170, 3171); (3201, 3201);
    (3260, 3260); (3263, 3263); (3270, 3270); (3276, 3277); (3298, 3299);
    (3328, 3329); (3387, 3388); (3393, 3396); (3405, 3405); (3426, 3427);
    (3457, 3457); (3530, 3530); (3538, 3540); (3542, 3542); (3633, 3633);
    (3636, 3642); (3654, 3662); (3761, 3761); (3764, 3772); (3782, 3782);
    (3784, 3789); (3864, 3865); (3893, 3893); (3895, 3895); (3897, 3897);
    (3953, 3966); (3968, 3972); (3974, 3975); (3981, 3991); (3993, 4028);
    (4038, 4038); (4141, 4144); (4146, 4151); (4153, 4154); (4157, 4158);
    (4184, 4185); (4190, 4192); (4209, 4212); (4226, 4226); (4229, 4230);
    (4237, 4237); (4253, 4253); (4348, 4348); (4957, 4959); (5906, 5908);
    (5938, 5939); (5970, 5971); (6002, 6003); (6068, 6069); (6071, 6077);
    (6086, 6086); (6089, 6099); (6103, 6103); (6109, 6109); (6155, 6159);
    (6211, 6211); (6277, 6278); (6313, 6313); (6432, 6434); (6439, 6440);
    (6450, 6450); (6457, 6459); (6679, 6680); (6683, 6683); (6742, 6742);
    (6744, 6750); (6752, 6752); (6754, 6754); (6757, 6764); (6771, 6780);
    (6783, 6783); (6823, 6823); (6832, 6862); (6912, 6915); (6964, 6964);
    (6966, 6970); (6972, 6972); (6978, 6978); (7019, 7027); (7040, 7041);
    (7074, 7077); (7080, 7081); (7083, 7085); (7142, 7142); (7144, 7145);
    (7149, 7149); (7151, 7153); (7212, 7219); (7222, 7223); (7288, 7293);
    (7376, 7378); (7380, 7392); (7394, 7400); (7405, 7405); (7412, 7412);
    (7416, 7417); (7468, 7530); (7544, 7544); (7579, 7679); (8125, 8125);
    (8127, 8129); (8141, 8143); (8157, 8159); (8173, 8175); (8189, 8190);
    (8203, 8207); (8216, 8217); (8228, 8228); (8231, 8231); (8234, 8238);
    (8288, 8292); (8294, 8303); (8305, 8305); (8319, 8319); (8336, 8348);
    (8400, 8432); (11388, 11389); (11503, 11505); (11631, 11631);
    (11647, 11647); (11744, 11775); (11823, 11823); (12293, 12293);
    (12330, 12333); (12337, 12341); (12347, 12347); (12441, 12446);
    (12540, 12542); (40981, 40981); (42232, 42237); (42508, 42508);
    (42607, 42610); (42612, 42621); (42623, 42623); (42652, 42655);
    (42736, 42737); (42752, 42785); (42864, 42864); (42888, 42890);
    (42994, 42996); (43000, 43001); (43010, 43010); (43014, 43014);
    (43019, 43019); (43045, 43046); (43052, 43052); (43204, 43205);
    (43232, 43249); (43263, 43263); (43302, 43309); (43335, 43345);
    (43392, 43394); (43443, 43443); (43446, 43449); (43452, 43453);
    (43471, 43471); (43493, 43494); (43561, 43566); (43569, 43570);
    (43573, 43574); (43587, 43587); (43596, 43596); (43632, 43632);
    (43644, 43644); (43696, 43696); (43698, 43700); (43703, 43704);
    (43710, 43711); (43713, 43713); (43741, 43741); (43756, 43757);
    (43763, 43764); (43766, 43766); (43867, 43871); (43881, 43883);
    (44005, 44005); (44008, 44008); (44013, 44013); (64286, 64286);
    (64434, 64450); (65024, 65039); (65043, 65043); (65056, 65071);
    (65106, 65106); (65109, 65109); (65279, 65279); (65287, 65287);
    (65294, 65294); (65306, 65306); (65342, 65342); (65344, 65344);
    (65392, 65392); (65438, 65439); (65507, 65507); (65529, 65531);
    (66045, 66045); (66272, 66272); (66422, 66426); (67456, 67461);
    (67463, 67504); (67506, 67514); (68097, 68099); (68101, 68102);
    (68108, 68111); (68152, 68154); (68159, 68159); (68325, 68326);
    (68900, 68903); (69291, 69292); (69446, 69456); (69506, 69509);
    (69633, 69633); (69688, 69702); (69744, 69744); (69747, 69748);
    (69759, 69761); (69811, 69814); (69817, 69818); (69821, 69821);
    (69826, 69826); (69837, 69837); (69888, 69890); (69927, 69931);
    (69933, 69940); (70003, 70003); (70016, 70017); (70070, 70078);
    (70089, 70092); (70095, 70095); (70191, 70193); (70196, 70196);
    (70198, 70199); (70206, 70206); (70367, 70367); (70371, 70378);
    (70400, 70401); (70459, 70460); (70464, 70464); (70502, 70508);
    (70512, 70516); (70712, 70719); (70722, 70724); (70726, 70726);
    (70750, 70750); (70835, 70840); (70842, 70842); (70847, 70848);
    (70850, 70851); (71090, 71093); (71100, 71101); (71103, 71104);
    (71132, 71133); (71219, 71226); (71229, 71229); (71231, 71232);
    (71339, 71339); (71341, 71341); (71344, 71349); (71351, 71351);
    (71453, 71455); (71458, 71461); (71463, 71467); (71727, 71735);
    (71737, 71738); (71995, 71996); (71998, 71998); (72003, 72003);
    (72148, 72151); (72154, 72155); (72160, 72160); (72193, 72202);
    (72243, 72248); (72251, 72254); (72263, 72263); (72273, 72278);
    (72281, 72283); (72330, 72342); (72344, 72345); (72752, 72758);
    (72760, 72765); (72767, 72767); (72850, 72871); (72874, 72880);
    (72882, 72883); (72885, 72886); (73009, 73014); (73018, 73018);
    (73020, 73021); (73023, 73029); (73031, 73031); (73104, 73105);
    (73109, 73109); (73111, 73111); (73459, 73460); (78896, 78904);
    (92912, 92916); (92976, 92982); (92992, 92995); (94031, 94031);
    (94095, 94111); (94176, 94177); (94179, 94180); (110576, 110579);
    (110581, 110587); (110589, 110590); (113821, 113822); (113824, 113827);
    (118528, 118573); (118576, 118598); (119143, 119145); (119155, 119170);
    (119173, 119179); (119210, 119213); (119362, 119364); (121344, 121398);
    (121403, 121452); (121461, 121461); (121476, 121476); (121499, 121503);
    (121505, 121519); (122880, 122886); (122888, 122904); (122907, 122913);
    (122915, 122916); (122918, 122922); (123184, 123197); (123566, 123566);
    (123628, 123631); (125136, 125142); (125252, 125259); (127995, 127999);
    (917505, 917505); (917536, 917631); (917760, 917999) ]%Z.

(** What the table adds to [c], if [c] is in a run of it. The runs are in
    ascending order. *)
Fixpoint case_offset (c : Z) (table : list (Z * Z * Z * Z)) : option Z :=
  match table with
  | [] => None
  | (first, last, step, offset) :: table' =>
      if (c <? first)%Z then None
      else if (c <=? last)%Z && ((c - first) mod step =? 0)%Z
      then Some offset
      else case_offset c table'
  end.

Fixpoint in_runs (c : Z) (table : list (Z * Z)) : bool :=
  match table with
  | [] => false
  | (first, last) :: table' =>
      if (c <? first)%Z then false
      else (c <=? last)%Z || in_runs c table'
  end.

Definition is_cased (chunk : string) : bool :=
  match code_of chunk with
  | Some c => in_runs c cased_table
  | None => false
  end.

Definition is_case_ignorable (chunk : string) : bool :=
  match code_of chunk with
  | Some c => in_runs c case_ignorable_table
  | None => false
  end.

(** After case-ignorable characters, a cased letter follows. *)
Fixpoint followed_by_cased (cs : list string) : bool :=
  match cs with
  | [] => false
  | c :: rest =>
      if is_case_ignorable c then followed_by_cased rest else is_cased c
  end.

(** The lower case of one character. The capital I with a dot becomes an i
    and a combining dot; the capital sigma becomes the final sigma at the end
    of a word; a character the table has becomes the one the table gives;
    every other character, and every byte that is no character, is kept. *)
Definition lower_case_of (final : bool) (chunk : string) : string :=
  match code_of chunk with
  | None => chunk
  | Some c =>
      if (c =? 304)%Z then utf8 105 +:+ utf8 775
      else if (c =? 931)%Z then utf8 (if final then 962 else 963)
      else match case_offset c lowercase_table with
           | Some offset => utf8 (c + offset)
           | None => chunk
           end
  end.

(** The lower case of the characters [cs]; [after_cased] tells whether a
    cased letter and then only case-ignorable characters come before
    them. *)
Fixpoint lower_chunks (after_cased : bool) (cs : list string) : string :=
  match cs with
  | [] => EmptyString
  | c :: rest =>
      lower_case_of (after_cased && negb (followed_by_cased rest)) c
      +:+ lower_chunks (if is_case_ignorable c then after_cased
                        else is_cased c) rest
  end.

(** [s.toLowerCase()] *)
Definition toLowerCase (s : string) : string := lower_chunks false (chunks s).

(** [s.startsWith(needle)]: the comparison [includes] makes at one position. *)
Fixpoint startsWith (s needle : string) {struct needle} : bool :=
  match needle, s with
  | EmptyString, _ => true
  | String _ _, EmptyString => false
  | String a needle', String b s' =>
      if Ascii.eqb a b then startsWith s' needle' else false
  end.

(** [s.includes(needle)]: some position of [s] starts with [needle]. *)
Fixpoint includes (s needle : string) : bool :=
  startsWith s needle ||
  match s with
  | EmptyString => false
  | String _ s' => includes s' needle
  end.

(** ** Strings: characters and bytes *)

(** The first character of the string [String b1 r1], and what follows
    it. *)
Definition first_chunk (b1 : ascii) (r1 : string) : string * string :=
  match sequence_length b1 (peek r1) (peek (behind r1))
                        (peek (behind (behind r1))), r1 with
  | 4%nat, String b2 (String b3 (String b4 r4)) =>
      (String b1 (String b2 (String b3 (String b4 EmptyString))), r4)
  | 3%nat, String b2 (String b3 r3) =>
      (String b1 (String b2 (String b3 EmptyString)), r3)
  | 2%nat, String b2 r2 => (String b1 (String b2 EmptyString), r2)
  | _, _ => (String b1 EmptyString, r1)
  end.

(** The string is one character: a well-formed one, or one byte. *)
Definition is_character (chunk : string) : bool :=
  match chunk with
  | String b1 r =>
      (sequence_length b1 (peek r) (peek (behind r)) (peek (behind (behind r)))
       =? String.length chunk)%nat
  | EmptyString => false
  end.

(** The strings of a list, one after the other. *)
Definition joined (cs : list string) : string := foldr String.append "" cs.

(** Every byte of the string is from 128 up. *)
Fixpoint all_high (s : string) : bool :=
  match s with
  | EmptyString => true
  | String b rest => (128 <=? byte b)%Z && all_high rest
  end.

(** Every character of the string is an ASCII character. *)
Fixpoint is_ascii (s : string) : bool :=
  match s with
  | EmptyString => true
  | String b rest => (byte b <? 128)%Z && is_ascii rest
  end.

(** ** Errors *)

(** A JavaScript [Error] object, as far as the code reads it. *)
Record Error := mkError { name : string; message : string }.

(** ** client.ts: isTransientError *)

Definition isTransientError (error : Error) : bool :=
  let message := toLowerCase (message error) in
  (* Network errors *)
  if includes message "econnrefused" then true else
  if includes message "econnreset" then true else
  if includes message "etimedout" then true else
  if includes message "enotfound" then true else
  if includes message "epipe" then true else
  if includes message "network" then true else
  (* HTTP transient errors *)
  if includes message "502" then true else
  if includes message "503" then true else
  if includes message "504" then true else
  if includes message "429" then true else
  (* Connection issues *)
  if includes message "connection" then true else
  if includes message "timeout" then true else
  false.

(** The substrings the classifier searches the lower case of the message
    for: five error codes, three generic words and four status markers. *)
Definition transient_substrings : list string :=
  [ "econnrefused"; "econnreset"; "etimedout"; "enotfound"; "epipe";
    "network"; "connection"; "timeout"; "429"; "502"; "503"; "504" ].

(** The specification's side of the classifier: the substrings of section
    4.1 as the specification writes them. *)
Definition named_transient_substrings : list string :=
  [ "connection-refused"; "connection-reset"; "timed-out"; "host-not-found";
    "broken-pipe"; "network"; "connection"; "timeout"; "429"; "502"; "503";
    "504" ].

(** The Kelvin sign, U+212A, whose lower case is the letter k. *)
Definition KELVIN_SIGN : string :=
  String "226"%char (String "132"%char (String "170"%char EmptyString)).


(** The lower case of an ASCII character. *)
Definition lower_ascii (c : ascii) : ascii :=
  let n := nat_of_ascii c in
  if (65 <=? n)%nat && (n <=? 90)%nat then ascii_of_nat (n + 32) else c.

(** Two characters are the same up to case when they are equal or one is the
    capital of the other, among the ASCII letters. *)
Definition is_capital (c : ascii) : bool :=
  let n := nat_of_ascii c in (65 <=? n)%nat && (n <=? 90)%nat.

Definition same_char_ignoring_case (a b : ascii) : bool :=
  Ascii.eqb a b
  || (is_capital a && (nat_of_ascii b =? nat_of_ascii a + 32)%nat)
  || (is_capital b && (nat_of_ascii a =? nat_of_ascii b + 32)%nat).

Fixpoint same_ignoring_case (s t : string) : bool :=
  match s, t with
  | EmptyString, EmptyString => true
  | String a s', String b t' =>
      same_char_ignoring_case a b && same_ignoring_case s' t'
  | _, _ => false
  end.

(** What follows the Kelvin sign, in a string that begins with it. *)
Definition after_kelvin_sign (s : string) : option string :=
  match s with
  | String b1 (String b2 (String b3 rest)) =>
      if String.eqb (String b1 (String b2 (String b3 EmptyString))) KELVIN_SIGN
      then Some rest else None
  | _ => None
  end.

(** [mid] is [needle] up to the case of its letters: character by character,
    a character of [needle] is written as it is or as its capital, and the
    letter k also as the Kelvin sign. *)
Fixpoint matches_ignoring_case (mid needle : string) {struct needle} : bool :=
  match needle with
  | EmptyString => match mid with EmptyString => true | _ => false end
  | String n needle' =>
      match mid with
      | EmptyString => false
      | String a mid' =>
          (same_char_ignoring_case a n && matches_ignoring_case mid' needle')
          || (Ascii.eqb n "k"
              && match after_kelvin_sign mid with
                 | Some rest => matches_ignoring_case rest needle'
                 | None => false
                 end)
      end
  end.

(** [msg] contains [needle] case-insensitively: some substring of [msg] is
    [needle] up to the case of its letters. *)
Definition contains_ignoring_case (msg needle : string) : Prop :=
  exists pre mid post,
    msg = pre +:+ mid +:+ post /\ matches_ignoring_case mid needle = true.

(** A needle of ASCII characters, none of them a capital, that does not end
    in an i. *)
Fixpoint is_plain (needle : string) : bool :=
  match needle with
  | EmptyString => true
  | String n needle' =>
      (byte n <? 128)%Z && negb (is_capital n)
      && match needle' with
         | EmptyString => negb (Ascii.eqb n "i")
         | _ => true
         end
      && is_plain needle'
  end.

(** ** Numbers *)

(** A JavaScript number is a double: [NaN], an infinity, or a finite double,
    which is given by its value. The sign of zero, which no operation the
    code performs can tell apart, is not kept. *)
Inductive number :=
| NaN
| Infinity (negative : bool)
| Finite (value : Q).

Definition pow2 (e : Z) : Q := ((2 # 1) ^ e)%Q.
Arguments pow2 : simpl never.

(** For [q > 0], the [l] such that [2^l <= q < 2^(l+1)]. *)
Definition floor_log2 (q : Q) : Z :=
  let l := (Z.log2 (Qnum q) - Z.log2 (Z.pos (Qden q)))%Z in
  if Qle_bool (pow2 l) q then l else (l - 1)%Z.

(** The nearest integer, and of two the even one. *)
Definition round_half_even (q : Q) : Z :=
  let f := Qfloor q in
  match (q - inject_Z f ?= 1 # 2)%Q with
  | Lt => f
  | Gt => (f + 1)%Z
  | Eq => if Z.even f then f else (f + 1)%Z
  end.

(** The exponent of the last binary place of a double of the size of [q]:
    53 significant bits, and no place under [2^-1074]. *)
Definition ulp_exponent (q : Q) : Z :=
  Z.max (floor_log2 (Qabs q) - 52) (-1074).

(** [q] rounded to a whole number of last places, ties to even. *)
Definition rounded (q : Q) : Q :=
  let e := ulp_exponent q in
  (inject_Z (round_half_even (q / pow2 e)) * pow2 e)%Q.

(** The double an exact result [q] is rounded to: the nearest double, and an
    infinity from [2^1024] on. *)
Definition double (q : Q) : number :=
  let r := rounded q in
  if Qle_bool (pow2 1024) (Qabs r)
  then Infinity (negb (Qle_bool 0 r))
  else Finite (Qred r).
Arguments rounded : simpl never.
Arguments double : simpl never.



(** [x * y] *)
Definition number_mul (x y : number) : number :=
  match x, y with
  | NaN, _ => NaN
  | _, NaN => NaN
  | Infinity s, Infinity t => Infinity (xorb s t)
  | Infinity s, Finite q =>
      if Qeq_bool q 0 then NaN else Infinity (xorb s (negb (Qle_bool 0 q)))
  | Finite p, Infinity t =>
      if Qeq_bool p 0 then NaN else Infinity (xorb (negb (Qle_bool 0 p)) t)
  | Finite p, Finite q => double (p * q)
  end.

(** [x + y] *)
Definition number_add (x y : number) : number :=
  match x, y with
  | NaN, _ => NaN
  | _, NaN => NaN
  | Infinity s, Infinity t => if Bool.eqb s t then Infinity s else NaN
  | Infinity s, Finite _ => Infinity s
  | Finite _, Infinity t => Infinity t
  | Finite p, Finite q => double (p + q)
  end.

(** [x - y] *)
Definition number_sub (x y : number) : number :=
  match x, y with
  | NaN, _ => NaN
  | _, NaN => NaN
  | Infinity s, Infinity t => if Bool.eqb s t then NaN else Infinity s
  | Infinity s, Finite _ => Infinity s
  | Finite _, Infinity t => Infinity (negb t)
  | Finite p, Finite q => double (p - q)
  end.

(** [Math.min(x, y)] *)
Definition Math_min (x y : number) : number :=
  match x, y with
  | NaN, _ => NaN
  | _, NaN => NaN
  | Infinity true, _ => Infinity true
  | _, Infinity true => Infinity true
  | Infinity false, _ => y
  | _, Infinity false => x
  | Finite p, Finite q => if Qle_bool p q then x else y
  end.
(** [Math.pow(2, y)] for an integer [y]. *)
Definition Math_pow_2 (y : Z) : number :=
  if (1024 <=? y)%Z then Infinity false
  else if (y <? -1075)%Z then Finite 0
  else double (pow2 y).

(** The nearest integer, halves upwards. *)
Definition round_half_up (q : Q) : Z := Qfloor (q + (1 # 2))%Q.

(** [Math.round(x)] *)
Definition Math_round (x : number) : number :=
  match x with
  | Finite q => Finite (inject_Z (round_half_up q))
  | _ => x
  end.
Arguments Math_round : simpl never.

Declare Scope number_scope.
Delimit Scope number_scope with number.
Bind Scope number_scope with number.
Infix "*" := number_mul : number_scope.
Infix "+" := number_add : number_scope.
Infix "-" := number_sub : number_scope.

(** The order of the numbers that are not [NaN]. *)
Definition number_le (x y : number) : Prop :=
  match x, y with
  | NaN, _ | _, NaN => False
  | Infinity true, _ => True
  | _, Infinity false => True
  | Finite p, Finite q => (p <= q)%Q
  | _, _ => False
  end.

(** *** Number.prototype.toString *)

Definition pow10 (n : Z) : Q := ((10 # 1) ^ n)%Q.
Arguments pow10 : simpl never.

(** For [x > 0], the [n] such that [10^(n-1) <= x < 10^n]. *)
Definition decimal_exponent (x : Q) : Z :=
  let guess := (floor_log2 x * 30103 / 100000)%Z in
  default (guess + 4)%Z
    (find (fun n => negb (Qle_bool (pow10 n) x))
          [ (guess - 1)%Z; guess; (guess + 1)%Z; (guess + 2)%Z;
            (guess + 3)%Z ]).

(** The decimal [s * 10^(n-k)] of [k] digits, when it is read back as [x]. *)
Definition digits_candidate (x : Q) (n k s : Z) : option (Z * Z) :=
  let '(s, n) :=
    if (s =? 10 ^ k)%Z then ((10 ^ (k - 1))%Z, (n + 1)%Z) else (s, n) in
  if (10 ^ (k - 1) <=? s)%Z && (s <? 10 ^ k)%Z then
    match double (inject_Z s * pow10 (n - k)) with
    | Finite v => if Qeq_bool v x then Some (s, n) else None
    | _ => None
    end
  else None.

(** The shortest decimal that is read back as [x], and of two the nearer to
    [x]: its digits [s], the exponent [n] and the number of digits [k]. *)
Fixpoint shortest_decimal (fuel : nat) (k : Z) (x : Q) (n : Z) : Z * Z * Z :=
  match fuel with
  | O => (0, n, k)%Z
  | S fuel' =>
      let below := Qfloor (x / pow10 (n - k)) in
      match digits_candidate x n k below,
            digits_candidate x n k (below + 1) with
      | Some (s, n1), Some (t, n2) =>
          let ds := Qabs (inject_Z s * pow10 (n1 - k) - x) in
          let dt := Qabs (inject_Z t * pow10 (n2 - k) - x) in
          match (ds ?= dt)%Q with
          | Lt => (s, n1, k)
          | Gt => (t, n2, k)
          | Eq => if Z.even s then (s, n1, k) else (t, n2, k)
          end
      | Some (s, n1), None => (s, n1, k)
      | None, Some (t, n2) => (t, n2, k)
      | None, None => shortest_decimal fuel' (k + 1)%Z x n
      end
  end.

Definition zeros (n : Z) : string :=
  String.concat "" (replicate (Z.to_nat n) "0").

(** [String(x)] *)
Definition Number_toString (x : number) : string :=
  match x with
  | NaN => "NaN"
  | Infinity false => "Infinity"
  | Infinity true => "-Infinity"
  | Finite q =>
      if Qeq_bool q 0 then "0" else
      let sign := if Qle_bool 0 q then "" else "-" in
      let '(s, n, k) :=
        shortest_decimal 17 1 (Qabs q) (decimal_exponent (Qabs q)) in
      let digits := pretty s in
      let exponent :=
        (if (0 <=? n - 1)%Z then "+" else "-") +:+ pretty (Z.abs (n - 1)) in
      sign +:+
      (if (k <=? n)%Z && (n <=? 21)%Z then digits +:+ zeros (n - k)
       else if (0 <? n)%Z && (n <=? 21)%Z then
         String.substring 0 (Z.to_nat n) digits +:+ "."
         +:+ String.substring (Z.to_nat n) (Z.to_nat (k - n)) digits
       else if (-6 <? n)%Z && (n <=? 0)%Z then
         "0." +:+ zeros (- n) +:+ digits
       else if (k =? 1)%Z then digits +:+ "e" +:+ exponent
       else String.substring 0 1 digits +:+ "."
            +:+ String.substring 1 (Z.to_nat (k - 1)) digits
            +:+ "e" +:+ exponent)
  end.
Arguments Number_toString : simpl never.

(** ** The world, and computations that may throw *)

(** What the code can observe and change outside its own variables. [ext] is
    whatever lies behind the operations it is handed (the servers, the state a
    closure captured); the other fields are the process services the code
    calls itself: [process.env], [Math.random], [console.error] and the timers
    [sleep] waits on. *)
Record World (St : Type) := mkWorld {
  ext : St;
  process_env : gmap string (option string);
  entropy : nat -> Q;
  drawn : nat;
  stderr : list string;
  timers : list number;
}.
Arguments mkWorld {St}.
Arguments ext {St}.
Arguments process_env {St}.
Arguments entropy {St}.
Arguments drawn {St}.
Arguments stderr {St}.
Arguments timers {St}.

Definition set_ext {St St'} (x : St') (w : World St) : World St' :=
  mkWorld x (process_env w) (entropy w) (drawn w) (stderr w) (timers w).

(** A computation over state [St] that throws a value of [E] or returns a
    value of [A]. *)
Definition M (St E A : Type) : Type := St -> (E + A) * St.

Definition ret {St E A} (a : A) : M St E A := fun s => (inr a, s).

Definition throw {St E A} (e : E) : M St E A := fun s => (inl e, s).

Definition bind {St E A B} (c : M St E A) (k : A -> M St E B) : M St E B :=
  fun s => match c s with
           | (inr a, s') => k a s'
           | (inl e, s') => (inl e, s')
           end.

Notation "x <- c ;; k" := (bind c (fun x => k))
  (at level 100, c at next level, right associativity).
Notation "c ;;; k" := (bind c (fun _ => k))
  (at level 100, k at level 200, right associativity).

(** [try { body } catch (error) { handler }] *)
Definition try_catch {St E E' A} (body : M St E A) (handler : E -> M St E' A)
  : M St E' A :=
  fun s => match body s with
           | (inr a, s') => (inr a, s')
           | (inl e, s') => handler e s'
           end.

(** [try { body } finally { cleanup }]: the cleanup always runs, and what it
    throws replaces the outcome of the body. *)
Definition try_finally {St E A} (body : M St E A) (cleanup : M St E unit)
  : M St E A :=
  fun s => match body s with
           | (r, s') => match cleanup s' with
                        | (inr _, s'') => (r, s'')
                        | (inl e, s'') => (inl e, s'')
                        end
           end.

(** ** Process services *)

(** [Math.random()]: the next number of the world's supply, which gives the
    values of the doubles drawn. *)
Definition Math_random {St E} : M (World St) E number :=
  fun w => (inr (Finite (entropy w (drawn w))),
            mkWorld (ext w) (process_env w) (entropy w) (S (drawn w))
                    (stderr w) (timers w)).

(** [console.error(line)] *)
Definition console_error {St E} (line : string) : M (World St) E unit :=
  fun w => (inr tt,
            mkWorld (ext w) (process_env w) (entropy w) (drawn w)
                    (stderr w ++ [line])%list (timers w)).

(** The truth value of [process.env.MCP_DEBUG]: set, and not the empty
    string. *)
Definition MCP_DEBUG {St} (w : World St) : bool :=
  match process_env w !! "MCP_DEBUG" with
  | Some (Some v) => bool_decide (v <> "")
  | _ => false
  end.

(** Between two worlds, the environment and the diagnostics are the same. *)
Definition quiet {St} (w w' : World St) : Prop :=
  process_env w' = process_env w /\ stderr w' = stderr w.

(** ** client.ts: the retry policy *)

Record RetryConfig := mkRetryConfig {
  maxRetries : Z;
  baseDelayMs : Q;
  maxDelayMs : Q;
}.

Definition DEFAULT_RETRY_CONFIG : RetryConfig :=
  {| maxRetries := 3; baseDelayMs := 1000 # 1; maxDelayMs := 10000 # 1 |}.

(** ** client.ts: calculateDelay *)

(** The delay before jitter, [cappedDelay] in the source. The two delays of
    the policy are given by their values. *)
Definition cappedDelay (attempt : Z) (config : RetryConfig) : number :=
  let exponentialDelay :=
    (Finite (baseDelayMs config) * Math_pow_2 attempt)%number in
  Math_min exponentialDelay (Finite (maxDelayMs config)).
Arguments cappedDelay : simpl never.

Definition calculateDelay {St E} (attempt : Z) (config : RetryConfig)
  : M (World St) E number :=
  let cappedDelay := cappedDelay attempt config in
  (* Add jitter (+-25%) *)
  random <- Math_random ;;
  let jitter :=
    (cappedDelay * Finite (1 # 4)
     * (random * Finite (2 # 1) - Finite 1))%number in
  ret (Math_round (cappedDelay + jitter)%number).

(** ** client.ts: sleep *)

Definition sleep {St E} (ms : number) : M (World St) E unit :=
  fun w => (inr tt,
            mkWorld (ext w) (process_env w) (entropy w) (drawn w)
                    (stderr w) (timers w ++ [ms])%list).

(** ** client.ts: withRetry *)

Definition retry_message (operationName : string) (config : RetryConfig)
    (attempt : Z) (lastError : Error) (delay : number) : string :=
  "[retry] " +:+ operationName +:+ " failed (attempt "
  +:+ pretty (attempt + 1)%Z +:+ "/" +:+ pretty (maxRetries config + 1)%Z
  +:+ "): " +:+ message lastError +:+ ". Retrying in "
  +:+ Number_toString delay +:+ "ms...".

(** The branch taken before another attempt: compute the delay, report it in
    debug mode, wait. *)
Definition backoff {St E} (operationName : string) (config : RetryConfig)
    (attempt : Z) (lastError : Error) : M (World St) E unit :=
  delay <- calculateDelay attempt config ;;
  (fun w => if MCP_DEBUG w
            then console_error
                   (retry_message operationName config attempt lastError delay)
                   w
            else ret tt w) ;;;
  sleep delay.

(** The [for] loop of [withRetry]. [iterations] is the number of values of
    [attempt] from the current one up to [maxRetries], so that [O] is the
    exit of the loop, where the source throws [lastError], which is still
    [undefined] when the body never ran. [fn] throws errors; [withRetry]
    throws an error or [undefined]. *)
Fixpoint withRetry_loop {St T} (fn : M (World St) Error T)
    (operationName : string) (config : RetryConfig)
    (iterations : nat) (attempt : Z) (lastError : option Error)
  : M (World St) (option Error) T :=
  match iterations with
  | O => throw lastError
  | S iterations' =>
      try_catch fn (fun error =>
        let lastError := error in
        if (attempt <? maxRetries config)%Z && isTransientError lastError
        then
          backoff operationName config attempt lastError ;;;
          withRetry_loop fn operationName config iterations'
                         (attempt + 1)%Z (Some lastError)
        else throw (Some lastError))
  end.

Definition withRetry {St T} (fn : M (World St) Error T)
    (operationName : string) (config : RetryConfig)
  : M (World St) (option Error) T :=
  withRetry_loop fn operationName config
                 (Z.to_nat (maxRetries config + 1)) 0%Z None.

(** A test double around an operation: it counts the executions in the first
    component of the external state and otherwise behaves as [fn]. *)
Definition counting {St E T} (fn : M (World St) E T) : M (World (nat * St)) E T :=
  fun w => match fn (set_ext (snd (ext w)) w) with
           | (r, w') => (r, set_ext (S (fst (ext w)), ext w') w')
           end.

(** The number of executions a [counting] operation has recorded. *)
Definition executions {St} (w : World (nat * St)) : nat := fst (ext w).

(** ** Objects *)

(** The members every object made by [{}] or by [JSON.parse] inherits from
    [Object.prototype], with the text [String(member)] gives. The text of a
    function is written as V8 prints it; engines differ in the white space
    of that text, and in none is it empty. *)
Definition Object_prototype_members : list (string * string) :=
  [ ("constructor", "function Object() { [native code] }");
    ("__defineGetter__", "function __defineGetter__() { [native code] }");
    ("__defineSetter__", "function __defineSetter__() { [native code] }");
    ("hasOwnProperty", "function hasOwnProperty() { [native code] }");
    ("__lookupGetter__", "function __lookupGetter__() { [native code] }");
    ("__lookupSetter__", "function __lookupSetter__() { [native code] }");
    ("isPrototypeOf", "function isPrototypeOf() { [native code] }");
    ("propertyIsEnumerable",
     "function propertyIsEnumerable() { [native code] }");
    ("toString", "function toString() { [native code] }");
    ("valueOf", "function valueOf() { [native code] }");
    ("__proto__", "[object Object]");
    ("toLocaleString", "function toLocaleString() { [native code] }") ].

Definition Object_prototype_names : list string :=
  map fst Object_prototype_members.

(** ** config.ts: server descriptors *)

(** Opaque structured data (input schemas, tool arguments and results). *)
Inductive JSON :=
| JNull
| JBool (b : bool)
| JNumber (q : Q)
| JString (s : string)
| JArray (items : list JSON)
| JObject (members : list (string * JSON)).

(** A server descriptor is a plain object: [StdioServerConfig] and
    [HttpServerConfig] name the keys it may carry, and nothing prevents an
    object read from the configuration file from carrying keys of both or of
    neither. [None] is an absent key. *)
Record ServerConfig := mkServerConfig {
  command : option string;
  args : option (list string);
  env : option (gmap string string);
  cwd : option string;
  url : option string;
  headers : option (gmap string string);
  timeout : option Q;
}.

(** The property list of the [mcpServers] object, in the order [Object.keys]
    enumerates it. *)
Record McpServersConfig := mkMcpServersConfig {
  mcpServers : list (string * ServerConfig);
}.

(** ['url' in config] *)
Definition isHttpServer (config : ServerConfig) : bool :=
  match url config with Some _ => true | None => false end.

(** ['command' in config] *)
Definition isStdioServer (config : ServerConfig) : bool :=
  match command config with Some _ => true | None => false end.

(** [obj[key]] on a property list. *)
Fixpoint get_property {V} (obj : list (string * V)) (key : string) : option V :=
  match obj with
  | [] => None
  | (k, v) :: obj' => if String.eqb k key then Some v else get_property obj' key
  end.

(** [Object.keys(config.mcpServers)] *)
Definition listServerNames (config : McpServersConfig) : list string :=
  map fst (mcpServers config).

(** ** client.ts: tools and transports *)

Module ToolInfo.
Record t := mk {
  name : string;
  description : option string;
  inputSchema : JSON;
}.
End ToolInfo.

(** A tool as the protocol library reports it; [annotations] stands for the
    fields [listTools] does not copy. *)
Module Tool.
Record t := mk {
  name : string;
  description : option string;
  inputSchema : JSON;
  annotations : option JSON;
}.
End Tool.

(** A parsed [URL]. *)
Record URL := mkURL { href : string }.

(** The two transport handles, with what their constructors are given. *)
Inductive Transport :=
| StdioClientTransport (command : option string) (args : option (list string))
    (env : gmap string string) (cwd : option string)
| StreamableHTTPClientTransport (url : URL)
    (headers : option (gmap string string)).

(** [Object.entries(obj)] *)
Definition Object_entries {V} (obj : gmap string V) : list (string * V) :=
  map_to_list obj.

(** [obj[key] = value], for a string [value] and an object [obj] that was
    made by [{}]. The name [__proto__] is the accessor [Object.prototype]
    carries: its setter ignores a value that is neither an object nor
    [null], and no property is created. Every other name becomes a property
    of [obj]. *)
Definition Object_set (key : string) (value : string)
    (obj : gmap string string) : gmap string string :=
  if String.eqb key "__proto__" then obj else <[key := value]> obj.

(** [Object.assign(target, source)]: every property of [source] is assigned
    to [target], as [target[key] = value] does. *)
Definition Object_assign (target source : gmap string string)
  : gmap string string :=
  foldl (fun (target : gmap string string) '(key, value) =>
           Object_set key value target)
        target (Object_entries source).

(** The environment of a spawned server, lines 186-195 of
    [createStdioTransport]. *)
Definition mergedEnv (process_env : gmap string (option string))
    (config : ServerConfig) : gmap string string :=
  let mergedEnv :=
    foldl (fun (mergedEnv : gmap string string) '(key, value) =>
             match value with
             | Some value => Object_set key value mergedEnv
             | None => mergedEnv
             end)
          ∅ (Object_entries process_env) in
  match env config with
  | Some env => Object_assign mergedEnv env
  | None => mergedEnv
  end.

Definition createStdioTransport {St E} (config : ServerConfig)
  : M (World St) E Transport :=
  fun w => (inr (StdioClientTransport (command config) (args config)
                   (mergedEnv (process_env w) config) (cwd config)), w).

(** What reading [message] off [undefined] throws. *)
Definition TypeError_message_of_undefined : Error :=
  mkError "TypeError" "Cannot read properties of undefined (reading 'message')".

(** [(error as Error).message], where the caught value is an error or
    [undefined]. *)
Definition message_of {St} (error : option Error) : M St (option Error) string :=
  match error with
  | Some e => ret (message e)
  | None => throw (Some TypeError_message_of_undefined)
  end.

(** A computation of the world, run by code that also keeps local variables
    [L], and whose errors become thrown values of the caller. *)
Definition in_world {L St E E' A} (inj : E -> E') (c : M (World St) E A)
  : M (L * World St) E' A :=
  fun '(l, w) => match c w with
                 | (inr a, w') => (inr a, (l, w'))
                 | (inl e, w') => (inl (inj e), (l, w'))
                 end.

(** [array.push(x)] on the local array. *)
Definition push {A St E} (x : A) : M (list A * St) E unit :=
  fun '(l, s) => (inr tt, ((l ++ [x])%list, s)).

(** [for (const x of xs) body] *)
Fixpoint for_of {St E A} (xs : list A) (body : A -> M St E unit) : M St E unit :=
  match xs with
  | [] => ret tt
  | x :: xs' => body x ;;; for_of xs' body
  end.

(** ** grep.ts: globToRegex *)

(** The line terminators [.] does not match, among the ASCII characters. *)
Definition is_line_terminator (c : ascii) : bool :=
  (nat_of_ascii c =? 10)%nat || (nat_of_ascii c =? 13)%nat.

(** The language of the regular expression [globToRegex] builds: [*] became
    [.*], [?] became [.], every other character stands for itself (the
    special ones are escaped), the whole is anchored at both ends and matched
    with the flag [i]. The definition follows the regular expression on
    patterns and texts of ASCII characters, where a byte is a code unit: the
    flag [i] is taken on the ASCII letters. *)
Fixpoint glob_test (pattern : list ascii) : list ascii -> bool :=
  match pattern with
  | [] => fun s => match s with [] => true | _ => false end
  | p :: pattern' =>
      if Ascii.eqb p "*" then
        fix star (s : list ascii) : bool :=
          glob_test pattern' s ||
          match s with
          | [] => false
          | c :: s' => negb (is_line_terminator c) && star s'
          end
      else if Ascii.eqb p "?" then
        fun s => match s with
                 | [] => false
                 | c :: s' => negb (is_line_terminator c) && glob_test pattern' s'
                 end
      else
        fun s => match s with
                 | [] => false
                 | c :: s' => same_char_ignoring_case p c && glob_test pattern' s'
                 end
  end.

(** [globToRegex(pattern).test(s)] *)
Definition globToRegex (pattern : string) (s : string) : bool :=
  glob_test (String.list_ascii_of_string pattern) (String.list_ascii_of_string s).

Module ServerWithTools.
Record t := mk { name : string; tools : list ToolInfo.t }.
End ServerWithTools.

Module SearchResult.
Record t := mk { server : string; tool : ToolInfo.t }.
End SearchResult.

(** ** The session layer over the protocol library *)

Section Sessions.

(** The collaborators the code is linked with. [St] is the state of the
    servers and of the library; the library's operations act on it and on
    nothing else of the world. *)
Context {St Client : Type}.
(** [new URL(text)] *)
Variable new_URL : string -> Error + URL.
(** [new Client(...)] followed by [client.connect(transport)] *)
Variable Client_connect : Transport -> M St Error Client.
(** [client.listTools()], the [tools] of its result *)
Variable Client_listTools : Client -> M St Error (list Tool.t).
(** [client.callTool({name, arguments})] *)
Variable Client_callTool : Client -> string -> JSON -> M St Error JSON.
(** [client.close()] *)
Variable Client_close : Client -> M St Error unit.
(** [formatCliError(serverNotFoundError(serverName, available))] of
    errors.ts *)
Variable serverNotFound : string -> list string -> string.

(** A library operation, run in the world. *)
Definition on_ext {E A} (op : M St E A) : M (World St) E A :=
  fun w => match op (ext w) with (r, s') => (r, set_ext s' w) end.

Record ConnectedClient := mkConnectedClient {
  client : Client;
  close : M (World St) Error unit;
}.

(** *** config.ts: getServerConfig *)

(** [config.mcpServers[serverName]] followed by the test [!server]. The
    table is an object made by [{}]: a name it does not hold itself is looked
    up in [Object.prototype]. What is found there (a function, or for
    [__proto__] the prototype itself) is an object, hence true, and is
    returned as the descriptor; it has none of the keys a descriptor is read
    for. An entry of the table is a descriptor, an object, hence true. *)
Definition getServerConfig (config : McpServersConfig) (serverName : string)
  : Error + ServerConfig :=
  match get_property (mcpServers config) serverName with
  | Some server => inr server
  | None =>
      match get_property Object_prototype_members serverName with
      | Some member =>
          inr (mkServerConfig None None None None None None None)
      | None =>
          let available := listServerNames config in
          inl (mkError "Error" (serverNotFound serverName available))
      end
  end.

(** *** client.ts: the transport factory *)

Definition createHttpTransport {S'} (config : ServerConfig)
  : M S' Error Transport :=
  match new_URL (default "undefined" (url config)) with
  | inr url => ret (StreamableHTTPClientTransport url (headers config))
  | inl e => throw e
  end.

(** Lines 146-152 of [connectToServer]. *)
Definition buildTransport (config : ServerConfig)
  : M (World St) Error Transport :=
  if isHttpServer config
  then createHttpTransport config
  else createStdioTransport config.

(** *** client.ts: connectToServer *)

(** The operation [connectToServer] hands to [withRetry]. *)
Definition connect_attempt (config : ServerConfig)
  : M (World St) Error ConnectedClient :=
  transport <- buildTransport config ;;
  client <- on_ext (Client_connect transport) ;;
  ret {| client := client; close := on_ext (Client_close client) |}.

Definition connectToServer (serverName : string) (config : ServerConfig)
  : M (World St) (option Error) ConnectedClient :=
  withRetry (connect_attempt config) ("connect to " +:+ serverName)
            DEFAULT_RETRY_CONFIG.

(** *** client.ts: listTools, getTool, callTool *)

Definition listTools (client : Client)
  : M (World St) (option Error) (list ToolInfo.t) :=
  withRetry
    (tools <- on_ext (Client_listTools client) ;;
     ret (map (fun tool : Tool.t =>
                 {| ToolInfo.name := Tool.name tool;
                    ToolInfo.description := Tool.description tool;
                    ToolInfo.inputSchema := Tool.inputSchema tool |})
              tools))
    "list tools" DEFAULT_RETRY_CONFIG.

Definition getTool (client : Client) (toolName : string)
  : M (World St) (option Error) (option ToolInfo.t) :=
  tools <- listTools client ;;
  ret (find (fun t => String.eqb (ToolInfo.name t) toolName) tools).

Definition callTool (client : Client) (toolName : string) (args : JSON)
  : M (World St) (option Error) JSON :=
  withRetry (on_ext (Client_callTool client toolName args))
            ("call tool " +:+ toolName) DEFAULT_RETRY_CONFIG.

(** *** commands/list.ts: the enumeration of [listCommand] *)

(** The entry recorded for a server that failed. *)
Definition error_entry (serverName : string) (message : string)
  : ServerWithTools.t :=
  {| ServerWithTools.name := serverName;
     ServerWithTools.tools :=
       [ {| ToolInfo.name := "<error: " +:+ message +:+ ">";
            ToolInfo.description := None;
            ToolInfo.inputSchema := JObject [] |} ] |}.

(** The body of the loop, lines 43-65; the local array is [servers]. *)
Definition listCommand_visit (config : McpServersConfig)
    (serverName : string)
  : M (list ServerWithTools.t * World St) (option Error) unit :=
  try_catch
    (serverConfig <-
       in_world Some (fun w => (getServerConfig config serverName, w)) ;;
     connection <- in_world id (connectToServer serverName serverConfig) ;;
     try_finally
       (tools <- in_world id (listTools (client connection)) ;;
        push {| ServerWithTools.name := serverName;
                ServerWithTools.tools := tools |})
       (in_world Some (close connection)))
    (fun error =>
       (* Include server with error message as a tool *)
       message <- message_of error ;;
       push (error_entry serverName message)).

(** Lines 39-66: the array [servers] the command goes on to print. *)
Definition listCommand_servers (config : McpServersConfig)
  : M (World St) (option Error) (list ServerWithTools.t) :=
  fun w =>
    let serverNames := listServerNames config in
    match for_of serverNames (listCommand_visit config) ([], w) with
    | (inr _, (servers, w')) => (inr servers, w')
    | (inl e, (_, w')) => (inl e, w')
    end.

(** *** commands/grep.ts: the enumeration of [grepCommand] *)

(** The test of lines 65-74 on one tool. *)
Definition grep_matches (pattern : string -> bool) (serverName : string)
    (tool : ToolInfo.t) : bool :=
  let fullPath := serverName +:+ "/" +:+ ToolInfo.name tool in
  let matchesName := pattern (ToolInfo.name tool) in
  let matchesPath := pattern fullPath in
  let matchesDescription :=
    match ToolInfo.description tool with
    | Some description =>
        negb (String.eqb description "") && pattern description
    | None => false
    end in
  matchesName || matchesPath || matchesDescription.

(** The body of the loop, lines 57-86; the local array is [results]. *)
Definition grepCommand_visit (pattern : string -> bool)
    (config : McpServersConfig) (serverName : string)
  : M (list SearchResult.t * World St) (option Error) unit :=
  try_catch
    (serverConfig <-
       in_world Some (fun w => (getServerConfig config serverName, w)) ;;
     connection <- in_world id (connectToServer serverName serverConfig) ;;
     try_finally
       (tools <- in_world id (listTools (client connection)) ;;
        for_of tools (fun tool =>
          if grep_matches pattern serverName tool
          then push {| SearchResult.server := serverName;
                       SearchResult.tool := tool |}
          else ret tt))
       (in_world Some (close connection)))
    (fun error =>
       (* Skip servers that fail to connect *)
       fun '(results, w) =>
         if MCP_DEBUG w then
           (message <- message_of error ;;
            in_world id
              (console_error ("Warning: Failed to connect to " +:+ serverName
                              +:+ ": " +:+ message)))
             (results, w)
         else ret tt (results, w)).

(** Lines 52-87: the array [results] the command goes on to print. *)
Definition grepCommand_results (pattern : string)
    (config : McpServersConfig)
  : M (World St) (option Error) (list SearchResult.t) :=
  fun w =>
    let pattern := globToRegex pattern in
    let serverNames := listServerNames config in
    match for_of serverNames (grepCommand_visit pattern config) ([], w) with
    | (inr _, (results, w')) => (inr results, w')
    | (inl e, (_, w')) => (inl e, w')
    end.

(** *** The enumeration, as the specification describes it *)

(** What one connect + list + close came to. *)
Inductive Outcome :=
| NotConfigured (e : Error)
| ConnectFailed (e : option Error)
| ListFailed (e : option Error) (closed : Error + unit)
| Listed (tools : list ToolInfo.t) (closed : Error + unit).

(** Connect to one server, list its tools, close. *)
Definition session (config : McpServersConfig) (serverName : string)
    (w : World St) : Outcome * World St :=
  match getServerConfig config serverName with
  | inl e => (NotConfigured e, w)
  | inr serverConfig =>
      match connectToServer serverName serverConfig w with
      | (inl e, w1) => (ConnectFailed e, w1)
      | (inr connection, w1) =>
          match listTools (client connection) w1 with
          | (inl e, w2) =>
              match close connection w2 with
              | (closed, w3) => (ListFailed e closed, w3)
              end
          | (inr tools, w2) =>
              match close connection w2 with
              | (closed, w3) => (Listed tools closed, w3)
              end
          end
      end
  end.

(** One session per server name, in order, each starting in the world the
    previous one left. *)
Fixpoint sessions (config : McpServersConfig) (serverNames : list string)
    (w : World St) : list (string * Outcome) * World St :=
  match serverNames with
  | [] => ([], w)
  | serverName :: rest =>
      match session config serverName w with
      | (outcome, w') =>
          match sessions config rest w' with
          | (outcomes, w'') => ((serverName, outcome) :: outcomes, w'')
          end
      end
  end.

(** The entries the specification expects of [listCommand] for one
    session, and the second entry the code adds when closing fails after the
    tools were recorded. A retried operation never throws [undefined]
    (its policy allows at least one attempt), so those cases are empty. *)
Definition list_entries (serverName : string) (outcome : Outcome)
  : list ServerWithTools.t :=
  match outcome with
  | NotConfigured e => [error_entry serverName (message e)]
  | ConnectFailed (Some e) => [error_entry serverName (message e)]
  | ConnectFailed None => []
  | ListFailed _ (inl e) => [error_entry serverName (message e)]
  | ListFailed (Some e) (inr _) => [error_entry serverName (message e)]
  | ListFailed None (inr _) => []
  | Listed tools (inr _) =>
      [ {| ServerWithTools.name := serverName;
           ServerWithTools.tools := tools |} ]
  | Listed tools (inl e) =>
      [ {| ServerWithTools.name := serverName;
           ServerWithTools.tools := tools |};
        error_entry serverName (message e) ]
  end.

(** The session did not fail to close after it had listed its tools. *)
Definition closes_cleanly (outcome : Outcome) : bool :=
  match outcome with
  | Listed _ (inl _) => false
  | _ => true
  end.

(** No thrown value of the session is [undefined]. *)
Definition throws_errors (outcome : Outcome) : bool :=
  match outcome with
  | ConnectFailed None | ListFailed None _ => false
  | _ => true
  end.

(** The results the specification expects of [grepCommand] for one
    session: the matching tools of a server that listed them, nothing for a
    server that failed. *)
Definition grep_entries (pattern : string -> bool) (serverName : string)
    (outcome : Outcome) : list SearchResult.t :=
  match outcome with
  | Listed tools _ =>
      map (fun tool => {| SearchResult.server := serverName;
                          SearchResult.tool := tool |})
          (List.filter (grep_matches pattern serverName) tools)
  | NotConfigured _ | ConnectFailed _ | ListFailed _ _ => []
  end.

(** What reaches the [catch] of the loop body, if anything does: the error
    of the configuration lookup, of the connection or of the listing, or,
    replacing it, the error of the close. *)
Definition thrown_to_catch (outcome : Outcome) : option (option Error) :=
  match outcome with
  | NotConfigured e => Some (Some e)
  | ConnectFailed e => Some e
  | ListFailed _ (inl e) => Some (Some e)
  | ListFailed e (inr _) => Some e
  | Listed _ (inl e) => Some (Some e)
  | Listed _ (inr _) => None
  end.

(** A session of [grepCommand]: a session, and in debug mode a warning
    about the error that ended it. *)
Definition grep_session (config : McpServersConfig) (serverName : string)
    (w : World St) : Outcome * World St :=
  match session config serverName w with
  | (outcome, w1) =>
      (outcome,
       match thrown_to_catch outcome with
       | Some (Some e) =>
           if MCP_DEBUG w1
           then snd (console_error (E := Error)
                       ("Warning: Failed to connect to " +:+ serverName
                        +:+ ": " +:+ message e) w1)
           else w1
       | _ => w1
       end)
  end.

Fixpoint grep_sessions (config : McpServersConfig)
    (serverNames : list string) (w : World St)
  : list (string * Outcome) * World St :=
  match serverNames with
  | [] => ([], w)
  | serverName :: rest =>
      match grep_session config serverName w with
      | (outcome, w') =>
          match grep_sessions config rest w' with
          | (outcomes, w'') => ((serverName, outcome) :: outcomes, w'')
          end
      end
  end.

End Sessions.

(** ** Sample inputs *)

(** A world with nothing behind it, an empty environment, and [Math.random]
    answering [r] at every draw. *)
Definition world_drawing (r : Q) : World unit :=
  mkWorld tt ∅ (fun _ => r) 0 [] [].




(** An operation that fails with a connection reset at every execution. *)
Definition always_reset : M (World unit) Error (list string) :=
  throw (mkError "Error" "read ECONNRESET").

(** An operation that fails with an authentication error. *)
Definition always_unauthorized : M (World unit) Error (list string) :=
  throw (mkError "Error" "401 Unauthorized").

(** A stand-in for the URL parser: absolute http and https addresses. *)
Definition sample_new_URL (text : string) : Error + URL :=
  if startsWith text "https://" || startsWith text "http://"
  then inr (mkURL text)
  else inl (mkError "TypeError" "Invalid URL").

(** A stand-in for the protocol library, with no state of its own. A client
    is the command or the address it was connected through. The command
    [missing] cannot be spawned; the server [sticky] fails to close. *)
Definition sample_connect (transport : Transport) : M unit Error string :=
  match transport with
  | StdioClientTransport (Some command) _ _ _ =>
      if String.eqb command "missing"
      then throw (mkError "Error" "spawn missing ENOENT")
      else ret command
  | StdioClientTransport None _ _ _ =>
      throw (mkError "TypeError" "The file argument must be of type string")
  | StreamableHTTPClientTransport url _ => ret (href url)
  end.

Definition sample_listTools (client : string) : M unit Error (list Tool.t) :=
  ret [ Tool.mk ("ping_" +:+ client) (Some "Ping") (JObject []) None ].

Definition sample_callTool (client : string) (toolName : string) (args : JSON)
  : M unit Error JSON :=
  ret args.

Definition sample_close (client : string) : M unit Error unit :=
  if String.eqb client "sticky"
  then throw (mkError "Error" "close failed")
  else ret tt.

Definition sample_serverNotFound (serverName : string)
    (available : list string) : string :=
  "Server not found: " +:+ serverName.

Definition stdio_server (command : string) : ServerConfig :=
  mkServerConfig (Some command) None None None None None None.

Definition http_server (url : string) : ServerConfig :=
  mkServerConfig None None None None (Some url) None None.

(** Three servers, the second of which cannot be reached. *)
Definition three_servers : McpServersConfig :=
  {| mcpServers := [ ("alpha", stdio_server "node");
                     ("beta", stdio_server "missing");
                     ("gamma", http_server "https://mcp.example.com") ] |}.

(** One server, which lists its tools and then fails to close. *)
Definition one_sticky_server : McpServersConfig :=
  {| mcpServers := [ ("alpha", stdio_server "sticky") ] |}.



(** A descriptor with both a command and a url, and one with neither. *)
Definition both_fields : ServerConfig :=
  mkServerConfig (Some "node") None None None
                 (Some "https://mcp.example.com") None None.

Definition no_fields : ServerConfig :=
  mkServerConfig None None None None None None None.

(** ** commands/info.ts: parseTarget *)

(** [s.split(sep)] for a separator of one character: the pieces between the
    separators, of which there is always at least one. *)
Fixpoint String_split (sep : ascii) (s : string) : list string :=
  match s with
  | EmptyString => [EmptyString]
  | String c s' =>
      if Ascii.eqb c sep then EmptyString :: String_split sep s'
      else match String_split sep s' with
           | part :: parts => String c part :: parts
           | [] => [String c EmptyString]
           end
  end.

(** [parts.join(sep)] *)
Definition Array_join (sep : string) (parts : list string) : string :=
  String.concat sep parts.

Module Target.
Record t := mk { server : string; tool : option string }.
End Target.

Definition parseTarget (target : string) : Target.t :=
  let parts := String_split "/" target in
  if (length parts =? 1)%nat
  then {| Target.server := hd "" parts; Target.tool := None |}
  else {| Target.server := hd "" parts;
          Target.tool := Some (Array_join "/" (tl parts)) |}.

(** ** config.ts: substituteEnvVars *)

(** The text up to the first closing brace, and the text after it. *)
Fixpoint until_brace (s : string) : option (string * string) :=
  match s with
  | EmptyString => None
  | String c s' =>
      if Ascii.eqb c "}" then Some (EmptyString, s')
      else match until_brace s' with
           | Some (name, rest) => Some (String c name, rest)
           | None => None
           end
  end.

(** A match of the expression [\$\{([^}]+)\}] at the start of [s]: the
    captured name, which is not empty and has no closing brace, and the text
    after the match. *)
Definition placeholder_at (s : string) : option (string * string) :=
  match s with
  | String d (String b after) =>
      if Ascii.eqb d "$" && Ascii.eqb b "{" then
        match until_brace after with
        | Some (String n name, rest) => Some (String n name, rest)
        | _ => None
        end
      else None
  | _ => None
  end.

(** [process.env[varName] || '']. A variable that is set gives its value
    (the empty string when the value is empty or undefined); a name that is
    not set is looked up in [Object.prototype], and a member found there is
    true and is converted to a string by [replace]. *)
Definition env_or_empty (process_env : gmap string (option string))
    (varName : string) : string :=
  match process_env !! varName with
  | Some (Some value) => value
  | Some None => EmptyString
  | None =>
      match get_property Object_prototype_members varName with
      | Some member => member
      | None => EmptyString
      end
  end.

(** [value.replace(/\$\{([^}]+)\}/g, ...)]: from left to right, a match is
    replaced by the value of the variable and the search goes on after it;
    where nothing matches, one character is kept. [fuel] bounds the number of
    steps, and the length of the text is enough. *)
Fixpoint substituteEnvVars_steps (fuel : nat)
    (process_env : gmap string (option string)) (value : string) : string :=
  match fuel with
  | O => value
  | S fuel' =>
      match value with
      | EmptyString => EmptyString
      | String c rest =>
          match placeholder_at value with
          | Some (varName, after) =>
              env_or_empty process_env varName
              +:+ substituteEnvVars_steps fuel' process_env after
          | None => String c (substituteEnvVars_steps fuel' process_env rest)
          end
      end
  end.

Definition substituteEnvVars (process_env : gmap string (option string))
    (value : string) : string :=
  substituteEnvVars_steps (String.length value) process_env value.

(** ** config.ts: substituteEnvVarsInObject *)

(** The object built by [result[key] = value] over the entries: an
    assignment to [__proto__] creates no property. (It may set the prototype
    of the result, which this model of objects does not have.) *)
Definition assigned_entries (entries : list (string * JSON))
  : list (string * JSON) :=
  List.filter (fun '(key, _) => negb (String.eqb key "__proto__")) entries.

Fixpoint substituteEnvVarsInObject
    (process_env : gmap string (option string)) (obj : JSON) : JSON :=
  match obj with
  | JString value => JString (substituteEnvVars process_env value)
  | JArray items =>
      JArray (map (substituteEnvVarsInObject process_env) items)
  | JObject members =>
      JObject (assigned_entries
                 (map (fun '(key, value) =>
                         (key, substituteEnvVarsInObject process_env value))
                      members))
  | _ => obj
  end.

(** No string of the value holds the two characters that open a
    placeholder, and no object of it has a key [__proto__]. *)
Fixpoint plain (obj : JSON) : bool :=
  match obj with
  | JString value => negb (includes value "${")
  | JArray items => forallb plain items
  | JObject members =>
      forallb (fun '(key, value) =>
                 negb (String.eqb key "__proto__") && plain value) members
  | _ => true
  end.

(** ** config.ts: loadConfig *)

(** The truth value of an optional string: present and not empty. *)
Definition truthy (s : option string) : bool :=
  match s with
  | Some text => negb (String.eqb text "")
  | None => false
  end.

(** The truth value of a JSON value. *)
Definition JSON_truthy (v : JSON) : bool :=
  match v with
  | JNull => false
  | JBool b => b
  | JNumber q => negb (Qeq_bool q 0)
  | JString s => negb (String.eqb s "")
  | JArray _ | JObject _ => true
  end.

(** [typeof v === 'object'] *)
Definition typeof_object (v : JSON) : bool :=
  match v with
  | JNull | JArray _ | JObject _ => true
  | _ => false
  end.

(** What reading a property off [null] throws. *)
Definition TypeError_property_of_null : Error :=
  mkError "TypeError" "null is not an object (evaluating 'config.mcpServers')".

(** [config.mcpServers] on a parsed value: a property of [null] cannot be
    read, an object has the property or not, any other value has not. *)
Definition get_mcpServers (config : JSON) : Error + option JSON :=
  match config with
  | JNull => inl TypeError_property_of_null
  | JObject members => inr (get_property members "mcpServers")
  | _ => inr None
  end.

Section Loading.

(** The file system, the path functions, the JSON parser and the error
    formatters of errors.ts the loader is linked with. *)
Context {St : Type}.
(** [resolve(path)] of node:path *)
Variable resolve : string -> string.
(** [join(...parts)] of node:path *)
Variable join : list string -> string.
(** [homedir()] *)
Variable homedir : string.
(** [existsSync(path)] *)
Variable existsSync : string -> bool.
(** [await Bun.file(path).text()] *)
Variable file_text : string -> Error + string.
(** [JSON.parse(content)] *)
Variable JSON_parse : string -> Error + JSON.
(** [formatCliError(configNotFoundError(path))] *)
Variable configNotFound : string -> string.
(** [formatCliError(configSearchError())] *)
Variable configSearch : string.
(** [formatCliError(configInvalidJsonError(path, message))] *)
Variable configInvalidJson : string -> string -> string.
(** [formatCliError(configMissingFieldError(path))] *)
Variable configMissingField : string -> string.

Definition getDefaultConfigPaths : list string :=
  let home := homedir in
  [ (* Current directory *)
    resolve "./mcp_servers.json";
    (* Home directory variants *)
    join [home; ".mcp_servers.json"];
    join [home; ".config"; "mcp"; "mcp_servers.json"] ].

(** Lines 141-159 of [loadConfig]: read, parse, validate, substitute. *)
Definition readConfig (configPath : string) : M (World St) Error JSON :=
  fun w =>
    match file_text configPath with
    | inl e => (inl e, w)
    | inr content =>
        match JSON_parse content with
        | inl e =>
            (inl (mkError "Error"
                    (configInvalidJson configPath (message e))), w)
        | inr config =>
            (* Validate structure *)
            match get_mcpServers config with
            | inl e => (inl e, w)
            | inr mcpServers =>
                if match mcpServers with
                   | Some servers =>
                       negb (JSON_truthy servers)
                       || negb (typeof_object servers)
                   | None => true
                   end
                then (inl (mkError "Error" (configMissingField configPath)), w)
                else
                  (* Substitute environment variables *)
                  (inr (substituteEnvVarsInObject (process_env w) config), w)
            end
        end
    end.

Definition loadConfig (explicitPath : option string)
  : M (World St) Error JSON :=
  fun w =>
    (* Check explicit path from argument or environment *)
    let configPath :=
      if truthy explicitPath
      then Some (resolve (default "" explicitPath))
      else if truthy (mjoin (process_env w !! "MCP_CONFIG_PATH"))
      then Some (resolve (default "" (mjoin (process_env w
                                              !! "MCP_CONFIG_PATH"))))
      else None in
    if truthy configPath then
      (* If explicit path provided, it must exist *)
      let configPath := default "" configPath in
      if negb (existsSync configPath)
      then (inl (mkError "Error" (configNotFound configPath)), w)
      else readConfig configPath w
    else
      (* Search default paths *)
      let searchPaths := getDefaultConfigPaths in
      let configPath := find existsSync searchPaths in
      if negb (truthy configPath)
      then (inl (mkError "Error" configSearch), w)
      else readConfig (default "" configPath) w.

End Loading.

(** ** Sample loader inputs *)

(** A file system with one configuration file, in the home directory. *)
Definition sample_resolve (path : string) : string := "/work/" +:+ path.

Definition sample_join (parts : list string) : string :=
  String.concat "/" parts.

Definition sample_existsSync (path : string) : bool :=
  String.eqb path "/home/user/.mcp_servers.json".

Definition sample_file_text (path : string) : Error + string :=
  inr "{}".

Definition sample_JSON_parse (content : string) : Error + JSON :=
  inr (JObject [("mcpServers", JObject [])]).

(** ** Proof automation *)

(** Expose what a backoff does to the world. *)
Ltac unfold_backoff :=
  unfold backoff, bind, calculateDelay, bind, Math_random, ret, sleep; simpl.

(* ================================================================== *)
(** * Part II: properties *)
(* ================================================================== *)

(** ** Strings *)

Lemma startsWith_spec (s needle : string) :
  startsWith s needle = true <-> exists post, s = needle +:+ post.
Proof.
  revert s. induction needle as [|a needle IH]; intros s; simpl.
  - split; [intros _; exists s; reflexivity | reflexivity].
  - destruct s as [|b s].
    + split; [discriminate | intros [post H]; discriminate].
    + destruct (Ascii.eqb_spec a b) as [->|Hne].
      * rewrite IH. split; intros [post H]; exists post.
        -- by rewrite H.
        -- by injection H.
      * split; [discriminate | intros [post H]; injection H; congruence].
Qed.

Lemma includes_spec (s needle : string) :
  includes s needle = true <-> exists pre post, s = pre +:+ needle +:+ post.
Proof.
  induction s as [|c s IH]; simpl.
  - rewrite orb_false_r, startsWith_spec. split.
    + intros [post H]. by exists EmptyString, post.
    + intros [pre [post H]]. destruct pre; [by exists post | discriminate].
  - rewrite orb_true_iff, startsWith_spec, IH. split.
    + intros [[post H] | [pre [post H]]].
      * by exists EmptyString, post.
      * exists (String c pre), post. simpl. by rewrite H.
    + intros [pre [post H]]. destruct pre as [|d pre]; simpl in H.
      * left. by exists post.
      * right. exists pre, post. by injection H.
Qed.

Lemma byte_range (c : ascii) : (0 <= byte c < 256)%Z.
Proof.
  unfold byte. pose proof (N_ascii_bounded c). lia.
Qed.

Lemma byte_inj (a b : ascii) : byte a = byte b -> a = b.
Proof.
  unfold byte. intros H. apply N2Z.inj in H.
  rewrite <- (ascii_N_embedding a), <- (ascii_N_embedding b). by rewrite H.
Qed.

Lemma byte_ascii_of_byte (z : Z) :
  (0 <= z < 256)%Z -> byte (ascii_of_byte z) = z.
Proof.
  intros H. unfold byte, ascii_of_byte.
  rewrite N_ascii_embedding by lia. lia.
Qed.

Lemma string_length_ind (P : string -> Prop) :
  (forall s, (forall t, (String.length t < String.length s)%nat -> P t) -> P s) ->
  forall s, P s.
Proof.
  intros H s. remember (String.length s) as n eqn:Hn.
  revert s Hn. induction n as [n IH] using lt_wf_ind.
  intros s ->. apply H. intros t Ht. by apply (IH (String.length t)).
Qed.

Lemma chunks_first (b1 : ascii) (r1 : string) :
  chunks (String b1 r1)
  = fst (first_chunk b1 r1) :: chunks (snd (first_chunk b1 r1)).
Proof.
  unfold first_chunk. cbn [chunks].
  destruct (sequence_length b1 (peek r1) (peek (behind r1))
              (peek (behind (behind r1)))) as [|[|[|[|[|n]]]]];
    destruct r1 as [|b2 [|b3 [|b4 r4]]]; reflexivity.
Qed.

Section Characters.

#[local] Arguments String.append !_ _ / : simpl nomatch.

Ltac split_conditions :=
  repeat match goal with
         | |- context [if ?b then _ else _] => destruct b eqn:?
         | H : context [if ?b then _ else _] |- _ => destruct b eqn:?
         end.

Lemma sequence_length_not_continued b1 b2 b3 b4 :
  is_continuation b2 = false -> sequence_length b1 b2 b3 b4 = 1%nat.
Proof.
  intros H. unfold sequence_length. rewrite H. simpl.
  by split_conditions.
Qed.

Lemma sequence_length_third b1 b2 b3 b4 :
  is_continuation b3 = false ->
  sequence_length b1 b2 b3 b4 = sequence_length b1 b2 None None.
Proof.
  intros H. unfold sequence_length. rewrite H. simpl.
  rewrite !andb_false_r. simpl. by split_conditions.
Qed.

Lemma sequence_length_fourth b1 b2 b3 b4 :
  is_continuation b4 = false ->
  sequence_length b1 b2 b3 b4 = sequence_length b1 b2 b3 None.
Proof.
  intros H. unfold sequence_length. rewrite H. simpl.
  rewrite !andb_false_r. by split_conditions.
Qed.

Lemma sequence_length_cases b1 b2 b3 b4 :
  let n := sequence_length b1 b2 b3 b4 in
  n = 1%nat
  \/ (n = 2%nat /\ is_continuation b2 = true)
  \/ (n = 3%nat /\ is_continuation b2 = true /\ is_continuation b3 = true)
  \/ (n = 4%nat /\ is_continuation b2 = true /\ is_continuation b3 = true
      /\ is_continuation b4 = true).
Proof.
  unfold sequence_length.
  destruct ((194 <=? byte b1)%Z && (byte b1 <=? 223)%Z).
  { destruct (is_continuation b2); [right; left | left]; done. }
  destruct ((224 <=? byte b1)%Z && (byte b1 <=? 239)%Z).
  { destruct (is_continuation b2); simpl; [|by left].
    destruct (is_continuation b3); rewrite ?andb_false_r, ?andb_true_r;
      [|by left].
    destruct (negb _ || _); [right; right; left | left]; done. }
  destruct ((240 <=? byte b1)%Z && (byte b1 <=? 244)%Z); [|by left].
  destruct (is_continuation b2); simpl; [|by left].
  destruct (is_continuation b3); rewrite ?andb_false_r, ?andb_true_r;
    simpl; [|by left].
  destruct (is_continuation b4); rewrite ?andb_false_r, ?andb_true_r;
    simpl; [|by left].
  destruct ((negb _ || _) && (negb _ || _)); [right; right; right | left]; done.
Qed.


Lemma sequence_length_two b1 b2 b3 b4 :
  sequence_length b1 b2 b3 b4 = 2%nat ->
  sequence_length b1 b2 None None = 2%nat.
Proof.
  unfold sequence_length. simpl. rewrite !andb_false_r.
  by split_conditions.
Qed.

Lemma sequence_length_three b1 b2 b3 b4 :
  sequence_length b1 b2 b3 b4 = 3%nat ->
  sequence_length b1 b2 b3 None = 3%nat.
Proof.
  unfold sequence_length. simpl. rewrite !andb_false_r.
  by split_conditions.
Qed.

(** The first character of a string is a character, the string is made of
    it and of what follows it, and what follows it is shorter. *)
Lemma first_chunk_spec (b1 : ascii) (r1 : string) :
  is_character (fst (first_chunk b1 r1)) = true
  /\ String b1 r1 = fst (first_chunk b1 r1) +:+ snd (first_chunk b1 r1)
  /\ (String.length (snd (first_chunk b1 r1)) <= String.length r1)%nat.
Proof.
  unfold first_chunk.
  pose proof (sequence_length_not_continued b1 None None None eq_refl) as Hone.
  destruct (sequence_length b1 (peek r1) (peek (behind r1))
              (peek (behind (behind r1)))) as [|[|[|[|[|n]]]]] eqn:E;
    destruct r1 as [|b2 [|b3 [|b4 r4]]]; simpl in *;
    (split; [|split; [reflexivity | lia]]);
    unfold is_character; simpl;
    rewrite ?Hone, ?(sequence_length_two _ _ _ _ E),
      ?(sequence_length_three _ _ _ _ E), ?E; reflexivity.
Qed.

(** A string that does not begin with a continuation byte begins a
    character: the characters before it are those of the string before
    it. *)
Lemma first_chunk_app (b1 : ascii) (r1 s : string) :
  is_continuation (peek s) = false ->
  first_chunk b1 (r1 +:+ s)
  = (fst (first_chunk b1 r1), snd (first_chunk b1 r1) +:+ s).
Proof.
  intros Hs. unfold first_chunk.
  destruct r1 as [|b2 [|b3 [|b4 r4]]]; simpl.
  - rewrite (sequence_length_not_continued _ _ _ _ Hs).
    by rewrite (sequence_length_not_continued b1 None None None).
  - rewrite (sequence_length_third _ _ _ _ Hs).
    pose proof (sequence_length_cases b1 (Some b2) None None) as Hc.
    simpl in Hc.
    destruct (sequence_length b1 (Some b2) None None) as [|[|[|[|[|n]]]]];
      try reflexivity; destruct Hc as [? | [[? ?] | [(? & ? & ?) | (? & ? & ? & ?)]]];
      try discriminate; by destruct s as [|? [|? ?]].
  - rewrite (sequence_length_fourth _ _ _ _ Hs).
    pose proof (sequence_length_cases b1 (Some b2) (Some b3) None) as Hc.
    simpl in Hc.
    destruct (sequence_length b1 (Some b2) (Some b3) None)
      as [|[|[|[|[|n]]]]];
      try reflexivity; destruct Hc as [? | [[? ?] | [(? & ? & ?) | (? & ? & ? & ?)]]];
      try discriminate; by destruct s as [|? [|? ?]].
  - by destruct (sequence_length b1 (Some b2) (Some b3) (Some b4))
      as [|[|[|[|[|n]]]]].
Qed.

Lemma append_empty_r (s : string) : s +:+ "" = s.
Proof. induction s as [|c s IH]; simpl; [done|]. by rewrite IH. Qed.

Lemma append_assoc (s t u : string) : (s +:+ t) +:+ u = s +:+ t +:+ u.
Proof. induction s as [|c s IH]; simpl; [done|]. by rewrite IH. Qed.

Lemma chunks_app (p s : string) :
  is_continuation (peek s) = false ->
  chunks (p +:+ s) = (chunks p ++ chunks s)%list.
Proof.
  intros Hs. induction p as [p IH] using string_length_ind.
  destruct p as [|b1 r1]; [done|].
  change (String b1 r1 +:+ s) with (String b1 (r1 +:+ s)).
  rewrite !chunks_first, (first_chunk_app _ _ _ Hs). simpl.
  rewrite IH; [done|].
  pose proof (first_chunk_spec b1 r1) as (_ & _ & Hlen). simpl. lia.
Qed.

Lemma joined_app (A B : list string) :
  joined (A ++ B) = joined A +:+ joined B.
Proof.
  induction A as [|c A IH]; simpl; [done|].
  by rewrite IH, append_assoc.
Qed.

(** A string is its characters, one after the other. *)
Lemma chunks_joined (s : string) : joined (chunks s) = s.
Proof.
  induction s as [s IH] using string_length_ind.
  destruct s as [|b1 r1]; [done|].
  rewrite chunks_first.
  pose proof (first_chunk_spec b1 r1) as (_ & Heq & Hlen).
  change (joined (?c :: ?cs)) with (c +:+ joined cs).
  rewrite IH by (simpl; lia). by rewrite <- Heq.
Qed.

Lemma chunks_characters (s : string) :
  Forall (fun c => is_character c = true) (chunks s).
Proof.
  induction s as [s IH] using string_length_ind.
  destruct s as [|b1 r1]; [constructor|].
  rewrite chunks_first.
  pose proof (first_chunk_spec b1 r1) as (Hc & _ & Hlen).
  constructor; [done|]. apply IH. simpl. lia.
Qed.

Ltac bool_facts :=
  repeat match goal with
         | H : _ && _ = true |- _ => apply andb_true_iff in H as [? ?]
         | H : _ || _ = false |- _ => apply orb_false_iff in H as [? ?]
         | H : negb _ = true |- _ => apply negb_true_iff in H
         | H : negb _ = false |- _ => apply negb_false_iff in H
         | H : (_ <=? _)%Z = true |- _ => apply Z.leb_le in H
         | H : (_ <=? _)%Z = false |- _ => apply Z.leb_gt in H
         | H : (_ <? _)%Z = true |- _ => apply Z.ltb_lt in H
         | H : (_ <? _)%Z = false |- _ => apply Z.ltb_ge in H
         | H : (_ =? _)%Z = true |- _ => apply Z.eqb_eq in H
         | H : (_ =? _)%Z = false |- _ => apply Z.eqb_neq in H
         end.

Lemma all_high_app (s t : string) :
  all_high (s +:+ t) = all_high s && all_high t.
Proof.
  induction s as [|c s IH]; simpl; [done|]. by rewrite IH, andb_assoc.
Qed.

(** The bytes of a character that is not ASCII are from 128 up. *)
Lemma utf8_high (x : Z) :
  (128 <= x < 1114112)%Z -> utf8 x <> "" /\ all_high (utf8 x) = true.
Proof.
  intros Hx. unfold utf8.
  destruct (x <? 128)%Z eqn:H1; [lia|].
  destruct (x <? 2048)%Z eqn:H2; [|destruct (x <? 65536)%Z eqn:H3];
    bool_facts; (split; [done|]); simpl;
    rewrite !byte_ascii_of_byte
      by (pose proof (Z.mod_pos_bound x 64);
          pose proof (Z.mod_pos_bound (x / 64) 64);
          pose proof (Z.mod_pos_bound (x / 4096) 64);
          pose proof (Z.div_pos x 64);
          pose proof (Z.div_pos x 4096);
          pose proof (Z.div_pos x 262144);
          pose proof (Z.div_lt_upper_bound x 64 32);
          pose proof (Z.div_lt_upper_bound x 4096 16);
          pose proof (Z.div_lt_upper_bound x 262144 16);
          lia);
    repeat (apply andb_true_iff; split); try done; apply Z.leb_le;
    pose proof (Z.mod_pos_bound x 64);
    pose proof (Z.mod_pos_bound (x / 64) 64);
    pose proof (Z.mod_pos_bound (x / 4096) 64);
    pose proof (Z.div_pos x 64);
    pose proof (Z.div_pos x 4096);
    pose proof (Z.div_pos x 262144); lia.
Qed.

(** The table sends a character that is not ASCII to one that is not, the
    Kelvin sign apart. *)
Lemma case_offset_high (table : list (Z * Z * Z * Z)) (c d : Z) :
  forallb (fun '(first, last, step, offset) =>
             (last <? 128)%Z
             || ((first =? 8490)%Z && (last =? 8490)%Z)
             || ((128 <=? first + offset)%Z
                 && (last + offset <? 1114112)%Z)) table = true ->
  (128 <= c)%Z -> c <> 8490%Z ->
  case_offset c table = Some d -> (128 <= c + d < 1114112)%Z.
Proof.
  intros Htable Hc Hk.
  induction table as [|[[[first last] step] offset] table IH]; [done|].
  simpl in Htable. apply andb_true_iff in Htable as [Hrun Htable].
  simpl. destruct (c <? first)%Z eqn:H1; [done|].
  destruct ((c <=? last)%Z && ((c - first) mod step =? 0)%Z) eqn:H2;
    [|by apply IH].
  intros [= <-]. bool_facts.
  apply orb_true_iff in Hrun as [Hrun|Hrun];
    [apply orb_true_iff in Hrun as [Hrun|Hrun]|]; bool_facts; lia.
Qed.

Lemma lowercase_table_high (c d : Z) :
  (128 <= c)%Z -> c <> 8490%Z ->
  case_offset c lowercase_table = Some d -> (128 <= c + d < 1114112)%Z.
Proof. apply case_offset_high. by vm_compute. Qed.

Lemma lower_case_of_ascii (final : bool) (a : ascii) :
  (byte a < 128)%Z ->
  lower_case_of final (String a "") = String (lower_ascii a) "".
Proof.
  destruct a as [[] [] [] [] [] [] [] []]; intros H;
    first [ by vm_compute in H | by vm_compute ].
Qed.

Lemma lower_case_of_kelvin (final : bool) :
  lower_case_of final KELVIN_SIGN = "k".
Proof. by vm_compute. Qed.

(** A character is one byte, or its bytes are from 128 up and give a code
    point that is not ASCII; the code point of the Kelvin sign is its
    alone. *)
Lemma is_character_cases (c : string) :
  is_character c = true ->
  (exists a, c = String a "")
  \/ (exists x, code_of c = Some x /\ (128 <= x < 1114112)%Z
                /\ c <> "" /\ all_high c = true
                /\ (x = 8490%Z -> c = KELVIN_SIGN)).
Proof.
  destruct c as [|b1 [|b2 [|b3 [|b4 [|b5 r]]]]]; [done| by left; eexists | | | |].
  - intros H. right. unfold is_character in H. simpl in H.
    unfold sequence_length, is_continuation in H. simpl in H.
    rewrite ?andb_false_r in H. split_conditions; try done. bool_facts.
    eexists. split; [reflexivity|]. split; [lia|]. split; [done|].
    split; [|lia]. simpl. rewrite andb_true_r.
    apply andb_true_iff. split; apply Z.leb_le; lia.
  - intros H. right. unfold is_character in H. simpl in H.
    unfold sequence_length, is_continuation in H. simpl in H.
    rewrite ?andb_false_r in H. split_conditions; try done. bool_facts.
    eexists. split; [reflexivity|].
    assert (byte b1 = 224%Z -> (160 <= byte b2)%Z) as H224.
    { intros Heq. destruct (byte b1 =? 224)%Z eqn:E; bool_facts; [|lia].
      simpl in *. bool_facts. lia. }
    split; [lia|]. split; [done|]. split.
    + simpl. rewrite andb_true_r.
      repeat (apply andb_true_iff; split); apply Z.leb_le; lia.
    + intros Hx. unfold KELVIN_SIGN.
      assert (byte b1 = 226 /\ byte b2 = 132 /\ byte b3 = 170)%Z
        as (E1 & E2 & E3) by lia.
      f_equal; [by apply byte_inj|]. f_equal; [by apply byte_inj|].
      f_equal. by apply byte_inj.
  - intros H. right. unfold is_character in H. simpl in H.
    unfold sequence_length, is_continuation in H. simpl in H.
    rewrite ?andb_false_r in H. split_conditions; try done. bool_facts.
    eexists. split; [reflexivity|].
    assert (byte b1 = 240%Z -> (144 <= byte b2)%Z) as H240.
    { intros Heq. destruct (byte b1 =? 240)%Z eqn:E; bool_facts; [|lia].
      simpl in *. bool_facts. lia. }
    assert (byte b1 = 244%Z -> (byte b2 <= 143)%Z) as H244.
    { intros Heq. destruct (byte b1 =? 244)%Z eqn:E; bool_facts; [|lia].
      simpl in *. bool_facts. lia. }
    split; [lia|]. split; [done|]. split; [|lia].
    simpl. rewrite andb_true_r.
    repeat (apply andb_true_iff; split); apply Z.leb_le; lia.
  - intros H. unfold is_character in H. simpl in H.
    unfold sequence_length in H. by split_conditions.
Qed.

Lemma ascii_enumerated (a : ascii) :
  In a (map ascii_of_nat (seq 0 256)).
Proof.
  rewrite <- (ascii_nat_embedding a). apply in_map, in_seq.
  pose proof (nat_ascii_bounded a). lia.
Qed.

Lemma same_char_ignoring_case_table :
  forallb (fun x => forallb (fun y =>
      Bool.eqb (same_char_ignoring_case x y)
               (Ascii.eqb (lower_ascii x) (lower_ascii y)))
    (map ascii_of_nat (seq 0 256))) (map ascii_of_nat (seq 0 256)) = true.
Proof. vm_compute. reflexivity. Qed.

Lemma same_char_ignoring_case_lower (a b : ascii) :
  same_char_ignoring_case a b = true <-> lower_ascii a = lower_ascii b.
Proof.
  pose proof same_char_ignoring_case_table as Hall.
  rewrite forallb_forall in Hall.
  specialize (Hall a (ascii_enumerated a)). rewrite forallb_forall in Hall.
  specialize (Hall b (ascii_enumerated b)).
  apply Bool.eqb_prop in Hall. rewrite Hall. apply Ascii.eqb_eq.
Qed.

Lemma lower_ascii_byte_table :
  forallb (fun a =>
             Ascii.eqb (lower_ascii (lower_ascii a)) (lower_ascii a)
             && ((128 <=? byte a)%Z || (byte (lower_ascii a) <? 128)%Z)
             && ((byte a <? 128)%Z || Ascii.eqb (lower_ascii a) a)
             && (is_capital a || Ascii.eqb (lower_ascii a) a)
             && (negb (is_capital a) || (byte a <? 128)%Z))
    (map ascii_of_nat (seq 0 256)) = true.
Proof. vm_compute. reflexivity. Qed.

Lemma lower_ascii_byte (a : ascii) :
  lower_ascii (lower_ascii a) = lower_ascii a
  /\ ((byte a < 128)%Z -> (byte (lower_ascii a) < 128)%Z)
  /\ ((128 <= byte a)%Z -> lower_ascii a = a)
  /\ (is_capital a = false -> lower_ascii a = a)
  /\ (is_capital a = true -> (byte a < 128)%Z).
Proof.
  pose proof lower_ascii_byte_table as Hall.
  rewrite forallb_forall in Hall.
  specialize (Hall a (ascii_enumerated a)).
  repeat (apply andb_true_iff in Hall as [Hall ?]).
  apply Ascii.eqb_eq in Hall.
  repeat split; [done|..]; intros Ha;
    repeat match goal with
           | H : _ || _ = true |- _ => apply orb_true_iff in H as [H|H]
           end; bool_facts; rewrite ?Ascii.eqb_eq in *; try lia; try congruence.
Qed.

(** The lower case of a character: the lower case of an ASCII character,
    a k for the Kelvin sign, an i and bytes from 128 up, or bytes from 128
    up. *)
Lemma lower_case_of_cases (final : bool) (c : string) :
  is_character c = true ->
  (exists a, c = String a "" /\ (byte a < 128)%Z
             /\ lower_case_of final c = String (lower_ascii a) "")
  \/ (c = KELVIN_SIGN /\ lower_case_of final c = "k")
  \/ (lower_case_of final c <> ""
      /\ all_high (lower_case_of final c) = true)
  \/ (exists hs, lower_case_of final c = String "i" hs
                 /\ hs <> "" /\ all_high hs = true).
Proof.
  intros Hc.
  destruct (is_character_cases c Hc)
    as [[a ->] | (x & Hcode & Hx & Hne & Hhigh & Hk)].
  - destruct (byte a <? 128)%Z eqn:Ha; bool_facts.
    + left. exists a. by rewrite lower_case_of_ascii.
    + right; right; left. unfold lower_case_of. simpl.
      apply Z.ltb_ge in Ha. rewrite Ha. split; [done|]. simpl.
      rewrite andb_true_r. apply Z.leb_le. by apply Z.ltb_ge.
  - destruct (Z.eq_dec x 8490%Z) as [E|E].
    { right; left. rewrite (Hk E). by rewrite lower_case_of_kelvin. }
    unfold lower_case_of. rewrite Hcode.
    destruct (x =? 304)%Z.
    { right; right; right. eexists. split; [by vm_compute|]. by vm_compute. }
    right; right; left.
    destruct (x =? 931)%Z; [by destruct final; vm_compute|].
    destruct (case_offset x lowercase_table) as [d|] eqn:Hd; [|done].
    apply utf8_high. apply lowercase_table_high; [lia | done | done].
Qed.

Lemma lower_case_of_tail (final : bool) (c : string) :
  is_character c = true ->
  exists x hs, lower_case_of final c = String x hs /\ all_high hs = true.
Proof.
  intros Hc.
  destruct (lower_case_of_cases final c Hc)
    as [(a & _ & _ & ->) | [[_ ->] | [[Hne Hhigh] | (hs & -> & _ & Hhigh)]]];
    [by eexists _, _ | by eexists _, _ | | by eexists _, _].
  destruct (lower_case_of final c) as [|x hs]; [done|].
  exists x, hs. split; [done|]. simpl in Hhigh.
  by apply andb_true_iff in Hhigh as [_ ?].
Qed.

Lemma is_plain_cons (n : ascii) (needle : string) :
  is_plain (String n needle) = true ->
  (byte n < 128)%Z /\ is_capital n = false
  /\ (needle = "" -> n <> "i"%char) /\ is_plain needle = true.
Proof.
  simpl. intros H. bool_facts. repeat split; try done.
  intros -> ->. done.
Qed.

(** Bytes from 128 up hold no part of an occurrence of an ASCII needle. *)
Lemma all_high_skip (X L pre post : string) (n : ascii) (needle : string) :
  all_high X = true -> (byte n < 128)%Z ->
  X +:+ L = pre +:+ String n needle +:+ post ->
  exists pre', L = pre' +:+ String n needle +:+ post.
Proof.
  intros HX Hn. revert pre. induction X as [|h X IH]; intros pre H.
  - by exists pre.
  - simpl in HX. bool_facts. destruct pre as [|p pre]; simpl in H.
    + injection H as -> _. lia.
    + injection H as _ H. by apply (IH H1 pre).
Qed.

(** Where the lower case of characters begins with a plain needle, the
    characters begin with a writing of the needle. *)
Lemma lower_chunks_prefix (needle : string) :
  is_plain needle = true ->
  forall (cs : list string) (after_cased : bool) (post : string),
    Forall (fun c => is_character c = true) cs ->
    lower_chunks after_cased cs = needle +:+ post ->
    exists M B, cs = (M ++ B)%list
                /\ matches_ignoring_case (joined M) needle = true.
Proof.
  induction needle as [|n needle IH]; intros Hplain cs f post Hcs H.
  { by exists [], cs. }
  apply is_plain_cons in Hplain as (Hn & Hcap & Hi & Hplain).
  destruct cs as [|c rest]; [done|].
  apply Forall_cons in Hcs as [Hc Hrest].
  simpl in H.
  destruct (lower_case_of_cases (f && negb (followed_by_cased rest)) c Hc)
    as [(a & -> & Ha & Hout) | [[-> Hout] | [[Hne Hhigh] | (hs & Hout & Hne & Hhigh)]]];
    try rewrite Hout in H.
  - simpl in H. injection H as Hlow H.
    destruct (IH Hplain _ _ _ Hrest H) as (M & B & -> & HM).
    exists (String a "" :: M), B. split; [done|].
    simpl. rewrite HM, andb_true_r. apply orb_true_iff. left.
    apply same_char_ignoring_case_lower.
    rewrite <- Hlow. by rewrite (proj1 (lower_ascii_byte a)).
  - simpl in H. injection H as <- H.
    destruct (IH Hplain _ _ _ Hrest H) as (M & B & -> & HM).
    exists (KELVIN_SIGN :: M), B. split; [done|].
    simpl. by rewrite HM.
  - destruct (lower_case_of _ c) as [|h hs]; [done|].
    simpl in H, Hhigh. injection H as -> _. bool_facts. lia.
  - simpl in H. injection H as <- H.
    destruct needle as [|n' needle]; [by specialize (Hi eq_refl)|].
    apply is_plain_cons in Hplain as (Hn' & _).
    destruct hs as [|h hs]; [done|].
    simpl in H, Hhigh. injection H as -> _. bool_facts. lia.
Qed.

(** Where the lower case of characters contains a plain needle, the
    characters contain a writing of the needle. *)
Lemma lower_chunks_includes (n : ascii) (needle : string)
    (cs : list string) :
  is_plain (String n needle) = true ->
  Forall (fun c => is_character c = true) cs ->
  forall (after_cased : bool) (pre post : string),
    lower_chunks after_cased cs = pre +:+ String n needle +:+ post ->
    exists A M B, cs = (A ++ M ++ B)%list
                  /\ matches_ignoring_case (joined M) (String n needle) = true.
Proof.
  intros Hplain Hcs.
  induction cs as [|c rest IH]; intros f pre post H.
  { by destruct pre. }
  destruct pre as [|p pre].
  { destruct (lower_chunks_prefix _ Hplain _ _ _ Hcs H) as (M & B & -> & HM).
    by exists [], M, B. }
  apply Forall_cons in Hcs as [Hc Hrest].
  simpl in H.
  destruct (lower_case_of_tail (f && negb (followed_by_cased rest)) c Hc)
    as (x & hs & Hout & Hhigh).
  rewrite Hout in H. simpl in H. injection H as _ H.
  apply all_high_skip in H as [pre' H];
    [|done|by apply is_plain_cons in Hplain as [? _]].
  destruct (IH Hrest _ _ _ H) as (A & M & B & -> & HM).
  by exists (c :: A), M, B.
Qed.

Lemma sequence_length_ascii (b1 : ascii) (b2 b3 b4 : option ascii) :
  (byte b1 < 194)%Z -> sequence_length b1 b2 b3 b4 = 1%nat.
Proof.
  intros H. unfold sequence_length.
  split_conditions; bool_facts; try done; lia.
Qed.

Lemma chunks_ascii (a : ascii) (s : string) :
  (byte a < 128)%Z -> chunks (String a s) = String a "" :: chunks s.
Proof.
  intros H. rewrite chunks_first. unfold first_chunk.
  by rewrite sequence_length_ascii by lia.
Qed.

Lemma chunks_kelvin (s : string) :
  chunks (KELVIN_SIGN +:+ s) = KELVIN_SIGN :: chunks s.
Proof.
  unfold KELVIN_SIGN. simpl String.append. by rewrite chunks_first.
Qed.

Lemma after_kelvin_sign_Some (s rest : string) :
  after_kelvin_sign s = Some rest -> s = KELVIN_SIGN +:+ rest.
Proof.
  destruct s as [|b1 [|b2 [|b3 r]]]; try done. unfold after_kelvin_sign.
  destruct (String.eqb _ _) eqn:E; [|done].
  apply String.eqb_eq in E. intros [= ->]. by rewrite <- E.
Qed.

Lemma lower_chunks_app (A R : list string) (after_cased : bool) :
  exists X after_cased',
    lower_chunks after_cased (A ++ R) = X +:+ lower_chunks after_cased' R.
Proof.
  revert after_cased. induction A as [|c A IH]; intros f.
  { by exists "", f. }
  simpl.
  destruct (IH (if is_case_ignorable c then f else is_cased c))
    as (X & f' & ->).
  eexists _, f'. by rewrite append_assoc.
Qed.

(** The lower case of a writing of a plain needle is the needle, whatever
    comes before and after the writing. *)
Lemma matches_lower (needle : string) :
  is_plain needle = true ->
  forall (mid post : string) (after_cased : bool),
    matches_ignoring_case mid needle = true ->
    exists after_cased',
      lower_chunks after_cased (chunks (mid +:+ post))
      = needle +:+ lower_chunks after_cased' (chunks post).
Proof.
  induction needle as [|n needle IH]; intros Hplain mid post f H.
  { destruct mid; [|done]. by exists f. }
  apply is_plain_cons in Hplain as (Hn & Hcap & _ & Hplain).
  destruct mid as [|a mid]; [done|].
  cbn [matches_ignoring_case] in H. apply orb_true_iff in H as [H|H].
  - apply andb_true_iff in H as [Hchar H].
    apply same_char_ignoring_case_lower in Hchar.
    destruct (lower_ascii_byte n) as (_ & _ & _ & Hsame & _).
    rewrite (Hsame Hcap) in Hchar.
    assert (byte a < 128)%Z as Ha.
    { destruct (lower_ascii_byte a) as (_ & _ & Hhigh & _).
      destruct (Z.lt_ge_cases (byte a) 128) as [|Hge]; [done|].
      rewrite (Hhigh Hge) in Hchar. subst a. lia. }
    change (String a mid +:+ post) with (String a (mid +:+ post)).
    rewrite chunks_ascii by done.
    cbn [lower_chunks]. rewrite lower_case_of_ascii by done.
    destruct (IH Hplain mid post
                (if is_case_ignorable (String a "") then f
                 else is_cased (String a "")) H) as [f' ->].
    exists f'. by rewrite Hchar.
  - apply andb_true_iff in H as [Hk H].
    apply Ascii.eqb_eq in Hk. subst n.
    destruct (after_kelvin_sign (String a mid)) as [rest|] eqn:E; [|done].
    apply after_kelvin_sign_Some in E. rewrite E, append_assoc, chunks_kelvin.
    cbn [lower_chunks]. rewrite lower_case_of_kelvin.
    destruct (IH Hplain rest post
                (if is_case_ignorable KELVIN_SIGN then f
                 else is_cased KELVIN_SIGN) H) as [f' ->].
    by exists f'.
Qed.

Lemma matches_not_continued (mid post : string) (n : ascii)
    (needle : string) :
  (byte n < 128)%Z -> is_capital n = false ->
  matches_ignoring_case mid (String n needle) = true ->
  is_continuation (peek (mid +:+ post)) = false.
Proof.
  intros Hn Hcap H. destruct mid as [|a mid]; [done|].
  cbn [matches_ignoring_case] in H. apply orb_true_iff in H as [H|H].
  - apply andb_true_iff in H as [Hchar _].
    apply same_char_ignoring_case_lower in Hchar.
    destruct (lower_ascii_byte n) as (_ & _ & _ & Hsame & _).
    rewrite (Hsame Hcap) in Hchar.
    destruct (lower_ascii_byte a) as (_ & _ & Hhigh & _).
    simpl. apply andb_false_iff. left. apply Z.leb_gt.
    destruct (Z.lt_ge_cases (byte a) 128) as [|Hge]; [done|].
    rewrite (Hhigh Hge) in Hchar. subst a. lia.
  - apply andb_true_iff in H as [_ H].
    destruct (after_kelvin_sign (String a mid)) as [rest|] eqn:E; [|done].
    apply after_kelvin_sign_Some in E. by injection E as -> _.
Qed.

(** Searching the lower case of a message for a plain needle finds the
    writings of the needle in the message. *)
Lemma includes_toLowerCase (msg needle : string) :
  is_plain needle = true ->
  includes (toLowerCase msg) needle = true <->
  contains_ignoring_case msg needle.
Proof.
  intros Hplain. destruct needle as [|n needle].
  { split.
    - intros _. by exists "", "", msg.
    - intros _. unfold toLowerCase. by destruct (lower_chunks _ _). }
  rewrite includes_spec. unfold contains_ignoring_case, toLowerCase. split.
  - intros (x & y & H).
    destruct (lower_chunks_includes n needle (chunks msg) Hplain
                (chunks_characters msg) _ _ _ H) as (A & M & B & Hcs & HM).
    exists (joined A), (joined M), (joined B). split; [|done].
    by rewrite <- !joined_app, <- Hcs, chunks_joined.
  - intros (pre & mid & post & -> & H).
    pose proof (is_plain_cons _ _ Hplain) as (Hn & Hcap & _).
    rewrite chunks_app by by apply (matches_not_continued _ _ n needle).
    destruct (lower_chunks_app (chunks pre) (chunks (mid +:+ post)) false)
      as (X & f & ->).
    destruct (matches_lower _ Hplain mid post f H) as [f' ->].
    by exists X, (lower_chunks f' (chunks post)).
Qed.

(** A writing of two needles, one after the other, is a writing of the first
    and then a writing of the second. *)
Lemma matches_ignoring_case_app (mid first second : string) :
  matches_ignoring_case mid (first +:+ second) = true ->
  exists mid1 mid2,
    mid = mid1 +:+ mid2
    /\ matches_ignoring_case mid1 first = true
    /\ matches_ignoring_case mid2 second = true.
Proof.
  revert mid. induction first as [|n first IH]; intros mid H.
  { by exists "", mid. }
  change (String n first +:+ second) with (String n (first +:+ second)) in H.
  destruct mid as [|a mid]; [done|].
  cbn [matches_ignoring_case] in H. apply orb_true_iff in H as [H|H].
  - apply andb_true_iff in H as [Hchar H].
    destruct (IH _ H) as (mid1 & mid2 & -> & H1 & H2).
    exists (String a mid1), mid2. split; [done|]. split; [|done].
    cbn [matches_ignoring_case]. by rewrite Hchar, H1.
  - apply andb_true_iff in H as [Hk H].
    destruct (after_kelvin_sign (String a mid)) as [rest|] eqn:E; [|done].
    apply after_kelvin_sign_Some in E.
    destruct (IH _ H) as (mid1 & mid2 & -> & H1 & H2).
    exists (KELVIN_SIGN +:+ mid1), mid2. rewrite E.
    split; [by rewrite append_assoc|]. split; [|done].
    unfold KELVIN_SIGN. simpl String.append.
    cbn [matches_ignoring_case]. rewrite Hk.
    change (after_kelvin_sign _) with (Some mid1).
    cbv iota. rewrite H1. apply orb_true_r.
Qed.

(** A message that contains a needle contains what the needle begins
    with. *)
Lemma contains_ignoring_case_prefix (msg first second : string) :
  contains_ignoring_case msg (first +:+ second) ->
  contains_ignoring_case msg first.
Proof.
  intros (pre & mid & post & -> & H).
  apply matches_ignoring_case_app in H as (mid1 & mid2 & -> & H1 & _).
  exists pre, mid1, (mid2 +:+ post). by rewrite append_assoc.
Qed.

(** The lower case of ASCII characters is their lower case one by one. *)
Lemma lower_chunks_ascii (s : string) (after_cased : bool) :
  is_ascii s = true ->
  String.list_ascii_of_string (lower_chunks after_cased (chunks s))
  = map lower_ascii (String.list_ascii_of_string s).
Proof.
  revert after_cased. induction s as [|a s IH]; intros f H; [done|].
  simpl in H. apply andb_true_iff in H as [Ha H]. apply Z.ltb_lt in Ha.
  rewrite chunks_ascii by done. cbn [lower_chunks].
  rewrite lower_case_of_ascii by done. simpl. by rewrite IH.
Qed.

Lemma list_ascii_of_toLowerCase (s : string) :
  is_ascii s = true ->
  String.list_ascii_of_string (toLowerCase s)
  = map lower_ascii (String.list_ascii_of_string s).
Proof. apply lower_chunks_ascii. Qed.

End Characters.

Lemma isTransientError_existsb (e : Error) :
  isTransientError e =
  existsb (includes (toLowerCase (message e))) transient_substrings.
Proof.
  unfold isTransientError, transient_substrings. simpl.
  repeat match goal with
         | |- context [if includes ?m ?n then _ else _] =>
             destruct (includes m n);
             [simpl; rewrite ?orb_true_r; reflexivity|]
         end.
  reflexivity.
Qed.

Lemma transient_substrings_plain (needle : string) :
  In needle transient_substrings -> is_plain needle = true.
Proof.
  unfold transient_substrings. simpl.
  intros H. repeat (destruct H as [<- | H]; [by vm_compute|]). destruct H.
Qed.

(** The classifier is the search for the twelve substrings. *)
Lemma isTransientError_contains (e : Error) :
  isTransientError e = true <->
  exists needle, In needle transient_substrings /\
                 contains_ignoring_case (message e) needle.
Proof.
  rewrite isTransientError_existsb, existsb_exists. split.
  - intros (n & Hin & H). exists n. split; [done|].
    by apply includes_toLowerCase; [apply transient_substrings_plain|].
  - intros (n & Hin & H). exists n. split; [done|].
    by apply includes_toLowerCase; [apply transient_substrings_plain|].
Qed.

(** C2. The classifier answers transient exactly for the errors whose message
    contains one of the twelve substrings the code searches for, each letter
    in either case, the Kelvin sign (U+212A, whose lower case is k) counting
    as a capital k; every other error is fatal. The twelve are the codes
    [econnrefused], [econnreset], [etimedout], [enotfound] and [epipe], the
    three generic words and the four status markers. Of the words the
    specification names the five codes by, connection-refused and
    connection-reset make a message transient, for they hold the generic
    [connection]. *)
Theorem isTransientError_iff (e : Error) :
  (isTransientError e = true <->
   exists needle, In needle transient_substrings /\
                  contains_ignoring_case (message e) needle)
  /\ (isTransientError e = false <->
      forall needle, In needle transient_substrings ->
                     ~ contains_ignoring_case (message e) needle)
  /\ (forall needle,
        In needle ["connection-refused"; "connection-reset"] ->
        contains_ignoring_case (message e) needle ->
        isTransientError e = true).
Proof.
  pose proof (isTransientError_contains e) as Ht.
  split; [exact Ht|]. split.
  - rewrite <- not_true_iff_false, Ht. split.
    + intros Hno n Hin Hc. apply Hno. by exists n.
    + intros Hall (n & Hin & Hc). by apply (Hall n).
  - intros needle Hin Hc. apply Ht. exists "connection".
    split; [unfold transient_substrings; simpl; tauto|].
    destruct Hin as [<- | [<- | []]].
    + by apply (contains_ignoring_case_prefix _ "connection" "-refused").
    + by apply (contains_ignoring_case_prefix _ "connection" "-reset").
Qed.

(** C2, counterexample. Messages that hold timed-out, host-not-found or
    broken-pipe, three of the substrings as the specification writes them,
    are classified fatal; and a message that holds the code ETIMEDOUT, and
    none of the substrings as the specification writes them, is classified
    transient. *)
Lemma isTransientError_named_substrings :
  (In "timed-out" named_transient_substrings
   /\ contains_ignoring_case "Request timed-out" "timed-out"
   /\ isTransientError (mkError "Error" "Request timed-out") = false)
  /\ (In "host-not-found" named_transient_substrings
      /\ contains_ignoring_case "host-not-found: example.org" "host-not-found"
      /\ isTransientError (mkError "Error" "host-not-found: example.org")
         = false)
  /\ (In "broken-pipe" named_transient_substrings
      /\ contains_ignoring_case "write: broken-pipe" "broken-pipe"
      /\ isTransientError (mkError "Error" "write: broken-pipe") = false)
  /\ (isTransientError (mkError "Error" "connect ETIMEDOUT 10.0.0.1:443")
      = true
      /\ forall needle,
           In needle named_transient_substrings ->
           ~ contains_ignoring_case "connect ETIMEDOUT 10.0.0.1:443" needle).
Proof.
  split; [|split; [|split]].
  - split; [unfold named_transient_substrings; simpl; tauto|].
    split; [|by vm_compute]. by exists "Request ", "timed-out", "".
  - split; [unfold named_transient_substrings; simpl; tauto|].
    split; [|by vm_compute]. by exists "", "host-not-found", ": example.org".
  - split; [unfold named_transient_substrings; simpl; tauto|].
    split; [|by vm_compute]. by exists "write: ", "broken-pipe", "".
  - split; [by vm_compute|]. intros needle Hin Hc.
    assert (is_plain needle = true) as Hplain.
    { unfold named_transient_substrings in Hin. simpl in Hin.
      repeat (destruct Hin as [<- | Hin]; [by vm_compute|]). destruct Hin. }
    apply (includes_toLowerCase _ _ Hplain) in Hc.
    unfold named_transient_substrings in Hin. simpl in Hin.
    repeat (destruct Hin as [<- | Hin]; [by vm_compute in Hc|]). destruct Hin.
Qed.

Example isTransientError_refused :
  isTransientError (mkError "Error" "connect ECONNREFUSED 127.0.0.1:3000")
  = true.
Proof. by vm_compute. Qed.

Example isTransientError_capitals :
  isTransientError (mkError "Error" "Connection closed") = true
  /\ isTransientError (mkError "Error" "Request Timeout") = true
  /\ isTransientError (mkError "Error" "HTTP 503 Service Unavailable") = true.
Proof. by vm_compute. Qed.

Example isTransientError_unauthorized :
  isTransientError (mkError "Error" "401 Unauthorized") = false
  /\ isTransientError (mkError "TypeError" "Invalid URL") = false.
Proof. by vm_compute. Qed.

(** The lower case of the Kelvin sign is k, that of the capital I with a
    dot is an i and a combining dot, and the capital sigma at the end of a
    word becomes the final sigma. *)
Example isTransientError_kelvin_sign :
  isTransientError (mkError "Error" ("NETWOR" +:+ KELVIN_SIGN +:+ " down"))
  = true.
Proof. by vm_compute. Qed.

Example toLowerCase_examples :
  toLowerCase "ECONNRESET: Socket Hang Up" = "econnreset: socket hang up"
  /\ toLowerCase KELVIN_SIGN = "k"
  /\ toLowerCase (utf8 304) = "i" +:+ utf8 775
  /\ toLowerCase (utf8 201) = utf8 233
  /\ toLowerCase (utf8 927 +:+ utf8 916 +:+ utf8 927 +:+ utf8 931)
     = utf8 959 +:+ utf8 948 +:+ utf8 959 +:+ utf8 962
  /\ toLowerCase (utf8 931 +:+ utf8 927) = utf8 963 +:+ utf8 959
  /\ toLowerCase (utf8 66560) = utf8 66600.
Proof. by vm_compute. Qed.

(** ** Doubles *)











Global Instance round_half_even_comp : Proper (Qeq ==> eq) round_half_even.
Proof.
  intros x y H. unfold round_half_even.
  rewrite (Qfloor_comp x y H).
  assert (Hc : (x - inject_Z (Qfloor y) ?= 1 # 2)%Q
               = (y - inject_Z (Qfloor y) ?= 1 # 2)%Q)
    by (apply Qcompare_comp; [by rewrite H | reflexivity]).
  by rewrite Hc.
Qed.










































Lemma round_half_up_mono (x y : Q) :
  (x <= y)%Q -> (round_half_up x <= round_half_up y)%Z.
Proof. intros H. apply Qfloor_resp_le. lra. Qed.



Global Instance round_half_up_comp : Proper (Qeq ==> eq) round_half_up.
Proof. intros x y H. unfold round_half_up. apply Qfloor_comp. by rewrite H. Qed.

Lemma Math_round_mono (x y : number) :
  number_le x y -> number_le (Math_round x) (Math_round y).
Proof.
  destruct x as [|[|]|p], y as [|[|]|q]; simpl; try done.
  intros H. rewrite <- Zle_Qle. by apply round_half_up_mono.
Qed.



(** ** The backoff scheduler *)




(** The default policy waits about 1 s, 2 s and 4 s before its three
    retries, and never more than 10 s. *)
Example cappedDelay_default :
  cappedDelay 0 DEFAULT_RETRY_CONFIG = Finite (1000 # 1)
  /\ cappedDelay 1 DEFAULT_RETRY_CONFIG = Finite (2000 # 1)
  /\ cappedDelay 2 DEFAULT_RETRY_CONFIG = Finite (4000 # 1)
  /\ cappedDelay 4 DEFAULT_RETRY_CONFIG = Finite (10000 # 1).
Proof. repeat split; vm_compute; reflexivity. Qed.

(** The sum is rounded to a double before [Math.round] sees it: with both
    delays 2 and the largest draw below 1, the sum [2.5 - 2^-53] becomes
    [2.5], and the delay is 3. *)
Example calculateDelay_rounds_the_sum :
  fst (calculateDelay (E := Error) 0
         {| maxRetries := 3; baseDelayMs := 2 # 1; maxDelayMs := 2 # 1 |}
         (world_drawing (9007199254740991 # 9007199254740992)))
  = inr (Finite 3).
Proof. vm_compute. reflexivity. Qed.

(** Numbers print as JavaScript prints them. *)
Example Number_toString_examples :
  Number_toString (Finite (1250 # 1)) = "1250"
  /\ Number_toString (Finite (1152921504606846976 # 1)) = "1152921504606847000"
  /\ Number_toString (Finite (1 # 1048576)) = "9.5367431640625e-7"
  /\ Number_toString NaN = "NaN".
Proof. repeat split; vm_compute; reflexivity. Qed.

(** ** The retry executor *)

Lemma backoff_returns {St E} name config attempt e (w : World St) :
  backoff (E := E) name config attempt e w
  = (inr tt, snd (backoff (E := E) name config attempt e w)).
Proof.
  unfold_backoff. by destruct (MCP_DEBUG _).
Qed.

Lemma backoff_ext {St E} name config attempt e (w : World St) :
  ext (snd (backoff (E := E) name config attempt e w)) = ext w.
Proof.
  unfold_backoff. by destruct (MCP_DEBUG _).
Qed.

Lemma withRetry_loop_success {St T} (fn : M (World St) Error T)
    name config iterations attempt lastError w v w' :
  fn w = (inr v, w') ->
  withRetry_loop fn name config (S iterations) attempt lastError w
  = (inr v, w').
Proof. intros H. simpl. unfold try_catch. by rewrite H. Qed.

Lemma withRetry_loop_retry {St T} (fn : M (World St) Error T)
    name config iterations attempt lastError w e w' :
  fn w = (inl e, w') ->
  (attempt < maxRetries config)%Z -> isTransientError e = true ->
  withRetry_loop fn name config (S iterations) attempt lastError w
  = withRetry_loop fn name config iterations (attempt + 1)%Z (Some e)
      (snd (backoff (E := option Error) name config attempt e w')).
Proof.
  intros H Hlt Htr. simpl. unfold try_catch. rewrite H.
  apply Z.ltb_lt in Hlt. rewrite Hlt, Htr. simpl.
  unfold bind at 1. by rewrite backoff_returns.
Qed.

Lemma withRetry_loop_give_up {St T} (fn : M (World St) Error T)
    name config iterations attempt lastError w e w' :
  fn w = (inl e, w') ->
  (attempt <? maxRetries config)%Z && isTransientError e = false ->
  withRetry_loop fn name config (S iterations) attempt lastError w
  = (inl (Some e), w').
Proof. intros H Hno. simpl. unfold try_catch. by rewrite H, Hno. Qed.

(** Four failing executions, each but the last followed by a backoff. *)
(** The executor sees of its operation only what it does to each world. *)
Lemma withRetry_loop_ext {St T} (fn fn' : M (World St) Error T)
    name config iterations attempt lastError w :
  (forall w0, fn w0 = fn' w0) ->
  withRetry_loop fn name config iterations attempt lastError w
  = withRetry_loop fn' name config iterations attempt lastError w.
Proof.
  intros Hfn. revert attempt lastError w.
  induction iterations as [|iterations IH]; intros attempt lastError w;
    [reflexivity|].
  simpl. unfold try_catch. rewrite Hfn.
  destruct (fn' w) as [[e|result] w1]; [|reflexivity].
  destruct ((attempt <? maxRetries config)%Z && isTransientError e);
    [|reflexivity].
  unfold bind. destruct (backoff name config attempt e w1) as [[?|?] w2];
    [reflexivity | apply IH].
Qed.

Lemma withRetry_four_attempts {St T} (fn : M (World St) Error T)
    name config :
  maxRetries config = 3%Z ->
  (forall w, exists e w', fn w = (inl e, w') /\ isTransientError e = true) ->
  forall w0, exists e0 w0' e1 w1' e2 w2' e3 w3',
    fn w0 = (inl e0, w0')
    /\ fn (snd (backoff (E := option Error) name config 0 e0 w0'))
       = (inl e1, w1')
    /\ fn (snd (backoff (E := option Error) name config 1 e1 w1'))
       = (inl e2, w2')
    /\ fn (snd (backoff (E := option Error) name config 2 e2 w2'))
       = (inl e3, w3')
    /\ withRetry fn name config w0 = (inl (Some e3), w3').
Proof.
  intros Hmax Hfn w0.
  destruct (Hfn w0) as (e0 & w0' & H0 & T0).
  destruct (Hfn (snd (backoff (E := option Error) name config 0 e0 w0')))
    as (e1 & w1' & H1 & T1).
  destruct (Hfn (snd (backoff (E := option Error) name config 1 e1 w1')))
    as (e2 & w2' & H2 & T2).
  destruct (Hfn (snd (backoff (E := option Error) name config 2 e2 w2')))
    as (e3 & w3' & H3 & T3).
  exists e0, w0', e1, w1', e2, w2', e3, w3'. repeat split; try assumption.
  unfold withRetry. rewrite Hmax. change (Z.to_nat (3 + 1)) with 4%nat.
  rewrite (withRetry_loop_retry fn _ _ _ _ _ _ _ _ H0) by (rewrite ?Hmax; done).
  rewrite (withRetry_loop_retry fn _ _ _ _ _ _ _ _ H1) by (rewrite ?Hmax; done).
  rewrite (withRetry_loop_retry fn _ _ _ _ _ _ _ _ H2) by (rewrite ?Hmax; done).
  apply (withRetry_loop_give_up fn _ _ _ _ _ _ _ _ H3).
  by rewrite Hmax.
Qed.

Lemma counting_executions {St E T} (fn : M (World St) E T) w r w' :
  counting fn w = (r, w') -> executions w' = S (executions w).
Proof.
  unfold counting. destruct (fn _) as [r0 w0]. by intros [= <- <-].
Qed.

Lemma counting_throws {St E T} (fn : M (World St) E T) (P : E -> Prop) :
  (forall w, exists e w', fn w = (inl e, w') /\ P e) ->
  forall w, exists e w', counting fn w = (inl e, w') /\ P e.
Proof.
  intros Hfn w. unfold counting.
  destruct (Hfn (set_ext (snd (ext w)) w)) as (e & w' & -> & He). eauto.
Qed.

Lemma backoff_executions {St E} name config attempt e (w : World (nat * St)) :
  executions (snd (backoff (E := E) name config attempt e w)) = executions w.
Proof. unfold executions. by rewrite backoff_ext. Qed.

(** C1. With [maxRetries = 3], an operation that throws a transient error at
    every execution is executed four times, with a backoff after each of the
    first three, and [withRetry] throws the very error of the fourth
    execution; a counter around the operation reads 4 at the end. *)
Theorem withRetry_transient_exhausts {St T} (fn : M (World St) Error T)
    (operationName : string) (config : RetryConfig) :
  maxRetries config = 3%Z ->
  (forall w, exists e w', fn w = (inl e, w') /\ isTransientError e = true) ->
  forall w0,
    (exists e0 w0' e1 w1' e2 w2' e3 w3',
       fn w0 = (inl e0, w0')
       /\ fn (snd (backoff (E := option Error) operationName config 0 e0 w0'))
          = (inl e1, w1')
       /\ fn (snd (backoff (E := option Error) operationName config 1 e1 w1'))
          = (inl e2, w2')
       /\ fn (snd (backoff (E := option Error) operationName config 2 e2 w2'))
          = (inl e3, w3')
       /\ withRetry fn operationName config w0 = (inl (Some e3), w3'))
    /\ executions (snd (withRetry (counting fn) operationName config
                                  (set_ext (0%nat, ext w0) w0))) = 4%nat.
Proof.
  intros Hmax Hfn w0. split; [by apply withRetry_four_attempts|].
  destruct (withRetry_four_attempts (counting fn) operationName config Hmax
              (counting_throws fn _ Hfn) (set_ext (0%nat, ext w0) w0))
    as (e0 & w0' & e1 & w1' & e2 & w2' & e3 & w3' & H0 & H1 & H2 & H3 & ->).
  simpl.
  apply counting_executions in H0, H1, H2, H3.
  rewrite backoff_executions in H1, H2, H3.
  rewrite H3, H2, H1, H0. reflexivity.
Qed.

Lemma withRetry_transient_exhausts_witness :
  (exists e3 w3',
     withRetry always_reset "list tools" DEFAULT_RETRY_CONFIG
               (world_drawing (1 # 2)) = (inl (Some e3), w3'))
  /\ executions (snd (withRetry (counting always_reset) "list tools"
                                DEFAULT_RETRY_CONFIG
                                (set_ext (0%nat, tt) (world_drawing (1 # 2)))))
     = 4%nat.
Proof.
  destruct (withRetry_transient_exhausts always_reset "list tools"
              DEFAULT_RETRY_CONFIG eq_refl
              (fun w => ex_intro _ _ (ex_intro _ w (conj eq_refl eq_refl)))
              (world_drawing (1 # 2)))
    as [(e0 & w0' & e1 & w1' & e2 & w2' & e3 & w3' & _ & _ & _ & _ & Hrun)
        Hcount].
  split; [by exists e3, w3' | exact Hcount].
Defined.

(** Each turn of the loop executes the operation once. *)
Lemma withRetry_loop_executions_le {St T} (fn : M (World St) Error T)
    name config iterations attempt lastError (w : World (nat * St)) :
  (executions (snd (withRetry_loop (counting fn) name config iterations
                                   attempt lastError w))
   <= executions w + iterations)%nat.
Proof.
  revert attempt lastError w.
  induction iterations as [|k IH]; intros attempt lastError w; simpl; [lia|].
  unfold try_catch. destruct (counting fn w) as [[e|v] w1] eqn:Hrun;
    apply counting_executions in Hrun; simpl; [|lia].
  destruct ((attempt <? maxRetries config)%Z && isTransientError e);
    simpl; [|lia].
  unfold bind at 1. rewrite backoff_returns.
  specialize (IH (attempt + 1)%Z (Some e)
                 (snd (backoff (E := option Error) name config attempt e w1))).
  rewrite backoff_executions in IH. lia.
Qed.

(** X2. Whatever the operation does, [withRetry] executes it at most
    [maxRetries + 1] times, and not at all under a negative [maxRetries]. *)
Theorem withRetry_attempts_bounded {St T} (fn : M (World St) Error T)
    (operationName : string) (config : RetryConfig) (w : World St) :
  (executions (snd (withRetry (counting fn) operationName config
                              (set_ext (0%nat, ext w) w)))
   <= Z.to_nat (maxRetries config + 1))%nat.
Proof.
  unfold withRetry.
  pose proof (withRetry_loop_executions_le fn operationName config
                (Z.to_nat (maxRetries config + 1)) 0%Z None
                (set_ext (0%nat, ext w) w)) as H.
  exact H.
Qed.




(** C8. When the first execution throws an error the classifier calls fatal,
    [withRetry] throws that error and leaves the world as that one execution
    left it: no draw, no diagnostic, no timer, no second execution; a counter
    around the operation reads 1. *)
Theorem withRetry_fatal_single_attempt {St T} (fn : M (World St) Error T)
    (operationName : string) (config : RetryConfig)
    (w : World St) (e : Error) (w' : World St) :
  (0 <= maxRetries config)%Z ->
  fn w = (inl e, w') -> isTransientError e = false ->
  withRetry fn operationName config w = (inl (Some e), w')
  /\ executions (snd (withRetry (counting fn) operationName config
                                (set_ext (0%nat, ext w) w))) = 1%nat.
Proof.
  intros Hmax Hfn Hfatal.
  assert (Hiter : exists k, Z.to_nat (maxRetries config + 1) = S k).
  { exists (Z.to_nat (maxRetries config)). lia. }
  destruct Hiter as [k Hk]. unfold withRetry. rewrite Hk. split.
  - apply (withRetry_loop_give_up fn _ _ _ _ _ _ _ _ Hfn).
    by rewrite Hfatal, andb_false_r.
  - rewrite (withRetry_loop_give_up (counting fn) _ _ _ _ _ _ e
               (set_ext (1%nat, ext w') w')).
    + reflexivity.
    + unfold counting, set_ext. destruct w. simpl in *. by rewrite Hfn.
    + by rewrite Hfatal, andb_false_r.
Qed.

Lemma withRetry_fatal_single_attempt_witness :
  withRetry always_unauthorized "list tools" DEFAULT_RETRY_CONFIG
            (world_drawing (1 # 2))
  = (inl (Some (mkError "Error" "401 Unauthorized")), world_drawing (1 # 2))
  /\ executions (snd (withRetry (counting always_unauthorized) "list tools"
                                DEFAULT_RETRY_CONFIG
                                (set_ext (0%nat, tt) (world_drawing (1 # 2)))))
     = 1%nat.
Proof.
  apply (withRetry_fatal_single_attempt always_unauthorized "list tools"
           DEFAULT_RETRY_CONFIG (world_drawing (1 # 2))
           (mkError "Error" "401 Unauthorized") (world_drawing (1 # 2)));
    [simpl; lia | reflexivity | vm_compute; reflexivity].
Defined.

(** ** The transport factory *)







Section SessionProperties.

Context {St Client : Type}.
Variable new_URL : string -> Error + URL.
Variable Client_connect : Transport -> M St Error Client.
Variable Client_listTools : Client -> M St Error (list Tool.t).
Variable Client_close : Client -> M St Error unit.
Variable serverNotFound : string -> list string -> string.

(** C9. [connectToServer] chooses the transport by the [url] key of the
    descriptor alone. With a [url], whatever the [command], each connection
    attempt parses the url and connects through an HTTP transport, and
    [connectToServer] is the retry of that attempt; without a [url], whatever
    the [command], each attempt connects through a stdio transport made of
    the descriptor's command (undefined when the descriptor has none),
    arguments, merged environment and working directory. Whenever a
    transport is built, it is an HTTP transport exactly when the descriptor
    has a [url]. *)
Theorem connectToServer_discriminates_on_url (serverName : string)
    (config : ServerConfig) (w : World St) :
  let connected (transport : Transport)
      : M (World St) Error (ConnectedClient (St := St)) :=
    client <- on_ext (Client_connect transport) ;;
    ret {| client := client; close := on_ext (Client_close client) |} in
  let over_http (address : string)
      : M (World St) Error (ConnectedClient (St := St)) :=
    fun w0 => match new_URL address with
              | inr parsed =>
                  connected
                    (StreamableHTTPClientTransport parsed (headers config)) w0
              | inl e => (inl e, w0)
              end in
  let over_stdio : M (World St) Error (ConnectedClient (St := St)) :=
    fun w0 => connected
                (StdioClientTransport (command config) (args config)
                   (mergedEnv (process_env w0) config) (cwd config)) w0 in
  (isHttpServer config = true <-> is_Some (url config))
  /\ (forall address,
        url config = Some address ->
        buildTransport new_URL config w = createHttpTransport new_URL config w
        /\ connect_attempt new_URL Client_connect Client_close config w
           = over_http address w
        /\ connectToServer new_URL Client_connect Client_close
             serverName config w
           = withRetry (over_http address) ("connect to " +:+ serverName)
                       DEFAULT_RETRY_CONFIG w)
  /\ (url config = None ->
      buildTransport new_URL config w = createStdioTransport config w
      /\ connect_attempt new_URL Client_connect Client_close config w
         = over_stdio w
      /\ connectToServer new_URL Client_connect Client_close
           serverName config w
         = withRetry over_stdio ("connect to " +:+ serverName)
                     DEFAULT_RETRY_CONFIG w)
  /\ (forall transport w',
        buildTransport new_URL config w = (inr transport, w') ->
        (exists parsed headers,
           transport = StreamableHTTPClientTransport parsed headers)
        <-> is_Some (url config)).
Proof.
  intros connected over_http over_stdio.
  assert (Hhttp : forall address w0,
            url config = Some address ->
            connect_attempt new_URL Client_connect Client_close config w0
            = over_http address w0).
  { intros address w0 Hurl.
    unfold connect_attempt, buildTransport, createHttpTransport, isHttpServer,
      over_http, connected.
    rewrite Hurl. simpl. unfold bind at 1.
    by destruct (new_URL address). }
  assert (Hstdio : forall w0,
            url config = None ->
            connect_attempt new_URL Client_connect Client_close config w0
            = over_stdio w0).
  { intros w0 Hurl.
    unfold connect_attempt, buildTransport, isHttpServer, over_stdio,
      connected.
    by rewrite Hurl. }
  split; [|split; [|split]].
  - unfold isHttpServer.
    destruct (url config) as [address|]; split; intros H;
      try done; try (by eexists); by destruct H.
  - intros address Hurl. split; [|split].
    + unfold buildTransport, isHttpServer. by rewrite Hurl.
    + by apply Hhttp.
    + unfold connectToServer, withRetry. apply withRetry_loop_ext.
      intros w0. by apply Hhttp.
  - intros Hurl. split; [|split].
    + unfold buildTransport, isHttpServer. by rewrite Hurl.
    + by apply Hstdio.
    + unfold connectToServer, withRetry. apply withRetry_loop_ext.
      intros w0. by apply Hstdio.
  - intros transport w'.
    unfold buildTransport, isHttpServer, createHttpTransport,
      createStdioTransport, throw, ret.
    destruct (url config) as [address|]; simpl.
    + destruct (new_URL address) as [e|parsed]; [intros H; discriminate|].
      intros [= <- <-]. split; [by eexists | by eexists _, _].
    + intros [= <- <-]. split.
      * intros (parsed & hs & H). discriminate.
      * intros H. by destruct H.
Qed.

(** C4, as the code behaves. Nothing inspects the shape of a descriptor
    before a transport is constructed. With both keys, the connection
    attempt parses the url and, unless the parser throws, connects through
    an HTTP transport; with neither key, it connects through a stdio
    transport whose command is undefined. *)
Theorem connect_attempt_accepts_any_shape :
  (forall command args env cwd address headers timeout (w : World St),
     connect_attempt new_URL Client_connect Client_close
       (mkServerConfig (Some command) args env cwd (Some address) headers
                       timeout) w
     = match new_URL address with
       | inr parsed =>
           (client <- on_ext (Client_connect
                        (StreamableHTTPClientTransport parsed headers)) ;;
            ret {| client := client;
                   close := on_ext (Client_close client) |}) w
       | inl e => (inl e, w)
       end)
  /\ (forall args env cwd headers timeout (w : World St),
        let config := mkServerConfig None args env cwd None headers timeout in
        connect_attempt new_URL Client_connect Client_close config w
        = (client <- on_ext (Client_connect
                     (StdioClientTransport None args
                        (mergedEnv (process_env w) config) cwd)) ;;
           ret {| client := client;
                  close := on_ext (Client_close client) |}) w).
Proof.
  split.
  - intros. unfold connect_attempt, buildTransport, createHttpTransport.
    simpl. unfold bind at 1. by destruct (new_URL address).
  - intros. reflexivity.
Qed.

End SessionProperties.

(** The type guards on the descriptors of tests/client.test.ts. *)
Example type_guards_of_the_tests :
  isHttpServer (http_server "https://example.com") = true
  /\ isStdioServer (http_server "https://example.com") = false
  /\ isStdioServer (stdio_server "echo") = true
  /\ isHttpServer (stdio_server "echo") = false.
Proof. repeat split. Qed.

(** C4, the claim as stated fails: a transport handle is built from a
    descriptor with both keys, and from a descriptor with neither. *)
Lemma malformed_descriptors_reach_transports :
  (is_Some (command both_fields) /\ is_Some (url both_fields)
   /\ buildTransport (St := unit) sample_new_URL both_fields
                     (world_drawing (1 # 2))
      = (inr (StreamableHTTPClientTransport
                (mkURL "https://mcp.example.com") None),
         world_drawing (1 # 2)))
  /\ (command no_fields = None /\ url no_fields = None
      /\ buildTransport (St := unit) sample_new_URL no_fields
                        (world_drawing (1 # 2))
         = (inr (StdioClientTransport None None ∅ None),
            world_drawing (1 # 2))).
Proof.
  repeat split; try (by eexists). 
Qed.

(** ** Retried operations: what they throw and what they leave alone *)

Lemma withRetry_loop_throws_error {St T} (fn : M (World St) Error T)
    name config iterations attempt lastError w :
  (iterations = 0%nat -> lastError <> None) ->
  fst (withRetry_loop fn name config iterations attempt lastError w)
  <> inl None.
Proof.
  revert attempt lastError w.
  induction iterations as [|k IH]; intros attempt lastError w Hlast.
  - simpl. intros [= H]. by apply Hlast.
  - simpl. unfold try_catch. destruct (fn w) as [[e|v] w'] eqn:Hfn; [|done].
    destruct ((attempt <? maxRetries config)%Z && isTransientError e); [|done].
    unfold bind at 1. rewrite backoff_returns. by apply IH.
Qed.

Lemma withRetry_throws_error {St T} (fn : M (World St) Error T) name w :
  fst (withRetry fn name DEFAULT_RETRY_CONFIG w) <> inl None.
Proof. by apply withRetry_loop_throws_error. Qed.

Lemma quiet_refl {St} (w : World St) : quiet w w.
Proof. by split. Qed.

Lemma quiet_trans {St} (w1 w2 w3 : World St) :
  quiet w1 w2 -> quiet w2 w3 -> quiet w1 w3.
Proof. intros [H1 H2] [H3 H4]. split; congruence. Qed.

Lemma quiet_MCP_DEBUG {St} (w w' : World St) :
  quiet w w' -> MCP_DEBUG w' = MCP_DEBUG w.
Proof. intros [H _]. unfold MCP_DEBUG. by rewrite H. Qed.

Lemma backoff_quiet {St E} name config attempt e (w : World St) :
  MCP_DEBUG w = false ->
  quiet w (snd (backoff (E := E) name config attempt e w)).
Proof.
  intros Hd. unfold_backoff. unfold MCP_DEBUG in *. simpl. rewrite Hd.
  by split.
Qed.

Lemma withRetry_loop_quiet {St T} (fn : M (World St) Error T) name config :
  (forall w, quiet w (snd (fn w))) ->
  forall iterations attempt lastError w,
    MCP_DEBUG w = false ->
    quiet w (snd (withRetry_loop fn name config iterations attempt lastError w)).
Proof.
  intros Hfn. induction iterations as [|k IH]; intros attempt lastError w Hd.
  - apply quiet_refl.
  - simpl. unfold try_catch. specialize (Hfn w).
    destruct (fn w) as [[e|v] w'] eqn:Hrun; simpl in Hfn; [|done].
    destruct ((attempt <? maxRetries config)%Z && isTransientError e); [|done].
    unfold bind at 1. rewrite backoff_returns.
    assert (Hd' : MCP_DEBUG w' = false) by by rewrite (quiet_MCP_DEBUG w w').
    pose proof (backoff_quiet (E := option Error) name config attempt e w' Hd')
      as Hb.
    eapply quiet_trans; [exact Hfn|]. eapply quiet_trans; [exact Hb|].
    apply IH. by rewrite (quiet_MCP_DEBUG w' _ Hb).
Qed.

Lemma withRetry_quiet {St T} (fn : M (World St) Error T) name config w :
  (forall w, quiet w (snd (fn w))) ->
  MCP_DEBUG w = false ->
  quiet w (snd (withRetry fn name config w)).
Proof. intros Hfn Hd. by apply withRetry_loop_quiet. Qed.

(** ** Sessions and the two enumerations *)

Section Enumeration.

Context {St Client : Type}.
Variable new_URL : string -> Error + URL.
Variable Client_connect : Transport -> M St Error Client.
Variable Client_listTools : Client -> M St Error (list Tool.t).
Variable Client_close : Client -> M St Error unit.
Variable serverNotFound : string -> list string -> string.

Local Abbreviation connectToServer' :=
  (connectToServer new_URL Client_connect Client_close).
Local Abbreviation listTools' := (listTools Client_listTools).
Local Abbreviation session' :=
  (session new_URL Client_connect Client_listTools Client_close serverNotFound).
Local Abbreviation sessions' :=
  (sessions new_URL Client_connect Client_listTools Client_close serverNotFound).

Lemma on_ext_quiet {E A} (op : M St E A) (w : World St) :
  quiet w (snd (on_ext op w)).
Proof. unfold on_ext. destruct (op (ext w)). by split. Qed.

Lemma connect_attempt_quiet (config : ServerConfig) (w : World St) :
  quiet w (snd (connect_attempt new_URL Client_connect Client_close config w)).
Proof.
  unfold connect_attempt, bind.
  assert (Hb : exists r, buildTransport new_URL config w = (r, w)).
  { unfold buildTransport, createHttpTransport, createStdioTransport.
    destruct (isHttpServer config); [|by eexists].
    destruct (new_URL _); by eexists. }
  destruct Hb as [[e|transport] ->]; [apply quiet_refl|].
  pose proof (on_ext_quiet (Client_connect transport) w) as Hq.
  by destruct (on_ext (Client_connect transport) w) as [[e|c] w'].
Qed.

Lemma connectToServer_quiet serverName config (w : World St) :
  MCP_DEBUG w = false -> quiet w (snd (connectToServer' serverName config w)).
Proof. apply withRetry_quiet, connect_attempt_quiet. Qed.

Lemma listTools_quiet (c : Client) (w : World St) :
  MCP_DEBUG w = false -> quiet w (snd (listTools' c w)).
Proof.
  apply withRetry_quiet. intros w0. unfold bind.
  pose proof (on_ext_quiet (Client_listTools c) w0) as Hq.
  by destruct (on_ext (Client_listTools c) w0) as [[e|tools] w'].
Qed.

Lemma session_quiet config serverName (w : World St) :
  MCP_DEBUG w = false -> quiet w (snd (session' config serverName w)).
Proof.
  intros Hd. unfold session.
  destruct (getServerConfig _ _ _) as [e|serverConfig]; [apply quiet_refl|].
  pose proof (connectToServer_quiet serverName serverConfig w Hd) as H1.
  destruct (connectToServer' serverName serverConfig w)
    as [[e|connection] w1] eqn:Hc; [exact H1|]. simpl in H1.
  assert (Hd1 : MCP_DEBUG w1 = false) by by rewrite (quiet_MCP_DEBUG w w1).
  pose proof (listTools_quiet (client connection) w1 Hd1) as H2.
  assert (Hclose : forall w2, quiet w2 (snd (close connection w2))).
  { intros w2. unfold connectToServer, withRetry in Hc.
    clear -Hc. revert Hc.
    generalize (Z.to_nat (maxRetries DEFAULT_RETRY_CONFIG + 1)) 0%Z
               (@None Error) w.
    induction n as [|k IH]; intros attempt lastError w0; [done|].
    simpl. unfold try_catch.
    destruct (connect_attempt _ _ _ _ w0) as [[e|c] w'] eqn:Ha.
    - destruct (_ && _); [|done]. unfold bind at 1.
      rewrite backoff_returns. apply IH.
    - intros [= <- _]. revert Ha. unfold connect_attempt, bind.
      destruct (buildTransport _ _ _) as [[?|transport] ?]; [done|].
      destruct (on_ext _ _) as [[?|c0] ?]; [done|].
      intros [= <- _]. apply on_ext_quiet. }
  destruct (listTools' (client connection) w1) as [[e|tools] w2];
    simpl in H2; specialize (Hclose w2);
    destruct (close connection w2) as [closed w3]; simpl in Hclose;
    eauto using quiet_trans.
Qed.

Lemma sessions_quiet config serverNames (w : World St) :
  MCP_DEBUG w = false -> quiet w (snd (sessions' config serverNames w)).
Proof.
  revert w. induction serverNames as [|serverName rest IH]; intros w Hd.
  - apply quiet_refl.
  - simpl. pose proof (session_quiet config serverName w Hd) as H1.
    destruct (session' config serverName w) as [outcome w1]. simpl in H1.
    assert (Hd1 : MCP_DEBUG w1 = false) by by rewrite (quiet_MCP_DEBUG w w1).
    specialize (IH w1 Hd1).
    destruct (sessions' config rest w1) as [outcomes w2].
    eauto using quiet_trans.
Qed.

Lemma sessions_names config serverNames (w : World St) :
  map fst (fst (sessions' config serverNames w)) = serverNames.
Proof.
  revert w. induction serverNames as [|serverName rest IH]; intros w.
  - reflexivity.
  - simpl. destruct (session' config serverName w) as [outcome w1].
    specialize (IH w1). destruct (sessions' config rest w1). simpl in *.
    by rewrite IH.
Qed.

Lemma connectToServer_throws_error serverName config (w w' : World St) :
  connectToServer' serverName config w <> (inl None, w').
Proof.
  intros H.
  apply (withRetry_throws_error
           (connect_attempt new_URL Client_connect Client_close config)
           ("connect to " +:+ serverName) w).
  unfold connectToServer in H. by rewrite H.
Qed.

Lemma listTools_throws_error (c : Client) (w w' : World St) :
  listTools' c w <> (inl None, w').
Proof.
  intros H. unfold listTools in H.
  eapply withRetry_throws_error. by rewrite H.
Qed.

Lemma session_throws_errors config serverName (w : World St) :
  throws_errors (fst (session' config serverName w)) = true.
Proof.
  unfold session.
  destruct (getServerConfig _ _ _) as [e|serverConfig]; [done|].
  destruct (connectToServer' serverName serverConfig w)
    as [[[e|]|connection] w1] eqn:Hc; [done| |].
  { by apply connectToServer_throws_error in Hc. }
  destruct (listTools' (client connection) w1) as [[[e|]|tools] w2] eqn:Hl;
    destruct (close connection w2) as [closed w3]; try done.
  by apply listTools_throws_error in Hl.
Qed.

(** One turn of the loop of [listCommand] is one session, recorded. *)
Lemma listCommand_visit_session config serverName servers (w : World St) :
  listCommand_visit new_URL Client_connect Client_listTools Client_close
                    serverNotFound config serverName (servers, w)
  = (inr tt, ((servers ++ list_entries serverName
                            (fst (session' config serverName w)))%list,
              snd (session' config serverName w))).
Proof.
  unfold listCommand_visit, session, try_catch, bind, in_world, try_finally.
  destruct (getServerConfig _ _ _) as [e|serverConfig]; [reflexivity|].
  destruct (connectToServer' serverName serverConfig w)
    as [[[e|]|connection] w1] eqn:Hc; [reflexivity| |].
  { by apply connectToServer_throws_error in Hc. }
  destruct (listTools' (client connection) w1)
    as [[[e|]|tools] w2] eqn:Hl.
  - by destruct (close connection w2) as [[e'|[]] w3].
  - by apply listTools_throws_error in Hl.
  - simpl. destruct (close connection w2) as [[e'|[]] w3]; simpl;
      [|reflexivity].
    by rewrite <- app_assoc.
Qed.

Lemma listCommand_loop_sessions config serverNames servers (w : World St) :
  for_of serverNames
         (listCommand_visit new_URL Client_connect Client_listTools
                            Client_close serverNotFound config) (servers, w)
  = (inr tt,
     ((servers ++ flat_map (fun '(serverName, outcome) =>
                              list_entries serverName outcome)
                           (fst (sessions' config serverNames w)))%list,
      snd (sessions' config serverNames w))).
Proof.
  revert servers w.
  induction serverNames as [|serverName rest IH]; intros servers w.
  - simpl. by rewrite app_nil_r.
  - simpl. unfold bind. rewrite listCommand_visit_session, IH.
    destruct (session' config serverName w) as [outcome w1]. simpl.
    destruct (sessions' config rest w1) as [outcomes w2]. simpl.
    by rewrite <- app_assoc.
Qed.

(** The servers array of [listCommand], session by session. *)
Lemma listCommand_servers_sessions config (w : World St) :
  listCommand_servers new_URL Client_connect Client_listTools Client_close
                      serverNotFound config w
  = (inr (flat_map (fun '(serverName, outcome) =>
                      list_entries serverName outcome)
                   (fst (sessions' config (listServerNames config) w))),
     snd (sessions' config (listServerNames config) w)).
Proof.
  unfold listCommand_servers. by rewrite listCommand_loop_sessions.
Qed.

(** X1. When every session that listed its tools also closed, the servers
    array has one entry per configured server, in the order of the
    configuration: the tools of a server that listed them, an error entry
    for a server that is unknown, unreachable or failed to list. *)
Theorem listCommand_one_entry_per_server config (w : World St) :
  Forall (fun '(_, outcome) => closes_cleanly outcome = true)
         (fst (sessions' config (listServerNames config) w)) ->
  exists servers w',
    listCommand_servers new_URL Client_connect Client_listTools Client_close
                        serverNotFound config w = (inr servers, w')
    /\ map ServerWithTools.name servers = listServerNames config
    /\ Forall2 (fun '(serverName, outcome) entry =>
                  match outcome with
                  | Listed tools _ =>
                      entry = {| ServerWithTools.name := serverName;
                                 ServerWithTools.tools := tools |}
                  | _ => exists text, entry = error_entry serverName text
                  end)
               (fst (sessions' config (listServerNames config) w)) servers.
Proof.
  intros Hclean. eexists _, _. split; [apply listCommand_servers_sessions|].
  rewrite <- (sessions_names config (listServerNames config) w) at 2.
  assert (Hdefined : Forall (fun '(serverName, outcome) =>
                               throws_errors outcome = true)
                       (fst (sessions' config (listServerNames config) w))).
  { generalize (listServerNames config) as serverNames. clear Hclean.
    intros serverNames. revert w.
    induction serverNames as [|serverName rest IH]; intros w; [constructor|].
    simpl. pose proof (session_throws_errors config serverName w) as Hs.
    destruct (session' config serverName w) as [outcome w1].
    specialize (IH w1). destruct (sessions' config rest w1) as [outs w2].
    by constructor. }
  revert Hclean Hdefined.
  generalize (fst (sessions' config (listServerNames config) w)) as outcomes.
  induction outcomes as [|[serverName outcome] outcomes IH];
    intros Hclean Hdefined; [by split; [|constructor]|].
  apply Forall_cons in Hclean as [Hc Hclean].
  apply Forall_cons in Hdefined as [Hd Hdefined].
  destruct (IH Hclean Hdefined) as [Hnames Hentries].
  assert (Hone : exists entry,
    list_entries serverName outcome = [entry]
    /\ ServerWithTools.name entry = serverName
    /\ match outcome with
       | Listed tools _ =>
           entry = {| ServerWithTools.name := serverName;
                      ServerWithTools.tools := tools |}
       | _ => exists text, entry = error_entry serverName text
       end).
  { destruct outcome as [e|[e|]|[e|] [e'|[]]|tools [e'|[]]];
      try discriminate; simpl; eauto 6. }
  destruct Hone as (entry & Hentry & Hname & Hshape).
  simpl. rewrite Hentry. simpl. split.
  - by rewrite Hname, Hnames.
  - by constructor.
Qed.

(** C7. [getTool] is one [listTools] and a search of its result: it returns
    the first tool of the list whose name is the requested one, and
    [undefined] exactly when no tool of the list has that name; it throws
    what [listTools] throws; and it leaves the world as [listTools] left it,
    which after a discovery that succeeds at once is the world after that one
    round trip. *)
Theorem getTool_searches_listTools (c : Client) (toolName : string)
    (w : World St) :
  getTool Client_listTools c toolName w
  = match listTools' c w with
    | (inr tools, w') =>
        (inr (find (fun t => String.eqb (ToolInfo.name t) toolName) tools), w')
    | (inl e, w') => (inl e, w')
    end
  /\ (forall tools w', listTools' c w = (inr tools, w') ->
        (forall t, fst (getTool Client_listTools c toolName w) = inr (Some t) ->
                   In t tools /\ ToolInfo.name t = toolName)
        /\ (fst (getTool Client_listTools c toolName w) = inr None <->
            forall t, In t tools -> ToolInfo.name t <> toolName)
        /\ ((exists t, In t tools /\ ToolInfo.name t = toolName) ->
            exists t, fst (getTool Client_listTools c toolName w)
                      = inr (Some t)))
  /\ (forall reported s', Client_listTools c (ext w) = (inr reported, s') ->
        exists tools,
          listTools' c w = (inr tools, set_ext s' w)
          /\ map ToolInfo.name tools = map Tool.name reported
          /\ getTool Client_listTools c toolName w
             = (inr (find (fun t => String.eqb (ToolInfo.name t) toolName)
                          tools), set_ext s' w)).
Proof.
  assert (Hrun : getTool Client_listTools c toolName w
    = match listTools' c w with
      | (inr tools, w') =>
          (inr (find (fun t => String.eqb (ToolInfo.name t) toolName) tools),
           w')
      | (inl e, w') => (inl e, w')
      end).
  { unfold getTool, bind. by destruct (listTools' c w) as [[e|tools] w']. }
  split; [exact Hrun|]. split.
  - intros tools w' Hlist. rewrite Hrun, Hlist. simpl.
    split; [|split; [split|]].
    + intros t [= Hfind]. apply find_some in Hfind as [Hin Heq].
      split; [exact Hin | by apply String.eqb_eq].
    + intros [= Hnone] t Hin Hname.
      pose proof (find_none _ _ Hnone t Hin) as Hne. simpl in Hne.
      apply String.eqb_neq in Hne. done.
    + intros Hall.
      destruct (find _ tools) as [t|] eqn:Hfind; [|done].
      apply find_some in Hfind as [Hin Heq]. apply String.eqb_eq in Heq.
      by destruct (Hall t Hin).
    + intros (t & Hin & Hname).
      destruct (find _ tools) as [t'|] eqn:Hfind; [by exists t'|].
      pose proof (find_none _ _ Hfind t Hin) as Hne. simpl in Hne.
      apply String.eqb_neq in Hne. done.
  - intros reported s' Hwire.
    assert (Hlist : exists tools,
      listTools' c w = (inr tools, set_ext s' w)
      /\ map ToolInfo.name tools = map Tool.name reported).
    { eexists. split.
      - unfold listTools, withRetry.
        apply withRetry_loop_success. unfold bind, on_ext.
        rewrite Hwire. reflexivity.
      - by rewrite map_map. }
    destruct Hlist as (tools & Hlist & Hnames). exists tools.
    split; [exact Hlist|]. split; [exact Hnames|]. by rewrite Hrun, Hlist.
Qed.

Lemma grep_push_loop {S' E} (pattern : string -> bool) serverName
    (tools : list ToolInfo.t) (results : list SearchResult.t) (s : S') :
  for_of (E := E) tools (fun tool =>
    if grep_matches pattern serverName tool
    then push {| SearchResult.server := serverName;
                 SearchResult.tool := tool |}
    else ret tt) (results, s)
  = (inr tt,
     ((results ++ map (fun tool => {| SearchResult.server := serverName;
                                      SearchResult.tool := tool |})
                      (List.filter (grep_matches pattern serverName) tools))
      %list, s)).
Proof.
  revert results. induction tools as [|tool tools IH]; intros results.
  - simpl. by rewrite app_nil_r.
  - simpl. unfold bind at 1.
    destruct (grep_matches pattern serverName tool); simpl.
    + rewrite IH. by rewrite <- app_assoc.
    + apply IH.
Qed.

Local Abbreviation grep_session' :=
  (grep_session new_URL Client_connect Client_listTools Client_close
                serverNotFound).
Local Abbreviation grep_sessions' :=
  (grep_sessions new_URL Client_connect Client_listTools Client_close
                 serverNotFound).

(** One turn of the loop of [grepCommand] is one session, of which the
    matching tools are recorded. *)
Lemma grepCommand_visit_session pattern config serverName results
    (w : World St) :
  grepCommand_visit new_URL Client_connect Client_listTools Client_close
                    serverNotFound pattern config serverName (results, w)
  = (inr tt, ((results ++ grep_entries pattern serverName
                            (fst (grep_session' config serverName w)))%list,
              snd (grep_session' config serverName w))).
Proof.
  pose proof (session_throws_errors config serverName w) as Hdefined.
  revert Hdefined.
  unfold grepCommand_visit, grep_session, session, try_catch, bind, in_world,
    try_finally.
  destruct (getServerConfig _ _ _) as [e|serverConfig].
  { intros _. simpl. destruct (MCP_DEBUG w); simpl; by rewrite app_nil_r. }
  destruct (connectToServer' serverName serverConfig w)
    as [[[e|]|connection] w1] eqn:Hc; [|done|].
  { intros _. simpl. destruct (MCP_DEBUG w1); simpl; by rewrite app_nil_r. }
  destruct (listTools' (client connection) w1) as [[[e|]|tools] w2] eqn:Hl.
  - intros _.
    destruct (close connection w2) as [[e'|[]] w3]; simpl;
      destruct (MCP_DEBUG w3); simpl; by rewrite app_nil_r.
  - destruct (close connection w2) as [[e'|[]] w3]; simpl; [|done].
    intros _. destruct (MCP_DEBUG w3); simpl; by rewrite app_nil_r.
  - intros _. rewrite grep_push_loop.
    destruct (close connection w2) as [[e'|[]] w3]; simpl; [|done].
    by destruct (MCP_DEBUG w3).
Qed.

Lemma grepCommand_loop_sessions pattern config serverNames results
    (w : World St) :
  for_of serverNames
         (grepCommand_visit new_URL Client_connect Client_listTools
                            Client_close serverNotFound pattern config)
         (results, w)
  = (inr tt,
     ((results ++ flat_map (fun '(serverName, outcome) =>
                              grep_entries pattern serverName outcome)
                           (fst (grep_sessions' config serverNames w)))%list,
      snd (grep_sessions' config serverNames w))).
Proof.
  revert results w.
  induction serverNames as [|serverName rest IH]; intros results w.
  - simpl. by rewrite app_nil_r.
  - simpl. unfold bind. rewrite grepCommand_visit_session, IH.
    destruct (grep_session' config serverName w) as [outcome w1]. simpl.
    destruct (grep_sessions' config rest w1) as [outcomes w2]. simpl.
    by rewrite <- app_assoc.
Qed.

Lemma grep_session_quiet config serverName (w : World St) :
  MCP_DEBUG w = false -> quiet w (snd (grep_session' config serverName w)).
Proof.
  intros Hd. pose proof (session_quiet config serverName w Hd) as Hq.
  unfold grep_session.
  destruct (session' config serverName w) as [outcome w1]. simpl in *.
  rewrite (quiet_MCP_DEBUG w w1 Hq), Hd.
  by destruct (thrown_to_catch outcome) as [[e|]|].
Qed.

Lemma grep_sessions_quiet config serverNames (w : World St) :
  MCP_DEBUG w = false -> quiet w (snd (grep_sessions' config serverNames w)).
Proof.
  revert w. induction serverNames as [|serverName rest IH]; intros w Hd.
  - apply quiet_refl.
  - simpl. pose proof (grep_session_quiet config serverName w Hd) as H1.
    destruct (grep_session' config serverName w) as [outcome w1]. simpl in H1.
    assert (Hd1 : MCP_DEBUG w1 = false) by by rewrite (quiet_MCP_DEBUG w w1).
    specialize (IH w1 Hd1).
    destruct (grep_sessions' config rest w1) as [outcomes w2].
    eauto using quiet_trans.
Qed.

Lemma grep_sessions_names config serverNames (w : World St) :
  map fst (fst (grep_sessions' config serverNames w)) = serverNames.
Proof.
  revert w. induction serverNames as [|serverName rest IH]; intros w.
  - reflexivity.
  - simpl. destruct (grep_session' config serverName w) as [outcome w1].
    specialize (IH w1). destruct (grep_sessions' config rest w1). simpl in *.
    by rewrite IH.
Qed.

(** C10. [grepCommand] holds one session per configured server, in the order
    of the configuration, and does not throw. Its results are the matching
    tools of the servers that listed their tools, in that order, and nothing
    at all for a server that is unknown, cannot be connected to or fails to
    list. With the debug toggle unset, nothing is written to the
    diagnostics. *)
Theorem grepCommand_omits_failed_servers (pattern : string)
    (config : McpServersConfig) (w : World St) :
  exists outcomes w',
    grep_sessions' config (listServerNames config) w = (outcomes, w')
    /\ map fst outcomes = listServerNames config
    /\ grepCommand_results new_URL Client_connect Client_listTools Client_close
                           serverNotFound pattern config w
       = (inr (flat_map
                 (fun '(serverName, outcome) =>
                    match outcome with
                    | Listed tools _ =>
                        map (fun tool =>
                               {| SearchResult.server := serverName;
                                  SearchResult.tool := tool |})
                            (List.filter
                               (grep_matches (globToRegex pattern) serverName)
                               tools)
                    | NotConfigured _ | ConnectFailed _ | ListFailed _ _ => []
                    end) outcomes), w')
    /\ (MCP_DEBUG w = false -> stderr w' = stderr w).
Proof.
  exists (fst (grep_sessions' config (listServerNames config) w)),
         (snd (grep_sessions' config (listServerNames config) w)).
  split; [by destruct (grep_sessions' _ _ _)|].
  split; [apply grep_sessions_names|]. split.
  - unfold grepCommand_results.
    rewrite grepCommand_loop_sessions. simpl. do 2 f_equal.
  - intros Hd.
    by destruct (grep_sessions_quiet config (listServerNames config) w Hd).
Qed.

End Enumeration.

Lemma listCommand_one_entry_per_server_witness :
  exists servers w',
    listCommand_servers sample_new_URL sample_connect sample_listTools
                        sample_close sample_serverNotFound three_servers
                        (world_drawing (1 # 2)) = (inr servers, w')
    /\ map ServerWithTools.name servers = ["alpha"; "beta"; "gamma"].
Proof.
  destruct (listCommand_one_entry_per_server sample_new_URL sample_connect
              sample_listTools sample_close sample_serverNotFound
              three_servers (world_drawing (1 # 2)))
    as (servers & w' & Hrun & Hnames & _).
  - vm_compute. repeat constructor.
  - by exists servers, w'.
Defined.

(** Three servers of which the second cannot be reached. *)
Example listCommand_three_servers :
  fst (listCommand_servers sample_new_URL sample_connect sample_listTools
                           sample_close sample_serverNotFound three_servers
                           (world_drawing (1 # 2)))
  = inr [ {| ServerWithTools.name := "alpha";
             ServerWithTools.tools :=
               [ {| ToolInfo.name := "ping_node";
                    ToolInfo.description := Some "Ping";
                    ToolInfo.inputSchema := JObject [] |} ] |};
          error_entry "beta" "spawn missing ENOENT";
          {| ServerWithTools.name := "gamma";
             ServerWithTools.tools :=
               [ {| ToolInfo.name := "ping_https://mcp.example.com";
                    ToolInfo.description := Some "Ping";
                    ToolInfo.inputSchema := JObject [] |} ] |} ].
Proof. vm_compute. reflexivity. Qed.

Example grepCommand_three_servers :
  map SearchResult.server
      (match fst (grepCommand_results sample_new_URL sample_connect
                    sample_listTools sample_close sample_serverNotFound
                    "PING_*" three_servers (world_drawing (1 # 2))) with
       | inr results => results
       | inl _ => []
       end)
  = ["alpha"; "gamma"].
Proof. vm_compute. reflexivity. Qed.

Example globToRegex_examples :
  globToRegex "*file*" "read_FILE" = true
  /\ globToRegex "file" "read_file" = false
  /\ globToRegex "a.b" "axb" = false
  /\ globToRegex "server/t??l" "server/tool" = true.
Proof. repeat split. Qed.

(** C3, where the code departs from it. A server that lists its tools and
    then fails to close is recorded twice, once with its tools and once with
    the error of the close. *)
Theorem listCommand_records_sticky_server_twice :
  listServerNames one_sticky_server = ["alpha"]
  /\ listCommand_servers sample_new_URL sample_connect sample_listTools
                         sample_close sample_serverNotFound one_sticky_server
                         (world_drawing (1 # 2))
     = (inr [ {| ServerWithTools.name := "alpha";
                 ServerWithTools.tools :=
                   [ {| ToolInfo.name := "ping_sticky";
                        ToolInfo.description := Some "Ping";
                        ToolInfo.inputSchema := JObject [] |} ] |};
              error_entry "alpha" "close failed" ],
        world_drawing (1 # 2))
  /\ map ServerWithTools.name
         [ {| ServerWithTools.name := "alpha";
              ServerWithTools.tools :=
                [ {| ToolInfo.name := "ping_sticky";
                     ToolInfo.description := Some "Ping";
                     ToolInfo.inputSchema := JObject [] |} ] |};
           error_entry "alpha" "close failed" ]
     = ["alpha"; "alpha"].
Proof.
  split; [reflexivity|]. split; [|reflexivity].
  rewrite listCommand_servers_sessions. vm_compute. reflexivity.
Qed.

(** ** More on the retry executor *)

(** Where the outcome of the loop comes from: a returned value and a thrown
    error are those of an execution of the operation, in the world that
    execution left; [lastError] is thrown untouched only when no turn is
    left. *)
Lemma withRetry_loop_origin {St T} (fn : M (World St) Error T)
    name config iterations attempt lastError (w : World St) :
  (attempt + Z.of_nat iterations = maxRetries config + 1)%Z ->
  match withRetry_loop fn name config iterations attempt lastError w with
  | (inr v, w') => exists w1, fn w1 = (inr v, w')
  | (inl thrown, w') =>
      (exists e w1, thrown = Some e /\ fn w1 = (inl e, w'))
      \/ (iterations = 0%nat /\ thrown = lastError /\ w' = w)
  end.
Proof.
  revert attempt lastError w.
  induction iterations as [|k IH]; intros attempt lastError w Hturns.
  - simpl. by right.
  - simpl. unfold try_catch. destruct (fn w) as [[e|v] w1] eqn:Hrun.
    + destruct (attempt <? maxRetries config)%Z eqn:Hlt; simpl;
        [|left; by exists e, w].
      destruct (isTransientError e); [|left; by exists e, w].
      apply Z.ltb_lt in Hlt.
      unfold bind at 1. rewrite backoff_returns.
      specialize (IH (attempt + 1)%Z (Some e)
        (snd (backoff (E := option Error) name config attempt e w1))).
      destruct (withRetry_loop _ _ _ k _ _ _) as [[thrown|v] w'].
      * destruct IH as [IH|(-> & _)]; [lia|by left|lia].
      * apply IH. lia.
    + by exists w.
Qed.







(** ** More on the configuration table and the two enumerations *)

Lemma get_property_In {V} (obj : list (string * V)) (key : string) (v : V) :
  get_property obj key = Some v -> In (key, v) obj.
Proof.
  induction obj as [|[k x] obj IH]; simpl; [done|].
  destruct (String.eqb_spec k key) as [->|Hne].
  - intros [= ->]. by left.
  - intros H. right. by apply IH.
Qed.


Section MoreEnumeration.

Context {St Client : Type}.
Variable new_URL : string -> Error + URL.
Variable Client_connect : Transport -> M St Error Client.
Variable Client_listTools : Client -> M St Error (list Tool.t).
Variable Client_callTool : Client -> string -> JSON -> M St Error JSON.
Variable Client_close : Client -> M St Error unit.
Variable serverNotFound : string -> list string -> string.

Local Abbreviation sessions2 :=
  (sessions new_URL Client_connect Client_listTools Client_close serverNotFound).
Local Abbreviation grep_sessions2 :=
  (grep_sessions new_URL Client_connect Client_listTools Client_close
                 serverNotFound).


(** X7. [listCommand] never aborts: whatever the servers do, it comes to an
    end with a servers array that holds, for each configured server in the
    order of the configuration, one entry or two in a row under the name of
    that server. *)
Theorem listCommand_never_aborts (config : McpServersConfig) (w : World St) :
  exists (groups : list (list ServerWithTools.t)) (w' : World St),
    listCommand_servers new_URL Client_connect Client_listTools Client_close
                        serverNotFound config w = (inr (concat groups), w')
    /\ Forall2 (fun serverName group =>
                  (length group = 1%nat \/ length group = 2%nat)
                  /\ Forall (fun entry =>
                               ServerWithTools.name entry = serverName) group)
               (listServerNames config) groups.
Proof.
  exists (map (fun '(serverName, outcome) => list_entries serverName outcome)
              (fst (sessions2 config (listServerNames config) w))),
         (snd (sessions2 config (listServerNames config) w)).
  split.
  - rewrite listCommand_servers_sessions. by rewrite flat_map_concat_map.
  - generalize (listServerNames config) as serverNames. intros serverNames.
    revert w. induction serverNames as [|serverName rest IH]; intros w;
      [constructor|].
    simpl.
    pose proof (session_throws_errors new_URL Client_connect Client_listTools
                  Client_close serverNotFound config serverName w) as Hs.
    destruct (session _ _ _ _ _ config serverName w) as [outcome w1].
    specialize (IH w1). destruct (sessions2 config rest w1) as [outs w2].
    simpl in *. constructor; [|exact IH].
    destruct outcome as [e|[e|]|[e|] [e'|[]]|tools [e'|[]]];
      try discriminate; simpl; split; auto; by repeat constructor.
Qed.

(** X8. Every result of [grepCommand] is a tool that passes the test of the
    pattern, under the name of a configured server. *)
Theorem grepCommand_results_match (pattern : string)
    (config : McpServersConfig) (w : World St) :
  exists results w',
    grepCommand_results new_URL Client_connect Client_listTools Client_close
                        serverNotFound pattern config w = (inr results, w')
    /\ Forall (fun result =>
                 In (SearchResult.server result) (listServerNames config)
                 /\ grep_matches (globToRegex pattern)
                                 (SearchResult.server result)
                                 (SearchResult.tool result) = true)
              results.
Proof.
  eexists _, _. split.
  - unfold grepCommand_results. rewrite grepCommand_loop_sessions.
    reflexivity.
  - simpl.
    assert (Hall : forall outcomes : list (string * Outcome),
      Forall (fun result =>
                In (SearchResult.server result) (map fst outcomes)
                /\ grep_matches (globToRegex pattern)
                                (SearchResult.server result)
                                (SearchResult.tool result) = true)
             (flat_map (fun '(serverName, outcome) =>
                          grep_entries (globToRegex pattern) serverName outcome)
                       outcomes)).
    { intros outcomes. apply List.Forall_forall. intros result Hin.
      apply List.in_flat_map in Hin as ([serverName outcome] & Hout & Hin).
      destruct outcome as [| | |tools closed]; simpl in Hin; try done.
      apply List.in_map_iff in Hin as (tool & <- & Htool).
      apply List.filter_In in Htool as [_ Hmatch]. simpl. split; [|done].
      apply List.in_map_iff. by exists (serverName, Listed tools closed). }
    specialize (Hall (fst (grep_sessions2 config (listServerNames config) w))).
    by rewrite grep_sessions_names in Hall.
Qed.

Lemma withRetry_default_origin {T} (fn : M (World St) Error T) name
    (w : World St) :
  match withRetry fn name DEFAULT_RETRY_CONFIG w with
  | (inr v, w') => exists w1, fn w1 = (inr v, w')
  | (inl (Some e), w') => exists w1, fn w1 = (inl e, w')
  | (inl None, _) => False
  end.
Proof.
  unfold withRetry.
  pose proof (withRetry_loop_origin fn name DEFAULT_RETRY_CONFIG
                (Z.to_nat (maxRetries DEFAULT_RETRY_CONFIG + 1)) 0 None w
                eq_refl) as Ho.
  destruct (withRetry_loop _ _ _ _ _ _ _) as [[[e|]|v] w']; [| |exact Ho].
  - destruct Ho as [(e' & w1 & [= <-] & Hrun)|(Hz & _)]; [by exists w1|done].
  - destruct Ho as [(e' & w1 & [=] & _)|(Hz & _)]; done.
Qed.

Lemma on_ext_run {E A} (op : M St E A) (w w' : World St) (r : E + A) :
  on_ext op w = (r, w') -> op (ext w) = (r, ext w').
Proof. unfold on_ext. destruct (op (ext w)) as [r0 s']. by intros [= <- <-]. Qed.

(** X9. A url the parser refuses with an error the classifier calls fatal
    makes [connectToServer] throw that error at once: the library is not
    called, nothing is waited for, the world is as it was. *)
Theorem connectToServer_refuses_bad_url (serverName : string)
    (config : ServerConfig) (address : string) (e : Error) (w : World St) :
  url config = Some address ->
  new_URL address = inl e ->
  isTransientError e = false ->
  connectToServer new_URL Client_connect Client_close serverName config w
  = (inl (Some e), w).
Proof.
  intros Hurl Hparse Hfatal. unfold connectToServer, withRetry.
  change (Z.to_nat (maxRetries DEFAULT_RETRY_CONFIG + 1)) with 4%nat.
  apply withRetry_loop_give_up; [|by rewrite Hfatal, andb_false_r].
  unfold connect_attempt, buildTransport, isHttpServer, createHttpTransport,
    bind.
  rewrite Hurl. simpl. by rewrite Hparse.
Qed.

(** X10. A connection [connectToServer] returns holds a client the library
    connected through the transport built from the descriptor, and closing
    it is the library's close of that client; an error it throws is one the
    URL parser or the library's connect threw. *)
Theorem connectToServer_outcome (serverName : string)
    (config : ServerConfig) (w : World St) :
  match connectToServer new_URL Client_connect Client_close
                        serverName config w with
  | (inr connection, w') =>
      exists transport w1,
        buildTransport new_URL config w1 = (inr transport, w1)
        /\ Client_connect transport (ext w1) = (inr (client connection), ext w')
        /\ close connection = on_ext (Client_close (client connection))
  | (inl (Some e), w') =>
      new_URL (default "undefined" (url config)) = inl e
      \/ exists transport s, Client_connect transport s = (inl e, ext w')
  | (inl None, _) => False
  end.
Proof.
  unfold connectToServer.
  pose proof (withRetry_default_origin
                (connect_attempt new_URL Client_connect Client_close config)
                ("connect to " +:+ serverName) w) as Ho.
  destruct (withRetry _ _ _ _) as [[[e|]|connection] w']; [| done |];
    destruct Ho as [w1 Hrun]; revert Hrun;
    unfold connect_attempt, bind;
    assert (Hb : (exists e0, buildTransport new_URL config w1 = (inl e0, w1)
                    /\ new_URL (default "undefined" (url config)) = inl e0)
                 \/ exists t, buildTransport new_URL config w1 = (inr t, w1)).
  1, 3: unfold buildTransport, createHttpTransport, createStdioTransport;
        destruct (isHttpServer config); [|right; by eexists];
        destruct (new_URL _) as [e0|parsed]; [left|right]; by eexists.
  - destruct Hb as [(e0 & -> & Hparse)|(t & ->)].
    + intros [= -> _]. by left.
    + destruct (on_ext (Client_connect t) w1) as [[e0|c] w2] eqn:Hc; [|done].
      intros [= -> ->]. right. exists t, (ext w1). by apply on_ext_run.
  - destruct Hb as [(e0 & -> & Hparse)|(t & Ht)]; [done|]. rewrite Ht.
    destruct (on_ext (Client_connect t) w1) as [[e0|c] w2] eqn:Hc; [done|].
    intros [= <- <-]. exists t, w1. split; [done|].
    split; [by apply on_ext_run|done].
Qed.

(** X11. The list [listTools] returns is a list the library reported, tool by
    tool in the same order, with the name, the description and the input
    schema of each; an error it throws is one the library threw. *)
Theorem listTools_outcome (c : Client) (w : World St) :
  match listTools Client_listTools c w with
  | (inr tools, w') =>
      exists reported s,
        Client_listTools c s = (inr reported, ext w')
        /\ Forall2 (fun (tool : ToolInfo.t) (from : Tool.t) =>
                      ToolInfo.name tool = Tool.name from
                      /\ ToolInfo.description tool = Tool.description from
                      /\ ToolInfo.inputSchema tool = Tool.inputSchema from)
                   tools reported
  | (inl (Some e), w') => exists s, Client_listTools c s = (inl e, ext w')
  | (inl None, _) => False
  end.
Proof.
  unfold listTools.
  match goal with |- context [withRetry ?fn ?n _ _] =>
    pose proof (withRetry_default_origin fn n w) as Ho end.
  destruct (withRetry _ _ _ _) as [[[e|]|tools] w']; [| done |];
    destruct Ho as [w1 Hrun]; revert Hrun; unfold bind;
    destruct (on_ext (Client_listTools c) w1) as [[e0|reported] w2] eqn:Hc;
    try done; intros [= <- <-]; apply on_ext_run in Hc.
  - by exists (ext w1).
  - exists reported, (ext w1). split; [done|].
    clear. induction reported; simpl; by constructor.
Qed.

(** X12. [callTool] hands the tool name and the arguments to the library as
    they are, and returns what the library returned or throws what it
    threw. *)
Theorem callTool_outcome (c : Client) (toolName : string) (args : JSON)
    (w : World St) :
  match callTool Client_callTool c toolName args w with
  | (inr result, w') =>
      exists s, Client_callTool c toolName args s = (inr result, ext w')
  | (inl (Some e), w') =>
      exists s, Client_callTool c toolName args s = (inl e, ext w')
  | (inl None, _) => False
  end.
Proof.
  unfold callTool.
  match goal with |- context [withRetry ?fn ?n _ _] =>
    pose proof (withRetry_default_origin fn n w) as Ho end.
  destruct (withRetry _ _ _ _) as [[[e|]|result] w']; [| done |];
    destruct Ho as [w1 Hrun]; apply on_ext_run in Hrun; by exists (ext w1).
Qed.

End MoreEnumeration.

Lemma connectToServer_refuses_bad_url_witness :
  connectToServer sample_new_URL sample_connect sample_close "beta"
                  (http_server "mcp.example.com") (world_drawing (1 # 2))
  = (inl (Some (mkError "TypeError" "Invalid URL")), world_drawing (1 # 2)).
Proof.
  apply (connectToServer_refuses_bad_url sample_new_URL sample_connect
           sample_close "beta" (http_server "mcp.example.com")
           "mcp.example.com"); reflexivity.
Defined.

(** ** Targets of the info command *)

Local Arguments String.append !_ _ / : simpl nomatch.
Local Arguments Ascii.eqb : simpl never.

Lemma includes_char_cons (sep c : ascii) (s : string) :
  includes (String c s) (String sep EmptyString)
  = Ascii.eqb sep c || includes s (String sep EmptyString).
Proof. simpl. by destruct (Ascii.eqb sep c). Qed.

(** Splitting cuts the text at every separator and at nothing else. *)
Lemma String_split_spec (sep : ascii) (s : string) :
  exists part parts,
    String_split sep s = part :: parts
    /\ includes part (String sep EmptyString) = false
    /\ Array_join (String sep EmptyString) (part :: parts) = s
    /\ (parts = [] <-> includes s (String sep EmptyString) = false).
Proof.
  induction s as [|c s IH].
  - exists EmptyString, []. by repeat split.
  - destruct IH as (part & parts & Hsplit & Hpart & Hjoin & Hone).
    simpl String_split. rewrite Hsplit, includes_char_cons.
    rewrite (Ascii.eqb_sym sep c).
    destruct (Ascii.eqb_spec c sep) as [->|Hne].
    + exists EmptyString, (part :: parts). repeat split; try done.
      unfold Array_join in *. simpl in *. by rewrite Hjoin.
    + exists (String c part), parts. split; [done|]. split.
      * rewrite includes_char_cons, Hpart.
        by destruct (Ascii.eqb_spec sep c) as [->|].
      * split; [|exact Hone].
        unfold Array_join in *.
        destruct parts; simpl in *; by rewrite <- Hjoin.
Qed.

(** X13. [parseTarget] cuts a target at its first slash: the server is the
    text before it and has no slash, the tool is all the text after it,
    further slashes included, and putting the two back around a slash gives
    the target. A target without a slash is a server and no tool. *)
Theorem parseTarget_cuts_at_first_slash (target : string) :
  includes (Target.server (parseTarget target)) "/" = false
  /\ match Target.tool (parseTarget target) with
     | Some tool =>
         target = Target.server (parseTarget target) +:+ "/" +:+ tool
     | None => target = Target.server (parseTarget target)
     end
  /\ (Target.tool (parseTarget target) = None <->
      includes target "/" = false).
Proof.
  unfold parseTarget.
  destruct (String_split_spec "/" target)
    as (part & parts & -> & Hpart & Hjoin & Hone).
  destruct parts as [|next parts]; simpl.
  - split; [done|]. split; [by rewrite <- Hjoin|]. split; [|done].
    intros _. by apply Hone.
  - split; [done|]. split; [by rewrite <- Hjoin|]. split; [done|].
    intros H. by apply Hone in H.
Qed.

(** ** Substitution of environment variables *)

Lemma until_brace_found (name rest : string) :
  includes name "}" = false ->
  until_brace (name +:+ String "}" rest) = Some (name, rest).
Proof.
  induction name as [|c name IH]; [done|].
  rewrite includes_char_cons. intros [Hc Hn]%orb_false_iff.
  specialize (IH Hn). simpl in IH |- *.
  rewrite Ascii.eqb_sym, Hc. by rewrite IH.
Qed.

Lemma until_brace_None (s : string) :
  includes s "}" = false -> until_brace s = None.
Proof.
  induction s as [|c s IH]; [done|].
  rewrite includes_char_cons. intros [Hc Hs]%orb_false_iff. simpl.
  rewrite Ascii.eqb_sym, Hc. by rewrite (IH Hs).
Qed.

Lemma until_brace_shorter (s name rest : string) :
  until_brace s = Some (name, rest) ->
  (String.length rest < String.length s)%nat.
Proof.
  revert name. induction s as [|c s IH]; intros name; simpl; [done|].
  destruct (Ascii.eqb c "}"); [intros [= _ <-]; lia|].
  destruct (until_brace s) as [[n r]|]; [|done].
  intros [= _ <-]. specialize (IH n eq_refl). lia.
Qed.

Lemma placeholder_at_shorter (s name rest : string) :
  placeholder_at s = Some (name, rest) ->
  (String.length rest < String.length s)%nat.
Proof.
  destruct s as [|d [|b after]]; simpl; try done.
  destruct (Ascii.eqb d "$" && Ascii.eqb b "{"); [|done].
  destruct (until_brace after) as [[[|n nm] r]|] eqn:Hu; try done.
  intros [= _ <-]. apply until_brace_shorter in Hu. lia.
Qed.

(** The length of the text is fuel enough. *)
Lemma substituteEnvVars_steps_enough (ambient : gmap string (option string))
    (fuel1 fuel2 : nat) (s : string) :
  (String.length s <= fuel1)%nat -> (String.length s <= fuel2)%nat ->
  substituteEnvVars_steps fuel1 ambient s
  = substituteEnvVars_steps fuel2 ambient s.
Proof.
  revert fuel2 s. induction fuel1 as [|fuel1 IH]; intros fuel2 s H1 H2.
  - destruct s; [|simpl in H1; lia]. by destruct fuel2.
  - destruct fuel2 as [|fuel2].
    + destruct s; [done|simpl in H2; lia].
    + simpl. destruct s as [|c rest]; [done|].
      destruct (placeholder_at (String c rest)) as [[name after]|] eqn:Hp.
      * apply placeholder_at_shorter in Hp. simpl in *.
        f_equal. apply IH; lia.
      * simpl in *. f_equal. apply IH; lia.
Qed.

Lemma substituteEnvVars_unfold (ambient : gmap string (option string))
    (c : ascii) (rest : string) :
  substituteEnvVars ambient (String c rest)
  = match placeholder_at (String c rest) with
    | Some (varName, after) =>
        env_or_empty ambient varName +:+ substituteEnvVars ambient after
    | None => String c (substituteEnvVars ambient rest)
    end.
Proof.
  unfold substituteEnvVars. simpl String.length.
  change (substituteEnvVars_steps (S (String.length rest)) ambient
            (String c rest))
    with (match placeholder_at (String c rest) with
          | Some (varName, after) =>
              env_or_empty ambient varName
              +:+ substituteEnvVars_steps (String.length rest) ambient after
          | None =>
              String c (substituteEnvVars_steps (String.length rest) ambient
                          rest)
          end).
  destruct (placeholder_at (String c rest)) as [[name after]|] eqn:Hp;
    [|done].
  apply placeholder_at_shorter in Hp. simpl in Hp.
  f_equal. apply substituteEnvVars_steps_enough; lia.
Qed.

Lemma placeholder_at_needs_opening (s : string) :
  startsWith s "${" = false -> placeholder_at s = None.
Proof.
  destruct s as [|d [|b after]]; simpl; try done.
  rewrite (Ascii.eqb_sym d), (Ascii.eqb_sym b).
  destruct (Ascii.eqb "$" d), (Ascii.eqb "{" b); simpl; done.
Qed.

Lemma placeholder_at_needs_closing (s : string) :
  includes s "}" = false -> placeholder_at s = None.
Proof.
  destruct s as [|d [|b after]]; simpl placeholder_at; try done.
  rewrite !includes_char_cons. intros [_ [_ H]%orb_false_iff]%orb_false_iff.
  rewrite (until_brace_None _ H). by destruct (_ && _).
Qed.

Lemma substituteEnvVars_without_opening
    (ambient : gmap string (option string)) (value : string) :
  includes value "${" = false -> substituteEnvVars ambient value = value.
Proof.
  induction value as [|c rest IH]; [done|]. intros H.
  rewrite substituteEnvVars_unfold.
  simpl in H. apply orb_false_iff in H as [Hstart Hrest].
  rewrite placeholder_at_needs_opening by exact Hstart.
  by rewrite IH.
Qed.

(** X14. A text in which no placeholder opens, or in which no brace closes,
    goes through [substituteEnvVars] unchanged. *)
Theorem substituteEnvVars_keeps_plain_text
    (ambient : gmap string (option string)) (value : string) :
  (includes value "${" = false -> substituteEnvVars ambient value = value)
  /\ (includes value "}" = false -> substituteEnvVars ambient value = value).
Proof.
  split; [apply substituteEnvVars_without_opening|].
  induction value as [|c rest IH]; [done|]. intros H.
  rewrite substituteEnvVars_unfold.
  rewrite placeholder_at_needs_closing by exact H.
  rewrite includes_char_cons in H. apply orb_false_iff in H as [_ Hrest].
  by rewrite IH.
Qed.

Lemma placeholder_at_found (name after : string) :
  name <> EmptyString -> includes name "}" = false ->
  placeholder_at ("${" +:+ name +:+ "}" +:+ after) = Some (name, after).
Proof.
  intros Hne Hn. simpl.
  rewrite until_brace_found by done.
  by destruct name.
Qed.

(** X15. The first placeholder of a text is replaced by the value of the
    variable it names, or by nothing when the variable is set to the empty
    string or to [undefined], or is not set and is not the name of a member
    of [Object.prototype] (the name of such a member is replaced by a text
    that is not empty); the text before it is kept, the value put in is not
    searched again, and the text after it is substituted in the same way. *)
Theorem substituteEnvVars_first_placeholder
    (ambient : gmap string (option string)) (before name after : string) :
  includes before "${" = false ->
  name <> EmptyString -> includes name "}" = false ->
  exists replacement,
    substituteEnvVars ambient (before +:+ "${" +:+ name +:+ "}" +:+ after)
    = before +:+ replacement +:+ substituteEnvVars ambient after
    /\ (forall value, ambient !! name = Some (Some value) ->
        replacement = value)
    /\ (ambient !! name = Some None -> replacement = EmptyString)
    /\ (ambient !! name = None -> ~ In name Object_prototype_names ->
        replacement = EmptyString)
    /\ (ambient !! name = None -> In name Object_prototype_names ->
        replacement <> EmptyString).
Proof.
  intros Hbefore Hne Hn. exists (env_or_empty ambient name). split.
  - induction before as [|c before IH].
    + change (EmptyString +:+ ?x) with x.
      change ("${" +:+ name +:+ "}" +:+ after)
        with (String "$" (String "{" (name +:+ "}" +:+ after))).
      rewrite substituteEnvVars_unfold.
      change (String "$" (String "{" (name +:+ "}" +:+ after)))
        with ("${" +:+ name +:+ "}" +:+ after).
      by rewrite placeholder_at_found.
    + simpl in Hbefore. apply orb_false_iff in Hbefore as [Hstart Hrest].
      change (String c before +:+ ?x) with (String c (before +:+ x)).
      rewrite substituteEnvVars_unfold.
      rewrite placeholder_at_needs_opening; [by rewrite IH|].
      clear IH Hrest. destruct before as [|b before]; simpl in *.
      * destruct (Ascii.eqb "$" c); [|done]. done.
      * exact Hstart.
  - unfold env_or_empty. repeat split.
    + by intros value ->.
    + by intros ->.
    + intros -> Hproto.
      destruct (get_property Object_prototype_members name) as [member|] eqn:Hg;
        [|done].
      apply get_property_In in Hg. destruct Hproto.
      apply (in_map fst) in Hg. exact Hg.
    + intros -> Hproto. unfold Object_prototype_names in Hproto.
      apply in_map_iff in Hproto as [[k member] [Hk Hin]]. simpl in Hk.
      subst k. revert Hin. unfold Object_prototype_members.
      intros Hin. simpl in Hin.
      repeat (destruct Hin as [[= <- <-] | Hin]; [vm_compute; discriminate|]).
      destruct Hin.
Qed.

Lemma substituteEnvVars_first_placeholder_witness :
  exists replacement,
    substituteEnvVars {[ "TEST_MCP_TOKEN" := Some "secret123" ]}
                      ("Bearer " +:+ "${" +:+ "TEST_MCP_TOKEN" +:+ "}" +:+ "")
    = "Bearer " +:+ replacement
      +:+ substituteEnvVars {[ "TEST_MCP_TOKEN" := Some "secret123" ]} ""
    /\ replacement = "secret123".
Proof.
  destruct (substituteEnvVars_first_placeholder
              {[ "TEST_MCP_TOKEN" := Some "secret123" ]} "Bearer "
              "TEST_MCP_TOKEN" "")
    as (replacement & Hrun & Hset & _); [done | done | done |].
  exists replacement. split; [exact Hrun|]. by apply Hset.
Defined.

(** ** Substitution in a configuration, and the loader *)

Local Arguments String.eqb : simpl never.

Lemma assigned_entries_plain (members : list (string * JSON)) :
  forallb (fun '(key, _) => negb (String.eqb key "__proto__")) members = true ->
  assigned_entries members = members.
Proof.
  unfold assigned_entries. induction members as [|[k v] members IH];
    simpl; [done|].
  intros [Hk Hm]%andb_true_iff. rewrite Hk. by rewrite IH.
Qed.

(** X16. A configuration none of whose strings opens a placeholder, and none
    of whose objects has a key [__proto__], goes through
    [substituteEnvVarsInObject] unchanged, whatever the environment. *)
Theorem substituteEnvVarsInObject_keeps_plain
    (ambient : gmap string (option string)) (obj : JSON) :
  plain obj = true -> substituteEnvVarsInObject ambient obj = obj.
Proof.
  revert obj. fix IH 1. intros [ | b | q | value | items | members] Hp;
    try reflexivity.
  - simpl in *. f_equal. apply substituteEnvVars_without_opening.
    by apply negb_true_iff.
  - simpl in *. f_equal. revert items Hp. fix IHitems 1.
    intros [|item items] Hp; [reflexivity|]. simpl in *.
    apply andb_true_iff in Hp as [Hitem Hitems].
    f_equal; [by apply IH | by apply IHitems].
  - simpl in *. f_equal.
    assert (Hmap : map (fun '(key, value) =>
                          (key, substituteEnvVarsInObject ambient value))
                       members = members).
    { revert members Hp. fix IHmembers 1.
      intros [|[key value] members] Hp; [reflexivity|]. simpl in *.
      apply andb_true_iff in Hp as [[_ Hvalue]%andb_true_iff Hmembers].
      f_equal; [f_equal; by apply IH | by apply IHmembers]. }
    rewrite Hmap. apply assigned_entries_plain.
    clear -Hp. induction members as [|[key value] members IHm];
      simpl in *; [done|].
    apply andb_true_iff in Hp as [[Hk _]%andb_true_iff Hm].
    by rewrite Hk, IHm.
Qed.

Lemma substituteEnvVarsInObject_keeps_plain_witness :
  substituteEnvVarsInObject {[ "HOME" := Some "/home/user" ]}
    (JObject [("mcpServers",
               JObject [("test", JObject [("command", JString "echo");
                                          ("args", JArray [JString "hello"])])])])
  = JObject [("mcpServers",
              JObject [("test", JObject [("command", JString "echo");
                                         ("args", JArray [JString "hello"])])])].
Proof.
  apply (substituteEnvVarsInObject_keeps_plain
           {[ "HOME" := Some "/home/user" ]}). reflexivity.
Defined.

Lemma get_property_assigned (f : JSON -> JSON) (members : list (string * JSON))
    (key : string) :
  key <> "__proto__" ->
  get_property (assigned_entries
                  (map (fun '(k, v) => (k, f v)) members)) key
  = f <$> get_property members key.
Proof.
  intros Hkey. unfold assigned_entries.
  induction members as [|[k v] members IH]; simpl; [done|].
  destruct (String.eqb_spec k "__proto__") as [->|Hk]; simpl.
  - destruct (String.eqb_spec "__proto__" key) as [<-|]; [done|]. exact IH.
  - destruct (String.eqb_spec k key); [done|]. exact IH.
Qed.

Section LoadingProperties.

Context {St : Type}.
Variable resolve : string -> string.
Variable join : list string -> string.
Variable homedir : string.
Variable existsSync : string -> bool.
Variable file_text : string -> Error + string.
Variable JSON_parse : string -> Error + JSON.
Variable configNotFound : string -> string.
Variable configSearch : string.
Variable configInvalidJson : string -> string -> string.
Variable configMissingField : string -> string.

Local Abbreviation readConfig' :=
  (readConfig (St := St) file_text JSON_parse configInvalidJson
              configMissingField).
Local Abbreviation loadConfig' :=
  (loadConfig (St := St) resolve join homedir existsSync file_text JSON_parse
              configNotFound configSearch configInvalidJson
              configMissingField).

Lemma truthy_Some (text : string) : text <> "" -> truthy (Some text) = true.
Proof. intros H. by apply negb_true_iff, String.eqb_neq. Qed.

(** X17. A path given as argument is the one read, whatever
    [MCP_CONFIG_PATH] says; without an argument, the path in
    [MCP_CONFIG_PATH] is the one read. In either case a file that does not
    exist is an error: the default locations are not searched. *)
Theorem loadConfig_given_path (w : World St) :
  (forall path, path <> "" -> resolve path <> "" ->
     loadConfig' (Some path) w
     = if existsSync (resolve path)
       then readConfig' (resolve path) w
       else (inl (mkError "Error" (configNotFound (resolve path))), w))
  /\ (forall explicitPath path,
        truthy explicitPath = false ->
        process_env w !! "MCP_CONFIG_PATH" = Some (Some path) ->
        path <> "" -> resolve path <> "" ->
        loadConfig' explicitPath w
        = if existsSync (resolve path)
          then readConfig' (resolve path) w
          else (inl (mkError "Error" (configNotFound (resolve path))), w)).
Proof.
  split.
  - intros path Hpath Hresolved. unfold loadConfig.
    rewrite (truthy_Some path Hpath). simpl default.
    rewrite (truthy_Some _ Hresolved).
    by destruct (existsSync (resolve path)).
  - intros explicitPath path Hexplicit Henv Hpath Hresolved. unfold loadConfig.
    rewrite Hexplicit, Henv. simpl mjoin.
    rewrite (truthy_Some path Hpath). simpl default.
    rewrite (truthy_Some _ Hresolved).
    by destruct (existsSync (resolve path)).
Qed.

(** X18. With no path given as argument or in [MCP_CONFIG_PATH], the file read
    is the first that exists of [./mcp_servers.json], [~/.mcp_servers.json]
    and [~/.config/mcp/mcp_servers.json], in that order, and when none exists
    the search error is thrown. *)
Theorem loadConfig_default_search (explicitPath : option string)
    (w : World St) :
  truthy explicitPath = false ->
  truthy (mjoin (process_env w !! "MCP_CONFIG_PATH")) = false ->
  let here := resolve "./mcp_servers.json" in
  let home := join [homedir; ".mcp_servers.json"] in
  let dotconfig := join [homedir; ".config"; "mcp"; "mcp_servers.json"] in
  here <> "" -> home <> "" -> dotconfig <> "" ->
  loadConfig' explicitPath w
  = if existsSync here then readConfig' here w
    else if existsSync home then readConfig' home w
    else if existsSync dotconfig then readConfig' dotconfig w
    else (inl (mkError "Error" configSearch), w).
Proof.
  intros Hexplicit Henv here home dotconfig Hhere Hhome Hdot.
  unfold loadConfig. rewrite Hexplicit, Henv.
  change (truthy None) with false. cbv iota.
  unfold getDefaultConfigPaths. fold here home dotconfig. simpl find.
  destruct (existsSync here); [by rewrite (truthy_Some _ Hhere)|].
  destruct (existsSync home); [by rewrite (truthy_Some _ Hhome)|].
  destruct (existsSync dotconfig); [by rewrite (truthy_Some _ Hdot)|].
  reflexivity.
Qed.

Lemma readConfig_validated (path : string) (w w' : World St) (config : JSON) :
  readConfig' path w = (inr config, w') ->
  w' = w
  /\ exists members servers,
       config = JObject members
       /\ get_property members "mcpServers" = Some servers
       /\ typeof_object servers = true /\ JSON_truthy servers = true.
Proof.
  unfold readConfig. destruct (file_text path) as [e|content]; [done|].
  destruct (JSON_parse content) as [e|parsed]; [done|].
  destruct parsed as [ | b | q | s | items | members]; simpl; try done.
  destruct (get_property members "mcpServers") as [servers|] eqn:Hg; [|done].
  destruct (JSON_truthy servers) eqn:Ht; [|done].
  destruct (typeof_object servers) eqn:Ho; [|done]. simpl.
  intros [= <- <-]. split; [done|].
  eexists _, _. split; [reflexivity|].
  rewrite get_property_assigned by done. rewrite Hg. simpl.
  split; [reflexivity|].
  by destruct servers.
Qed.

(** X19. A configuration [loadConfig] returns is an object with a member
    [mcpServers] that is an object or an array, and loading leaves the world
    as it was. *)
Theorem loadConfig_returns_validated (explicitPath : option string)
    (w w' : World St) (config : JSON) :
  loadConfig' explicitPath w = (inr config, w') ->
  w' = w
  /\ exists members servers,
       config = JObject members
       /\ get_property members "mcpServers" = Some servers
       /\ match servers with
          | JObject _ | JArray _ => True
          | _ => False
          end.
Proof.
  unfold loadConfig. intros Hload.
  assert (Hread : exists path, readConfig' path w = (inr config, w')).
  { revert Hload.
    repeat match goal with
           | |- context [if ?b then _ else _] => destruct b
           end; try done; eauto. }
  destruct Hread as [path Hread].
  destruct (readConfig_validated path w w' config Hread)
    as (-> & members & servers & -> & Hg & Ho & Ht).
  split; [done|]. exists members, servers. split; [done|]. split; [done|].
  by destruct servers.
Qed.

End LoadingProperties.

Lemma loadConfig_default_search_witness :
  loadConfig (St := unit) sample_resolve sample_join "/home/user"
             sample_existsSync sample_file_text sample_JSON_parse
             (fun path => "Config file not found: " +:+ path)
             "No config file found"
             (fun path text => "Invalid JSON in " +:+ path)
             (fun path => "Missing mcpServers in " +:+ path)
             None (world_drawing (1 # 2))
  = (inr (JObject [("mcpServers", JObject [])]), world_drawing (1 # 2)).
Proof.
  rewrite (loadConfig_default_search sample_resolve sample_join "/home/user"
             sample_existsSync sample_file_text sample_JSON_parse
             (fun path => "Config file not found: " +:+ path)
             "No config file found"
             (fun path text => "Invalid JSON in " +:+ path)
             (fun path => "Missing mcpServers in " +:+ path)
             None (world_drawing (1 # 2))); done.
Defined.

Lemma loadConfig_returns_validated_witness :
  world_drawing (1 # 2) = world_drawing (1 # 2)
  /\ exists members servers,
       JObject [("mcpServers", JObject [])] = JObject members
       /\ get_property members "mcpServers" = Some servers
       /\ match servers with
          | JObject _ | JArray _ => True
          | _ => False
          end.
Proof.
  apply (loadConfig_returns_validated sample_resolve sample_join "/home/user"
           sample_existsSync sample_file_text sample_JSON_parse
           (fun path => "Config file not found: " +:+ path)
           "No config file found"
           (fun path text => "Invalid JSON in " +:+ path)
           (fun path => "Missing mcpServers in " +:+ path)
           None (world_drawing (1 # 2))).
  reflexivity.
Defined.

(** ** The patterns of the grep command *)

Lemma glob_test_star (rest s : list ascii) :
  glob_test ("*"%char :: rest) s
  = glob_test rest s
    || match s with
       | [] => false
       | c :: s' =>
           negb (is_line_terminator c) && glob_test ("*"%char :: rest) s'
       end.
Proof. by destruct s. Qed.

Lemma glob_test_any (rest s : list ascii) :
  glob_test ("?"%char :: rest) s
  = match s with
    | [] => false
    | c :: s' => negb (is_line_terminator c) && glob_test rest s'
    end.
Proof. by destruct s. Qed.

Lemma glob_test_literal (p : ascii) (rest s : list ascii) :
  Ascii.eqb p "*" = false -> Ascii.eqb p "?" = false ->
  glob_test (p :: rest) s
  = match s with
    | [] => false
    | c :: s' => same_char_ignoring_case p c && glob_test rest s'
    end.
Proof. intros H1 H2. simpl. rewrite H1, H2. by destruct s. Qed.

(** What a star stands for: any run of characters with no line break. *)
Lemma glob_test_star_spec (rest s : list ascii) :
  glob_test ("*"%char :: rest) s = true <->
  exists run s',
    s = (run ++ s')%list
    /\ forallb (fun c => negb (is_line_terminator c)) run = true
    /\ glob_test rest s' = true.
Proof.
  induction s as [|c s IH]; rewrite glob_test_star.
  - rewrite orb_false_r. split.
    + intros H. by exists [], [].
    + intros (run & s' & Hs & _ & H).
      symmetry in Hs. apply app_eq_nil in Hs as [_ ->]. done.
  - rewrite orb_true_iff, andb_true_iff, IH. split.
    + intros [H|[Hc (run & s' & -> & Hrun & H)]].
      * by exists [], (c :: s).
      * exists (c :: run), s'. simpl. by rewrite Hc, Hrun.
    + intros (run & s' & Hs & Hrun & H). destruct run as [|d run].
      * left. simpl in Hs. by rewrite Hs.
      * right. simpl in Hs, Hrun. injection Hs as <- ->.
        apply andb_true_iff in Hrun as [Hd Hrun].
        split; [done|]. by exists run, s'.
Qed.

(** The pattern made of two patterns matches the texts made of a text of the
    first and a text of the second. *)
Lemma glob_test_app (p q s : list ascii) :
  glob_test (p ++ q) s = true <->
  exists s1 s2,
    s = (s1 ++ s2)%list /\ glob_test p s1 = true /\ glob_test q s2 = true.
Proof.
  revert s. induction p as [|c p IH]; intros s.
  - simpl. split.
    + intros H. by exists [], s.
    + intros ([|d s1] & s2 & -> & H1 & H2); [done|discriminate].
  - change ((c :: p) ++ q)%list with (c :: (p ++ q))%list.
    destruct (Ascii.eqb c "*") eqn:Hstar.
    { apply Ascii.eqb_eq in Hstar as ->.
      rewrite glob_test_star_spec. split.
      - intros (run & s' & -> & Hrun & H).
        apply IH in H as (s1 & s2 & -> & H1 & H2).
        exists (run ++ s1)%list, s2. split; [by rewrite app_assoc|].
        split; [|done]. apply glob_test_star_spec. by exists run, s1.
      - intros (s1 & s2 & -> & H1 & H2).
        apply glob_test_star_spec in H1 as (run & s' & -> & Hrun & H1).
        exists run, (s' ++ s2)%list. split; [by rewrite app_assoc|].
        split; [done|]. apply IH. by exists s', s2. }
    destruct (Ascii.eqb c "?") eqn:Hany.
    { apply Ascii.eqb_eq in Hany as ->. rewrite glob_test_any. split.
      - destruct s as [|d s]; [done|].
        intros [Hd H]%andb_true_iff.
        apply IH in H as (s1 & s2 & -> & H1 & H2).
        exists (d :: s1), s2. split; [done|]. split; [|done].
        rewrite glob_test_any. by rewrite Hd.
      - intros (s1 & s2 & -> & H1 & H2). rewrite glob_test_any in H1.
        destruct s1 as [|d s1]; [done|]. simpl.
        apply andb_true_iff in H1 as [Hd H1]. rewrite Hd. simpl.
        apply IH. by exists s1, s2. }
    rewrite glob_test_literal by done. split.
    + destruct s as [|d s]; [done|].
      intros [Hd H]%andb_true_iff.
      apply IH in H as (s1 & s2 & -> & H1 & H2).
      exists (d :: s1), s2. split; [done|]. split; [|done].
      rewrite glob_test_literal by done. by rewrite Hd.
    + intros (s1 & s2 & -> & H1 & H2).
      rewrite glob_test_literal in H1 by done.
      destruct s1 as [|d s1]; [done|]. simpl.
      apply andb_true_iff in H1 as [Hd H1]. rewrite Hd. simpl.
      apply IH. by exists s1, s2.
Qed.

Lemma list_ascii_of_string_app (s t : string) :
  String.list_ascii_of_string (s +:+ t)
  = (String.list_ascii_of_string s ++ String.list_ascii_of_string t)%list.
Proof. induction s as [|c s IH]; simpl; [done|]. by rewrite IH. Qed.

(** X20. Patterns compose: the pattern written as one pattern after another
    matches exactly the texts that are a text the first matches followed by a
    text the second matches. *)
Theorem globToRegex_concatenation (p q s : string) :
  globToRegex (p +:+ q) s = true <->
  exists s1 s2,
    s = s1 +:+ s2 /\ globToRegex p s1 = true /\ globToRegex q s2 = true.
Proof.
  unfold globToRegex. rewrite list_ascii_of_string_app, glob_test_app. split.
  - intros (l1 & l2 & Hs & H1 & H2).
    exists (String.string_of_list_ascii l1), (String.string_of_list_ascii l2).
    rewrite !String.list_ascii_of_string_of_list_ascii.
    split; [|done].
    rewrite <- (String.string_of_list_ascii_of_string s), Hs.
    clear. induction l1 as [|c l1 IH]; simpl; [done|]. by rewrite IH.
  - intros (s1 & s2 & -> & H1 & H2).
    exists (String.list_ascii_of_string s1), (String.list_ascii_of_string s2).
    by rewrite list_ascii_of_string_app.
Qed.

(** X21. A pattern of ASCII characters with no star and no question mark
    matches the texts that are equal to it up to the case of the ASCII
    letters, and no other: not the texts that merely contain it, and no text
    with a character that is not ASCII. *)
Theorem globToRegex_without_wildcards (pattern s : string) :
  is_ascii pattern = true ->
  includes pattern "*" = false -> includes pattern "?" = false ->
  globToRegex pattern s = same_ignoring_case pattern s.
Proof.
  intros _. unfold globToRegex. revert s.
  induction pattern as [|p pattern IH]; intros s Hstar Hany.
  - by destruct s.
  - rewrite includes_char_cons in Hstar, Hany.
    apply orb_false_iff in Hstar as [Hp1 Hstar].
    apply orb_false_iff in Hany as [Hp2 Hany].
    change (String.list_ascii_of_string (String p pattern))
      with (p :: String.list_ascii_of_string pattern).
    rewrite glob_test_literal by by rewrite Ascii.eqb_sym.
    destruct s as [|c s]; [done|]. simpl. by rewrite IH.
Qed.

Lemma globToRegex_without_wildcards_witness :
  globToRegex "file" "read_file" = same_ignoring_case "file" "read_file".
Proof.
  apply (globToRegex_without_wildcards "file" "read_file"); reflexivity.
Defined.

(** X22. The pattern of one star matches every text of ASCII characters
    that has no line break, the empty text included, and no text of ASCII
    characters that has one. *)
Theorem globToRegex_star (s : string) :
  is_ascii s = true ->
  globToRegex "*" s
  = forallb (fun c => negb (is_line_terminator c))
            (String.list_ascii_of_string s).
Proof.
  intros _. unfold globToRegex.
  change (String.list_ascii_of_string "*") with ["*"%char].
  induction (String.list_ascii_of_string s) as [|c l IH];
    rewrite glob_test_star; [done|].
  rewrite IH. simpl. by destruct (is_line_terminator c).
Qed.

Lemma lower_ascii_table :
  forallb (fun c =>
             Bool.eqb (Ascii.eqb (lower_ascii c) "*") (Ascii.eqb c "*")
             && Bool.eqb (Ascii.eqb (lower_ascii c) "?") (Ascii.eqb c "?")
             && Bool.eqb (is_line_terminator (lower_ascii c))
                         (is_line_terminator c)
             && Ascii.eqb (lower_ascii (lower_ascii c)) (lower_ascii c))
          (map ascii_of_nat (seq 0 256)) = true.
Proof. vm_compute. reflexivity. Qed.

Lemma lower_ascii_facts (c : ascii) :
  Ascii.eqb (lower_ascii c) "*" = Ascii.eqb c "*"
  /\ Ascii.eqb (lower_ascii c) "?" = Ascii.eqb c "?"
  /\ is_line_terminator (lower_ascii c) = is_line_terminator c
  /\ lower_ascii (lower_ascii c) = lower_ascii c.
Proof.
  pose proof lower_ascii_table as H. rewrite forallb_forall in H.
  specialize (H c (ascii_enumerated c)).
  apply andb_true_iff in H as [[[H1 H2]%andb_true_iff H3]%andb_true_iff H4].
  repeat split; try by apply Bool.eqb_prop. by apply Ascii.eqb_eq.
Qed.

Lemma same_char_ignoring_case_lower_r (p c : ascii) :
  same_char_ignoring_case p (lower_ascii c) = same_char_ignoring_case p c.
Proof.
  apply Bool.eq_iff_eq_true. rewrite !same_char_ignoring_case_lower.
  by rewrite (proj2 (proj2 (proj2 (lower_ascii_facts c)))).
Qed.

Lemma same_char_ignoring_case_lower_l (p c : ascii) :
  same_char_ignoring_case (lower_ascii p) c = same_char_ignoring_case p c.
Proof.
  apply Bool.eq_iff_eq_true. rewrite !same_char_ignoring_case_lower.
  by rewrite (proj2 (proj2 (proj2 (lower_ascii_facts p)))).
Qed.

Lemma glob_test_lower_text (p l : list ascii) :
  glob_test p (map lower_ascii l) = glob_test p l.
Proof.
  revert l. induction p as [|c p IH]; intros l.
  - by destruct l.
  - destruct (Ascii.eqb c "*") eqn:Hstar.
    { apply Ascii.eqb_eq in Hstar as ->.
      induction l as [|d l IHl].
      - rewrite !glob_test_star. by rewrite (IH []).
      - change (map lower_ascii (d :: l))
          with (lower_ascii d :: map lower_ascii l).
        rewrite (glob_test_star p (lower_ascii d :: map lower_ascii l)).
        rewrite (glob_test_star p (d :: l)).
        rewrite IHl, (proj1 (proj2 (proj2 (lower_ascii_facts d)))).
        change (lower_ascii d :: map lower_ascii l)
          with (map lower_ascii (d :: l)).
        by rewrite IH. }
    destruct (Ascii.eqb c "?") eqn:Hany.
    { apply Ascii.eqb_eq in Hany as ->. rewrite !glob_test_any.
      destruct l as [|d l]; [done|]. simpl.
      by rewrite IH, (proj1 (proj2 (proj2 (lower_ascii_facts d)))). }
    rewrite !glob_test_literal by done.
    destruct l as [|d l]; [done|]. simpl.
    by rewrite IH, same_char_ignoring_case_lower_r.
Qed.

Lemma glob_test_lower_pattern (p l : list ascii) :
  glob_test (map lower_ascii p) l = glob_test p l.
Proof.
  revert l. induction p as [|c p IH]; intros l; [done|].
  change (map lower_ascii (c :: p)) with (lower_ascii c :: map lower_ascii p).
  destruct (lower_ascii_facts c) as (Hs & Ha & _ & _).
  destruct (Ascii.eqb c "*") eqn:Hstar.
  { apply Ascii.eqb_eq in Hs as ->. apply Ascii.eqb_eq in Hstar as ->.
    induction l as [|d l IHl].
    - rewrite !glob_test_star. by rewrite IH.
    - rewrite (glob_test_star (map lower_ascii p) (d :: l)).
      rewrite (glob_test_star p (d :: l)). by rewrite IH, IHl. }
  destruct (Ascii.eqb c "?") eqn:Hany.
  { apply Ascii.eqb_eq in Ha as ->. apply Ascii.eqb_eq in Hany as ->.
    rewrite !glob_test_any. destruct l as [|d l]; [done|]. by rewrite IH. }
  rewrite !glob_test_literal by done.
  destruct l as [|d l]; [done|].
  by rewrite IH, same_char_ignoring_case_lower_l.
Qed.

(** X23. On patterns and texts of ASCII characters, matching ignores the
    case of the letters, of the text and of the pattern alike: lowering
    either leaves the answer as it was. *)
Theorem globToRegex_ignores_case (pattern s : string) :
  is_ascii pattern = true -> is_ascii s = true ->
  globToRegex pattern (toLowerCase s) = globToRegex pattern s
  /\ globToRegex (toLowerCase pattern) s = globToRegex pattern s.
Proof.
  intros Hp Hs. unfold globToRegex.
  rewrite !list_ascii_of_toLowerCase by done.
  split; [apply glob_test_lower_text | apply glob_test_lower_pattern].
Qed.

Lemma globToRegex_star_witness :
  globToRegex "*" "read_file"
  = forallb (fun c => negb (is_line_terminator c))
            (String.list_ascii_of_string "read_file").
Proof. apply (globToRegex_star "read_file"). reflexivity. Defined.

Lemma globToRegex_ignores_case_witness :
  globToRegex "Read_*" (toLowerCase "READ_FILE") = globToRegex "Read_*" "READ_FILE"
  /\ globToRegex (toLowerCase "Read_*") "READ_FILE"
     = globToRegex "Read_*" "READ_FILE".
Proof.
  apply (globToRegex_ignores_case "Read_*" "READ_FILE"); reflexivity.
Defined.

(** ** More on the classifier *)

(** X24. An error whose message is transient stays transient when text is put
    before and after its message, and whatever the name of the error. *)
Theorem isTransientError_survives_wrapping (e : Error)
    (name' before after : string) :
  isTransientError e = true ->
  isTransientError (mkError name' (before +:+ message e +:+ after)) = true.
Proof.
  rewrite !isTransientError_contains.
  intros (needle & Hin & pre & mid & post & Hmsg & Hmid).
  exists needle. split; [done|].
  exists (before +:+ pre), mid, (post +:+ after). split; [|done].
  simpl message. by rewrite Hmsg, !append_assoc.
Qed.

Lemma isTransientError_survives_wrapping_witness :
  isTransientError
    (mkError "McpError"
       ("Failed to connect: " +:+ message (mkError "Error" "read ECONNRESET")
        +:+ " (server github)")) = true.
Proof.
  apply (isTransientError_survives_wrapping
           (mkError "Error" "read ECONNRESET") "McpError"
           "Failed to connect: " " (server github)").
  reflexivity.
Defined.
